(** * kv_engine: dirty queue, flusher, hash table and task ordering

    A shallow embedding of
    - [src/ep.cc]: [EventuallyPersistentStore] (dirty queue, flusher
      life cycle, [flush] / [flushSome] / [flushOne]);
    - [src/src/tasks.h]: [GlobalTask], [CompareByPriority],
      [CompareByDueDate];
    - [src/engines/ep/tests/module_tests/hash_table_test.cc]: the
      [Counter] visitor, [count] and the [del] helper, over a hash table
      whose class is not part of the sources and is modelled from the
      specification;
    - [src/utilities/tracer.cc], [src/utilities/trace_helpers.h] and
      [src/daemon/base_cookie.h]: the [Tracer], the tracing macros and
      the cookie they act on;
    - [src/daemon/protocol/mcbp/sasl_auth_command_context.cc]: the state
      machine of [SaslAuthCommandContext];
    - [src/daemon/cccp_notification_task.cc]: [CccpNotificationTask] and
      the push event it queues;
    - [src/engines/ep/tests/ep_testsuite_common.cc]: [getTest],
      [get_dbname], [get_tests], [rmdb] and [create_buckets].

    Stateful code is written in a small state-and-exception monad over the
    store; loops carry fuel, and a call that blocks on the condition
    variable of the store ends as [Waiting].  The persistence layer is an
    external collaborator: the model records every call issued to it and
    asks an oracle, a function of the calls issued so far, whether the
    call returns or throws. *)

From Stdlib Require Import ZArith List Lia Bool String Permutation.
From Stdlib Require Import DecimalString.
From stdpp Require Import base list.
Import ListNotations.

Local Open Scope Z_scope.

(* ================================================================== *)
(** * Tasks ([src/src/tasks.h]) *)
(* ================================================================== *)

Module Tasks.

(** [task_state_t] *)
Inductive task_state_t := TASK_RUNNING | TASK_DEAD.

(** [struct timeval] *)
Record timeval := mkTimeval { tv_sec : Z; tv_usec : Z }.

(** Modelled from the spec: [less_tv] is declared outside the sources; the
    spec orders due dates by "earlier", which on a [timeval] is the
    lexicographic comparison of seconds, then microseconds. *)
Definition less_tv (tv1 tv2 : timeval) : bool :=
  if tv_sec tv1 =? tv_sec tv2 then tv_usec tv1 <? tv_usec tv2
  else tv_sec tv1 <? tv_sec tv2.

Section WithPriority.

(** The class [Priority] ([priority.h]) is not part of the sources.  It is
    taken as a parameter: a type of priority classes with a rank, a larger
    rank being a higher priority.  Its [operator==] and [operator<] compare
    ranks. *)
Variable Priority : Type.
Variable rank : Priority -> Z.

Definition priority_eq (p1 p2 : Priority) : bool := rank p1 =? rank p2.
Definition priority_lt (p1 p2 : Priority) : bool := rank p1 <? rank p2.

(** [class GlobalTask]: the fields the comparators and the life cycle use.
    [taskId] is a [size_t]. *)
Record GlobalTask := mkTask {
  priority : Priority;
  blockShutdown : bool;
  serialShard : Z;
  state : task_state_t;
  taskId : Z;
  waketime : timeval
}.

(** [GlobalTask::nextTaskId]: [task_id_counter.fetch_add(1)] on the static
    counter, a [size_t]; the result is the id and the counter after it. *)
Definition nextTaskId (task_id_counter : Z) : Z * Z :=
  (task_id_counter, (task_id_counter + 1) mod 2 ^ 64).

(** The constructor of [GlobalTask]: the task is running and takes the next
    id; [w] is the wake time [snooze(sleeptime)] computes (the body of
    [snooze] is not in the sources). *)
Definition new_task (p : Priority) (completeBeforeShutdown : bool)
           (serialShardId : Z) (w : timeval) (task_id_counter : Z)
  : GlobalTask * Z :=
  (mkTask p completeBeforeShutdown serialShardId TASK_RUNNING
          (fst (nextTaskId task_id_counter)) w,
   snd (nextTaskId task_id_counter)).

(** [GlobalTask::isdead] *)
Definition isdead (t : GlobalTask) : bool :=
  match state t with TASK_DEAD => true | TASK_RUNNING => false end.

(** [GlobalTask::cancel] *)
Definition cancel (t : GlobalTask) : GlobalTask :=
  mkTask (priority t) (blockShutdown t) (serialShard t) TASK_DEAD
         (taskId t) (waketime t).

(** Assignment to [waketime] (what [snooze] does; its body is not in the
    sources). *)
Definition set_waketime (t : GlobalTask) (w : timeval) : GlobalTask :=
  mkTask (priority t) (blockShutdown t) (serialShard t) (state t)
         (taskId t) w.

(** [CompareByPriority::operator()]:
    [(t1->priority == t2->priority) ? (t1->taskId > t2->taskId)
                                    : (t1->priority < t2->priority)].
    As the comparator of a priority queue, [true] means that [t1] is served
    after [t2]. *)
Definition CompareByPriority (t1 t2 : GlobalTask) : bool :=
  if priority_eq (priority t1) (priority t2)
  then taskId t2 <? taskId t1
  else priority_lt (priority t1) (priority t2).

(** [CompareByDueDate::operator()]: [less_tv(t2->waketime, t1->waketime)]. *)
Definition CompareByDueDate (t1 t2 : GlobalTask) : bool :=
  less_tv (waketime t2) (waketime t1).

(** The ordering the specification words describe, for comparison with the
    comparators above: [t1] is served after [t2] when it has the lower
    priority, or, at equal priority, the later due date, or, at equal due
    date too, the larger id. *)
Definition spec_served_after (t1 t2 : GlobalTask) : bool :=
  if priority_eq (priority t1) (priority t2)
  then
    if less_tv (waketime t2) (waketime t1) then true
    else if less_tv (waketime t1) (waketime t2) then false
    else taskId t2 <? taskId t1
  else priority_lt (priority t1) (priority t2).

End WithPriority.

Arguments priority {Priority} _.
Arguments blockShutdown {Priority} _.
Arguments serialShard {Priority} _.
Arguments state {Priority} _.
Arguments taskId {Priority} _.
Arguments waketime {Priority} _.
Arguments mkTask {Priority} _ _ _ _ _ _.
Arguments set_waketime {Priority} _ _.
Arguments new_task {Priority} _ _ _ _ _.
Arguments CompareByPriority {Priority} _ _ _.
Arguments CompareByDueDate {Priority} _ _.
Arguments spec_served_after {Priority} _ _ _.

End Tasks.

(* ================================================================== *)
(** * The hash table *)
(* ================================================================== *)

(** The class [HashTable] and its slots ([StoredValue]) are used by
    [src/ep.cc] and exercised by [hash_table_test.cc], but their sources
    are not part of the repository snapshot.  The definitions of this
    module that stand for them are modelled from the specification (and
    from what the tests observe); the [Counter] visitor, [count] and the
    [del] helper are translated from [hash_table_test.cc]. *)

Module HashTable.

(** [mutation_type_t] / [MutationStatus]: the results [src/ep.cc] and the
    tests name ([NOT_FOUND], [WAS_CLEAN], [WAS_DIRTY]), and the distinct
    result the spec gives to a failed slot allocation ([NOMEM]). *)
Inductive mutation_type_t := NOT_FOUND | WAS_CLEAN | WAS_DIRTY | NOMEM.

(** [Item(key, flags, exptime, value)] as [src/ep.cc] builds it. *)
Record Item := mkItem {
  item_key : string;
  item_flags : Z;
  item_exptime : Z;
  item_value : string
}.

(** Modelled from the spec: a document slot ([StoredValue]) with its key,
    value payload, flags, expiry, dirty flag and deleted flag. *)
Record StoredValue := mkStoredValue {
  getKey : string;
  getFlags : Z;
  getExptime : Z;
  getValue : string;
  isDirty : bool;
  isDeleted : bool
}.

(** Modelled from the spec: [StoredValue::markClean] clears the dirty
    flag. *)
Definition markClean (v : StoredValue) : StoredValue :=
  mkStoredValue (getKey v) (getFlags v) (getExptime v) (getValue v)
                false (isDeleted v).

(** Modelled from the spec: a slot created or overwritten by [set] holds
    the item's value and metadata, is dirty and is live. *)
Definition slot_of_item (i : Item) : StoredValue :=
  mkStoredValue (item_key i) (item_flags i) (item_exptime i) (item_value i)
                true false.

(** Modelled from the spec: [softDelete] marks the slot a tombstone (and
    dirty: the deletion is a mutation still to be written). *)
Definition softDeleted (v : StoredValue) : StoredValue :=
  mkStoredValue (getKey v) (getFlags v) (getExptime v) (getValue v)
                true true.

(** Modelled from the spec: the hash table owns an array of buckets, each a
    chain of slots (head first), a fixed lock count, and the aggregate
    counters [numItems] and [numDeletedItems]. *)
Record HashTable := mkHT {
  values : list (list StoredValue);
  n_locks : nat;
  numItems : nat;
  numDeletedItems : nat
}.

Definition getSize (h : HashTable) : nat := length (values h).
Definition getNumLocks (h : HashTable) : nat := n_locks h.
Definition getNumItems (h : HashTable) : nat := numItems h.
Definition getNumDeletedItems (h : HashTable) : nat := numDeletedItems h.

(** Modelled from the spec: a table constructed with [size] buckets and
    [locks] locks is empty. *)
Definition make (size locks : nat) : HashTable :=
  mkHT (repeat [] size) locks 0 0.

(** ** Bucket chains *)

(** The first slot of the chain with the given key. *)
Fixpoint chain_find (key : string) (chain : list StoredValue)
  : option StoredValue :=
  match chain with
  | [] => None
  | v :: rest =>
      if String.eqb (getKey v) key then Some v else chain_find key rest
  end.

(** Apply [f] in place to the first slot of the chain with the key. *)
Fixpoint chain_update (key : string) (f : StoredValue -> StoredValue)
         (chain : list StoredValue) : list StoredValue :=
  match chain with
  | [] => []
  | v :: rest =>
      if String.eqb (getKey v) key then f v :: rest
      else v :: chain_update key f rest
  end.

(** Unlink the first slot of the chain with the key. *)
Fixpoint chain_remove (key : string) (chain : list StoredValue)
  : list StoredValue :=
  match chain with
  | [] => []
  | v :: rest =>
      if String.eqb (getKey v) key then rest
      else v :: chain_remove key rest
  end.

(** [class Counter] of [hash_table_test.cc], a visitor with the counters
    [count] and [deleted].  (With [verify] the visitor also checks that
    each live value equals its key, an expectation on the test data that
    changes neither counter.) *)
Module Counter.

Record t := mk { count : nat; deleted : nat }.

(** [Counter::visit]; the [bool] is the "keep visiting" signal. *)
Definition visit (c : t) (v : StoredValue) : t * bool :=
  if isDeleted v then (mk (count c) (S (deleted c)), true)
  else (mk (S (count c)) (deleted c), true).

End Counter.

Section WithHash.

(** The hash of a key; the hash function is not part of the sources. *)
Variable hash : string -> nat.

(** Modelled from the spec: deterministic bucket selection by key hash. *)
Definition bucket (h : HashTable) (key : string) : nat :=
  (hash key mod getSize h)%nat.

(** Modelled from the spec: the bucket to lock mapping is bucket index
    modulo lock count. *)
Definition getMutex (h : HashTable) (bucket_num : nat) : nat :=
  (bucket_num mod n_locks h)%nat.

(** Modelled from the spec: [unlocked_find] returns the live slot, or the
    tombstone if [wantsDeleted], or nothing. *)
Definition unlocked_find (key : string) (bucket_num : nat)
           (wantsDeleted : bool) (h : HashTable) : option StoredValue :=
  match values h !! bucket_num with
  | None => None
  | Some chain =>
      match chain_find key chain with
      | Some v => if isDeleted v && negb wantsDeleted then None else Some v
      | None => None
      end
  end.

(** Modelled from the spec: [find] selects the bucket and looks the key up
    in it (the recency counter that [trackReference] updates is not
    modelled). *)
Definition find (key : string) (wantsDeleted : bool) (h : HashTable)
  : option StoredValue :=
  unlocked_find key (bucket h key) wantsDeleted h.

(** Modelled from the spec: [set] locates the slot of the key; if absent it
    allocates a slot and links it at the head of the chain, unless the
    allocation fails ([mem_ok = false]), which is reported as [NOMEM]; if
    present it overwrites value and metadata in place and marks the slot
    dirty and live.  The result tells whether the slot was clean (first
    write or previously flushed) or already dirty. *)
Definition set (i : Item) (mem_ok : bool) (h : HashTable)
  : mutation_type_t * HashTable :=
  let bucket_num := bucket h (item_key i) in
  match unlocked_find (item_key i) bucket_num true h with
  | Some v =>
      (if isDirty v then WAS_DIRTY else WAS_CLEAN,
       mkHT (alter (chain_update (item_key i) (fun _ => slot_of_item i))
                   bucket_num (values h))
            (n_locks h) (numItems h)
            (if isDeleted v then Nat.pred (numDeletedItems h)
             else numDeletedItems h))
  | None =>
      if mem_ok then
        (WAS_CLEAN,
         mkHT (alter (cons (slot_of_item i)) bucket_num (values h))
              (n_locks h) (S (numItems h)) (numDeletedItems h))
      else (NOMEM, h)
  end.

(** Modelled from the spec (and from the tests, which see the item count
    drop after it): [unlocked_del] unlinks the slot of the key from its
    chain and releases it. *)
Definition unlocked_del (key : string) (bucket_num : nat) (h : HashTable)
  : HashTable :=
  match unlocked_find key bucket_num true h with
  | None => h
  | Some v =>
      mkHT (alter (chain_remove key) bucket_num (values h))
           (n_locks h) (Nat.pred (numItems h))
           (if isDeleted v then Nat.pred (numDeletedItems h)
            else numDeletedItems h)
  end.

(** [del] of [hash_table_test.cc]: delete the item with the given key;
    [true] if the item existed before this call.  [src/ep.cc] calls the
    same operation [storage.del(key)]. *)
Definition del (key : string) (h : HashTable) : bool * HashTable :=
  let bucket_num := bucket h key in
  match unlocked_find key bucket_num true h with
  | None => (false, h)
  | Some _ => (true, unlocked_del key bucket_num h)
  end.

(** Modelled from the spec: [unlocked_softDelete] turns the live slot of
    the key into a tombstone, which stays in the table. *)
Definition unlocked_softDelete (key : string) (bucket_num : nat)
           (h : HashTable) : HashTable :=
  match unlocked_find key bucket_num false h with
  | None => h
  | Some _ =>
      mkHT (alter (chain_update key softDeleted) bucket_num (values h))
           (n_locks h) (numItems h) (S (numDeletedItems h))
  end.

(** The effect on the table of [v->markClean()] for the slot [v] found for
    [key] in the bucket. *)
Definition unlocked_markClean (key : string) (bucket_num : nat)
           (h : HashTable) : HashTable :=
  mkHT (alter (chain_update key markClean) bucket_num (values h))
       (n_locks h) (numItems h) (numDeletedItems h).

(** Modelled from the spec: [clear] releases all slots. *)
Definition clear (h : HashTable) : HashTable :=
  mkHT (repeat [] (getSize h)) (n_locks h) 0 0.

(** ** Resize *)

(** The largest supported bucket count, [std::numeric_limits<int>::max()]
    (the test resizes to this plus 17 and sees no change). *)
Definition max_buckets : N := 2147483647%N.

(** Modelled from the spec: auto-sizing picks from a precomputed prime-like
    sequence; here the first positive entry that is at least the item
    count, and the current size if there is none. *)
Definition auto_size (prime_size_table : list N) (h : HashTable) : N :=
  match List.find (fun p => (0 <? p)%N && (N.of_nat (numItems h) <=? p)%N)
                  prime_size_table with
  | Some p => p
  | None => N.of_nat (getSize h)
  end.

(** Link the slot at the head of its bucket in the array [nv]. *)
Definition relink (nv : list (list StoredValue)) (v : StoredValue)
  : list (list StoredValue) :=
  alter (cons v) (hash (getKey v) mod length nv)%nat nv.

(** Modelled from the spec: every slot of the old array, bucket by bucket
    in ascending index order, is rehashed into the new array. *)
Definition rehash (new_size : nat) (old : list (list StoredValue))
  : list (list StoredValue) :=
  fold_left relink (concat old) (repeat [] new_size).

(** Modelled from the spec: [resize(newSize)] chooses the new bucket count
    (auto-sizing when [newSize] is 0, the requested size otherwise); a
    request for an out-of-range size is a no-op; otherwise every slot is
    rehashed into the new array. *)
Definition resize (prime_size_table : list N) (newSize : N) (h : HashTable)
  : HashTable :=
  let target := if (newSize =? 0)%N then auto_size prime_size_table h
                else newSize in
  if (max_buckets <? target)%N then h
  else if (target =? 0)%N then h
  else if (target =? N.of_nat (getSize h))%N then h
  else mkHT (rehash (N.to_nat target) (values h))
            (n_locks h) (numItems h) (numDeletedItems h).

(** ** Visiting *)

(** Modelled from the spec: [visit] invokes the visitor once per live and
    once per tombstoned slot, bucket by bucket, and stops early when the
    visitor returns the stop signal ([false]). *)
Fixpoint visit_slots {V : Type} (visitor : V -> StoredValue -> V * bool)
         (c : V) (slots : list StoredValue) : V :=
  match slots with
  | [] => c
  | v :: rest =>
      let (c', continue) := visitor c v in
      if continue then visit_slots visitor c' rest else c'
  end.

Definition visit {V : Type} (visitor : V -> StoredValue -> V * bool)
           (c : V) (h : HashTable) : V :=
  visit_slots visitor c (concat (values h)).

(** [count] of [hash_table_test.cc]: visits the table with a fresh
    [Counter]; returns the live count, and whether the expectation
    [h.getNumItems() == c.count + c.deleted] held. *)
Definition count (h : HashTable) : nat * bool :=
  let c := visit Counter.visit (Counter.mk 0 0) h in
  (Counter.count c,
   Nat.eqb (getNumItems h) (Counter.count c + Counter.deleted c)).

(** ** Sequences of operations *)

Inductive ht_op :=
| OpSet (i : Item) (mem_ok : bool)
| OpDel (key : string)
| OpSoftDelete (key : string)
| OpMarkClean (key : string)
| OpResize (prime_size_table : list N) (newSize : N)
| OpClear.

Definition apply_op (h : HashTable) (o : ht_op) : HashTable :=
  match o with
  | OpSet i mem_ok => snd (set i mem_ok h)
  | OpDel key => snd (del key h)
  | OpSoftDelete key => unlocked_softDelete key (bucket h key) h
  | OpMarkClean key => unlocked_markClean key (bucket h key) h
  | OpResize t n => resize t n h
  | OpClear => clear h
  end.

Definition run_ops (h : HashTable) (ops : list ht_op) : HashTable :=
  fold_left apply_op ops h.

End WithHash.

End HashTable.

(* ================================================================== *)
(** * The store ([src/ep.cc]) *)
(* ================================================================== *)

Module EP.

Import HashTable.

(** [flusher_state] *)
Inductive flusher_state := STOPPED | RUNNING | SHUTTING_DOWN.

(** A call issued to the persistence layer ([underlying], a [KVStore]). *)
Inductive kvop :=
| KvBegin
| KvSet (i : Item)
| KvDel (key : string)
| KvCommit
| KvReset.

(** What a call to the persistence layer does: it returns, it returns
    reporting a failure (a [commit] that returns false, a callback invoked
    with false), or it throws. *)
Inductive kv_outcome := KvOk | KvFailed | KvThrows.

(** The persistence layer as seen by the store: given the calls issued so
    far, the outcome of the next one. *)
Definition KVStore := list kvop -> kvop -> kv_outcome.

(** [struct ep_stats]: the counters.  The age and duration statistics
    ([dirtyAge], [dataAge], their high-water marks, [flushDuration],
    [commit_time]) are computed from the wall clock [ep_current_time()] and
    the time stamps of the slot, neither of which is part of the sources;
    they select no persistence operation and are left out of the model.
    The assertions [flushOne] makes on them are kept, see
    [timing_asserts]. *)
Record ep_stats := mkStats {
  queue_size : Z;
  flusher_todo : Z
}.

Definition zero_stats : ep_stats := mkStats 0 0.

(** [class EventuallyPersistentStore]: the members [src/ep.cc] uses.
    [towrite] is a pointer to the dirty queue ([None] is [NULL]).  [kvlog]
    is the sequence of calls issued to [underlying] so far, and
    [threads_created] counts the successful calls of [pthread_create]; both
    record effects outside the object. *)
Record Store := mkStore {
  storage : HashTable;
  towrite : option (list string);
  stats : ep_stats;
  flusherState : flusher_state;
  txnSize : Z;
  doPersistence : bool;
  est_size : Z;
  kvlog : list kvop;
  threads_created : nat
}.

Definition with_storage (s : Store) (h : HashTable) : Store :=
  mkStore h (towrite s) (stats s) (flusherState s) (txnSize s)
          (doPersistence s) (est_size s) (kvlog s) (threads_created s).
Definition with_towrite (s : Store) (q : option (list string)) : Store :=
  mkStore (storage s) q (stats s) (flusherState s) (txnSize s)
          (doPersistence s) (est_size s) (kvlog s) (threads_created s).
Definition with_stats (s : Store) (st : ep_stats) : Store :=
  mkStore (storage s) (towrite s) st (flusherState s) (txnSize s)
          (doPersistence s) (est_size s) (kvlog s) (threads_created s).
Definition with_flusherState (s : Store) (f : flusher_state) : Store :=
  mkStore (storage s) (towrite s) (stats s) f (txnSize s)
          (doPersistence s) (est_size s) (kvlog s) (threads_created s).
Definition with_kvlog (s : Store) (l : list kvop) : Store :=
  mkStore (storage s) (towrite s) (stats s) (flusherState s) (txnSize s)
          (doPersistence s) (est_size s) l (threads_created s).
Definition with_threads (s : Store) (n : nat) : Store :=
  mkStore (storage s) (towrite s) (stats s) (flusherState s) (txnSize s)
          (doPersistence s) (est_size s) (kvlog s) n.

(** ** The monad: state, exceptions, failed assertions, fuel *)

Inductive result (A : Type) :=
| Done (a : A) (s : Store)      (* returned [a] *)
| Threw (s : Store)             (* a C++ exception is propagating *)
| Aborted (s : Store)           (* [assert] failed or a null pointer was used *)
| Waiting (s : Store)           (* the thread is blocked in [mutex.wait()] *)
| OutOfFuel.                    (* the loop bound of the model was reached *)

Arguments Done {A} _ _.
Arguments Threw {A} _.
Arguments Aborted {A} _.
Arguments Waiting {A} _.
Arguments OutOfFuel {A}.

Definition M (A : Type) := Store -> result A.

Definition ret {A} (a : A) : M A := fun s => Done a s.

Definition bind {A B} (m : M A) (f : A -> M B) : M B :=
  fun s =>
    match m s with
    | Done a s' => f a s'
    | Threw s' => Threw s'
    | Aborted s' => Aborted s'
    | Waiting s' => Waiting s'
    | OutOfFuel => OutOfFuel
    end.

Definition get_store : M Store := fun s => Done s s.
Definition modify (f : Store -> Store) : M unit := fun s => Done tt (f s).
Definition throw {A} : M A := fun s => Threw s.
Definition abort {A} : M A := fun s => Aborted s.
Definition out_of_fuel {A} : M A := fun _ => OutOfFuel.

(** [mutex.wait()]: the thread blocks, holding nothing, until another
    thread calls [mutex.notify()].  The stores here have one thread of
    control, so a call that reaches [wait] ends as [Waiting]: it has not
    returned, and the store is as the call left it. *)
Definition wait {A} : M A := fun s => Waiting s.

(** [try { m } catch (...) { }] *)
Definition try_catch_all (m : M unit) : M unit :=
  fun s =>
    match m s with
    | Threw s' => Done tt s'
    | r => r
    end.

Declare Scope ep_scope.
Delimit Scope ep_scope with ep.
Notation "x <- m ;; k" := (bind m (fun x => k))
  (at level 100, m at next level, right associativity) : ep_scope.
Notation "m ;;; k" := (bind m (fun _ => k))
  (at level 100, right associativity) : ep_scope.
Local Open Scope ep_scope.

(** ** The flusher thread *)

(** [launch_flusher_thread]: runs the body of the thread ([flusher->run()],
    whose source is not part of the repository) and swallows whatever it
    throws, after writing a line to [std::cerr]. *)
Definition launch_flusher_thread (run : M unit) : M unit :=
  try_catch_all run.

(** [EventuallyPersistentStore::startFlusher]; [spawn_ok] tells whether
    [pthread_create] succeeds. *)
Definition startFlusher (spawn_ok : bool) : M unit :=
  s <- get_store ;;
  match flusherState s with
  | STOPPED =>
      if spawn_ok then
        modify (fun s => with_threads s (S (threads_created s))) ;;;
        modify (fun s => with_flusherState s RUNNING)
      else throw
  | _ => ret tt
  end.

(** [EventuallyPersistentStore::stopFlusher] ([flusher->stop()] and
    [mutex.notify()] ask the worker to leave its loop and wake it). *)
Definition stopFlusher : M unit :=
  s <- get_store ;;
  match flusherState s with
  | RUNNING => modify (fun s => with_flusherState s SHUTTING_DOWN)
  | _ => ret tt
  end.

(** [EventuallyPersistentStore::getFlusherState] *)
Definition getFlusherState : M flusher_state :=
  s <- get_store ;; ret (flusherState s).

(** [EventuallyPersistentStore::flusherStopped] *)
Definition flusherStopped : M unit :=
  modify (fun s => with_flusherState s STOPPED).

(** ** The dirty queue *)

(** [EventuallyPersistentStore::initQueue] *)
Definition initQueue : M unit :=
  s <- get_store ;;
  match towrite s with
  | Some _ => abort                                  (* assert(!towrite) *)
  | None =>
      modify (fun s => with_stats s (mkStats 0 (flusher_todo (stats s)))) ;;;
      modify (fun s => with_towrite s (Some []))
  end.

(** Modelled from the spec: [queueDirty] (declared in [ep.hh], which is not
    part of the sources) appends the key to the current dirty queue. *)
Definition queueDirty (key : string) : M unit :=
  s <- get_store ;;
  match towrite s with
  | None => abort
  | Some q => modify (fun s => with_towrite s (Some (q ++ [key])))
  end.

Section WithEnvironment.

(** The hash function of the table and the persistence layer
    ([underlying]); neither is part of the sources. *)
Variable hash : string -> nat.
Variable underlying : KVStore.

(** The checks [flushOne] makes on the time stamps that [markClean] reports
    for a dirty slot: [assert(dirtied > 0)],
    [assert(stats.dirtyAge < (86400 * 30))] and
    [assert(stats.dataAge <= stats.dirtyAge)].  The clock
    [ep_current_time] and the time stamps of a slot are not part of the
    sources; [timing_asserts] tells, given the calls issued to the
    persistence layer so far (they stand for the time that has passed) and
    the slot, whether the three assertions hold.  (The engine is taken to
    have installed a clock: the initial [uninitialized_current_time]
    aborts.) *)
Variable timing_asserts : list kvop -> StoredValue -> bool.

(** A call [underlying->op(...)]: the call is issued (and logged), and
    either returns, whatever it reports, or throws. *)
Definition kv_call (op : kvop) : M unit :=
  s <- get_store ;;
  modify (fun s => with_kvlog s (kvlog s ++ [op])) ;;;
  match underlying (kvlog s) op with
  | KvThrows => throw
  | KvOk | KvFailed => ret tt
  end.

(** [EventuallyPersistentStore::set], from the point where [storage.set]
    has returned [mtype].  The result is the sequence of values the
    callback [cb] was invoked with. *)
Definition set_enqueue (mtype : mutation_type_t) (item : Item)
  : M (list bool) :=
  match mtype with
  | WAS_CLEAN | NOT_FOUND => queueDirty (item_key item)
  | _ => ret tt
  end ;;;
  let rv := true in
  ret [rv].

(** [EventuallyPersistentStore::set]; [mem_ok] tells whether the hash table
    can allocate a slot. *)
Definition set (item : Item) (mem_ok : bool) : M (list bool) :=
  s <- get_store ;;
  let (mtype, h) := HashTable.set hash item mem_ok (storage s) in
  modify (fun s => with_storage s h) ;;;
  set_enqueue mtype item.

(** [EventuallyPersistentStore::get]: the callback receives the item, or
    the "not found" value. *)
Definition get (key : string) : M (list (option Item)) :=
  s <- get_store ;;
  let bucket_num := bucket hash (storage s) key in
  match unlocked_find key bucket_num false (storage s) with
  | Some v => ret [Some (mkItem (getKey v) (getFlags v) (getExptime v)
                                (getValue v))]
  | None => ret [None]
  end.

(** [EventuallyPersistentStore::getStats] *)
Definition getStats : M ep_stats :=
  s <- get_store ;; ret (stats s).

(** [EventuallyPersistentStore::resetStats] *)
Definition resetStats : M unit :=
  modify (fun s => with_stats s zero_stats).

(** [EventuallyPersistentStore::del]; the result is the sequence of values
    the callback was invoked with. *)
Definition del (key : string) : M (list bool) :=
  s <- get_store ;;
  let (existed, h) := HashTable.del hash key (storage s) in
  modify (fun s => with_storage s h) ;;;
  (if existed then queueDirty key else ret tt) ;;;
  ret [existed].

(** ** Flushing *)

(** [EventuallyPersistentStore::flushOne].  [q->front()] on an empty queue
    is undefined; the callers test [!q->empty()] first. *)
Definition flushOne (q : list string) : M (list string) :=
  match q with
  | [] => abort
  | key :: q' =>
      s <- get_store ;;
      let bucket_num := bucket hash (storage s) key in
      let v := unlocked_find key bucket_num false (storage s) in
      let found := match v with Some _ => true | None => false end in
      let isDirty := match v with Some v => isDirty v | None => false end in
      val <- match v with
             | Some v =>
                 if isDirty then
                   modify (fun s =>
                             with_storage s (unlocked_markClean
                                               key bucket_num (storage s))) ;;;
                   (if timing_asserts (kvlog s) v then ret tt else abort) ;;;
                   ret (Some (mkItem key (getFlags v) (getExptime v)
                                     (getValue v)))
                 else ret None
             | None => ret None
             end ;;
      modify (fun s => with_stats s
                (mkStats (queue_size (stats s))
                         (flusher_todo (stats s) - 1))) ;;;
      (if found && isDirty then
         match val with
         | Some i => kv_call (KvSet i)
         | None => abort
         end
       else if negb found then kv_call (KvDel key)
       else ret tt) ;;;
      ret q'
  end.

(** The loop of [flushSome]:
    [for (int i = 0; i < txnSize && !q->empty(); i++) flushOne(q, cb)]. *)
Fixpoint flushSome_loop (fuel : nat) (i : Z) (q : list string)
  : M (list string) :=
  s <- get_store ;;
  if (i <? txnSize s) && negb (match q with [] => true | _ => false end)
  then
    match fuel with
    | O => out_of_fuel
    | S fuel' =>
        q' <- flushOne q ;;
        flushSome_loop fuel' (i + 1) q'
    end
  else ret q.

(** [EventuallyPersistentStore::flushSome] *)
Definition flushSome (fuel : nat) (q : list string) : M (list string) :=
  kv_call KvBegin ;;;
  q' <- flushSome_loop fuel 0 q ;;
  kv_call KvCommit ;;;
  ret q'.

(** The loop of [flush]: [while (!q->empty()) flushSome(q, cb)]. *)
Fixpoint flush_loop (fuel : nat) (q : list string) : M unit :=
  match q with
  | [] => ret tt
  | _ :: _ =>
      match fuel with
      | O => out_of_fuel
      | S fuel' =>
          q' <- flushSome fuel q ;;
          flush_loop fuel' q'
      end
  end.

(** [EventuallyPersistentStore::flush].  On an empty queue it starts no
    cycle: it sets [stats.dirtyAge = 0] (one of the age statistics, which
    [ep_stats] leaves out) and, when [shouldWait], blocks in
    [mutex.wait()]; otherwise it returns. *)
Definition flush (fuel : nat) (shouldWait : bool) : M unit :=
  s <- get_store ;;
  match towrite s with
  | None => abort
  | Some [] => if shouldWait then wait else ret tt
  | Some q =>
      modify (fun s => with_towrite s None) ;;;
      initQueue ;;;
      modify (fun s => with_stats s
                (mkStats (queue_size (stats s)) (Z.of_nat (length q)))) ;;;
      flush_loop fuel q
  end.

(** [EventuallyPersistentStore::reset] *)
Definition reset (fuel : nat) : M unit :=
  flush fuel false ;;;
  kv_call KvReset ;;;
  modify (fun s => with_towrite s None) ;;;
  modify (fun s => with_stats s zero_stats) ;;;
  initQueue ;;;
  modify (fun s => with_storage s (clear (storage s))).

(** The constructor: [est], the value of [DEFAULT_TXN_SIZE] (a constant
    declared outside the sources), whether [EP_NO_PERSITENCE] is unset, the
    bucket and lock counts of [storage], and whether [pthread_create]
    succeeds. *)
Definition construct (est default_txn_size : Z) (persist : bool)
           (size locks : nat) (spawn_ok : bool) : result unit :=
  (modify (fun s => with_towrite s None) ;;;
   modify (fun s => with_stats s zero_stats) ;;;
   initQueue ;;;
   startFlusher spawn_ok)
    (mkStore (make size locks) None zero_stats STOPPED default_txn_size
             persist est [] 0).

(** ** Operations on a constructed store *)

Inductive store_op :=
| CallSet (item : Item) (mem_ok : bool)
| CallDel (key : string)
| CallGet (key : string)
| CallResetStats
| CallFlush (fuel : nat) (shouldWait : bool)
| CallReset (fuel : nat)
| CallStartFlusher (spawn_ok : bool)
| CallStopFlusher
| CallFlusherStopped.

Definition discard {A} (m : M A) : M unit := m ;;; ret tt.

Definition call (o : store_op) : M unit :=
  match o with
  | CallSet item mem_ok => discard (set item mem_ok)
  | CallDel key => discard (del key)
  | CallGet key => discard (get key)
  | CallResetStats => resetStats
  | CallFlush fuel w => flush fuel w
  | CallReset fuel => reset fuel
  | CallStartFlusher ok => startFlusher ok
  | CallStopFlusher => stopFlusher
  | CallFlusherStopped => flusherStopped
  end.

(** The store an operation leaves behind, however it ends (a call that
    blocks leaves the store it blocks on); [None] when the model ran out of
    fuel. *)
Definition final_store {A} (r : result A) : option Store :=
  match r with
  | Done _ s | Threw s | Aborted s | Waiting s => Some s
  | OutOfFuel => None
  end.

End WithEnvironment.

End EP.

(* ================================================================== *)
(** * Session tracing ([src/utilities/tracer.h], [tracer.cc],
      [trace_helpers.h], [src/daemon/base_cookie.h]) *)
(* ================================================================== *)

Module Tracing.

(** [class Span]: a name, a start time and a duration, both
    [std::chrono::microseconds] (their [count()], a signed integer). *)
Record Span := mkSpan {
  name : string;
  start : Z;
  duration : Z
}.

(** The constructor [Span(name, start, duration = 0)]. *)
Definition new_span (name : string) (start : Z) : Span := mkSpan name start 0.

(** [class Tracer]: the vector of spans and [spanMutex], a [std::mutex]
    ([true] while it is held). *)
Record Tracer := mkTracer {
  vecSpans : list Span;
  spanMutex : bool
}.

(** A default-constructed tracer. *)
Definition empty_tracer : Tracer := mkTracer [] false.

(** How a piece of code over a state [S] ends: it returns; or the thread
    locks a [std::mutex] it already holds, which is undefined behaviour
    (with the usual implementations the thread blocks for ever); or the
    loop bound of the model is reached. *)
Inductive outcome (S A : Type) :=
| Returned (a : A) (s : S)
| Relocked (s : S)
| Unfinished.

Arguments Returned {S A} _ _.
Arguments Relocked {S A} _.
Arguments Unfinished {S A}.

(** [Tracer::SpanId] is [std::size_t]. *)
Definition size_max : Z := 2 ^ 64.

(** [std::lock_guard<std::mutex> lock(spanMutex)] around [body]. *)
Definition lock_guard {A} (body : Tracer -> outcome Tracer A) (t : Tracer)
  : outcome Tracer A :=
  if spanMutex t then Relocked t
  else
    match body (mkTracer (vecSpans t) true) with
    | Returned a t' => Returned a (mkTracer (vecSpans t') false)
    | r => r
    end.

(** [Tracer::invalidSpanId] *)
Definition invalidSpanId : Z := size_max - 1.

(** [Tracer::begin]; [now] is [to_micros(ProcessClock::now())]. *)
Definition begin (name : string) (now : Z) : Tracer -> outcome Tracer Z :=
  lock_guard (fun t =>
    let t := mkTracer (vecSpans t ++ [new_span name now]) (spanMutex t) in
    Returned ((Z.of_nat (length (vecSpans t)) - 1) mod size_max) t).

(** [span.duration = to_micros(ProcessClock::now()) - span.start] *)
Definition close (now : Z) (span : Span) : Span :=
  mkSpan (name span) (start span) (now - start span).

(** [Tracer::end(SpanId)]; [now] is the clock reading it takes when the id
    is in range. *)
Definition end_by_id (spanId : Z) (now : Z) : Tracer -> outcome Tracer bool :=
  lock_guard (fun t =>
    if Z.of_nat (length (vecSpans t)) <=? spanId then Returned false t
    else Returned true (mkTracer (alter (close now) (Z.to_nat spanId)
                                        (vecSpans t))
                                 (spanMutex t))).

(** The loop of [Tracer::end(const std::string&)]: the position of the
    first span with the name, counting from [spanId]. *)
Fixpoint first_named (name : string) (spans : list Span) (spanId : Z)
  : option Z :=
  match spans with
  | [] => None
  | span :: rest =>
      if String.eqb (Tracing.name span) name then Some spanId
      else first_named name rest ((spanId + 1) mod size_max)
  end.

(** [Tracer::end(const std::string&)]: it takes [spanMutex] and, for the
    first span with the name, returns [end(spanId)], called with the mutex
    held. *)
Definition end_by_name (name : string) (now : Z)
  : Tracer -> outcome Tracer bool :=
  lock_guard (fun t =>
    match first_named name (vecSpans t) 0 with
    | Some spanId => end_by_id spanId now t
    | None => Returned false t
    end).

(** [Tracer::getDurations] *)
Definition getDurations (t : Tracer) : list Span := vecSpans t.

(** [Tracer::clear] (it does not take the mutex). *)
Definition clear (t : Tracer) : Tracer := mkTracer [] (spanMutex t).

(** ** Printing *)

Definition newline : string := String (Ascii.ascii_of_nat 10) EmptyString.

(** [os << n] for a signed integer. *)
Definition decimal (n : Z) : string := NilZero.string_of_int (Z.to_int n).

(** The loop of [to_string]: [os] is the text written so far and [size]
    the counter that decides whether a separator follows. *)
Fixpoint to_string_loop (spans : list Span) (size : Z) (raw : bool)
         (os : string) : string :=
  match spans with
  | [] => os
  | span :: rest =>
      let os := (os ++ name span ++ "=" ++ decimal (start span) ++ ":"
                    ++ decimal (duration span))%string in
      let size := (size - 1) mod size_max in
      let os := if 0 <? size
                then (os ++ (if raw then " " else newline))%string
                else os in
      to_string_loop rest size raw os
  end.

(** [to_string(tracer, raw)]: the text returned and the line written to
    [std::cerr]. *)
Definition to_string (tracer : Tracer) (raw : bool) : string * string :=
  let vecSpans := getDurations tracer in
  let os := to_string_loop vecSpans (Z.of_nat (length vecSpans) mod size_max)
                           raw "" in
  (os, ("prem:" ++ os ++ newline)%string).

(** [operator<<(std::ostream&, const Tracer&)]: the stream and
    [std::cerr] after it. *)
Definition shift_out (os cerr : string) (tracer : Tracer) : string * string :=
  let r := to_string tracer false in
  ((os ++ fst r)%string, (cerr ++ snd r)%string).

(** ** Cookies ([base_cookie.h]) *)

(** [class BaseCookie] *)
Record BaseCookie := mkBaseCookie {
  enableTracing : bool;
  tracer : Tracer
}.

(** [BaseCookie::BaseCookie] *)
Definition new_cookie : BaseCookie := mkBaseCookie false empty_tracer.

Definition isTracingEnabled (c : BaseCookie) : bool := enableTracing c.

Definition setTracingEnabled (enable : bool) (c : BaseCookie) : BaseCookie :=
  mkBaseCookie enable (tracer c).

Definition getTracer (c : BaseCookie) : Tracer := tracer c.

(** ** The tracing macros ([trace_helpers.h]) *)

(** Code that works on the cookie behind a pointer [ck]: the state is
    [None] when [ck] is null, and the cookie it points to otherwise. *)
Definition M (A : Type) := option BaseCookie -> outcome (option BaseCookie) A.

Definition ret {A} (a : A) : M A := fun ck => Returned a ck.

Definition bind {A B} (m : M A) (f : A -> M B) : M B :=
  fun ck =>
    match m ck with
    | Returned a ck' => f a ck'
    | Relocked ck' => Relocked ck'
    | Unfinished => Unfinished
    end.

(** [c->getTracer().op(...)]: a member function of the tracer, run on the
    tracer of the cookie [c]. *)
Definition on_tracer {A} (op : Tracer -> outcome Tracer A) (c : BaseCookie)
  : outcome (option BaseCookie) A :=
  match op (getTracer c) with
  | Returned a t => Returned a (Some (mkBaseCookie (enableTracing c) t))
  | Relocked t => Relocked (Some (mkBaseCookie (enableTracing c) t))
  | Unfinished => Unfinished
  end.

(** A call whose result is not used. *)
Definition ignore {S A} (r : outcome S A) : outcome S unit :=
  match r with
  | Returned _ s => Returned tt s
  | Relocked s => Relocked s
  | Unfinished => Unfinished
  end.

(** [TRACE_CK_BEGIN(ck, name)] *)
Definition TRACE_CK_BEGIN (name : string) (now : Z) : M unit :=
  fun ck =>
    match ck with
    | Some c =>
        if isTracingEnabled c then ignore (on_tracer (begin name now) c)
        else Returned tt ck
    | None => Returned tt ck
    end.

(** [TRACE_CK_END(ck, name)] *)
Definition TRACE_CK_END (name : string) (now : Z) : M unit :=
  fun ck =>
    match ck with
    | Some c =>
        if isTracingEnabled c then ignore (on_tracer (end_by_name name now) c)
        else Returned tt ck
    | None => Returned tt ck
    end.

(** [DISABLE_TRACING_CK(ck)] and [ENABLE_TRACING_CK(ck)] *)
Definition DISABLE_TRACING_CK : M unit :=
  fun ck =>
    match ck with
    | Some c => Returned tt (Some (setTracingEnabled false c))
    | None => Returned tt ck
    end.

Definition ENABLE_TRACING_CK : M unit :=
  fun ck =>
    match ck with
    | Some c => Returned tt (Some (setTracingEnabled true c))
    | None => Returned tt ck
    end.

(** [class ScopedTracer]: [bck] is null ([false]) or the cookie pointer the
    constructor was given; [spanId] is set only when [bck] is. *)
Record ScopedTracer := mkScopedTracer {
  bck : bool;
  spanId : option Z
}.

(** [ScopedTracer::ScopedTracer(ck, name)] *)
Definition ScopedTracer_ctor (name : string) (now : Z) : M ScopedTracer :=
  fun ck =>
    match ck with
    | Some c =>
        if isTracingEnabled c
        then
          match on_tracer (begin name now) c with
          | Returned id ck' => Returned (mkScopedTracer true (Some id)) ck'
          | Relocked ck' => Relocked ck'
          | Unfinished => Unfinished
          end
        else Returned (mkScopedTracer false None) ck
    | None => Returned (mkScopedTracer false None) ck
    end.

(** [ScopedTracer::~ScopedTracer] *)
Definition ScopedTracer_dtor (st : ScopedTracer) (now : Z) : M unit :=
  fun ck =>
    match bck st, spanId st, ck with
    | true, Some id, Some c => ignore (on_tracer (end_by_id id now) c)
    | _, _, _ => Returned tt ck
    end.

(** [TRACE_SCOPE_CK(ck, name)] at the head of a block with the statements
    [body]: the tracer object lives until the block is left. *)
Definition TRACE_SCOPE_CK (name : string) (t_in t_out : Z) (body : M unit)
  : M unit :=
  bind (ScopedTracer_ctor name t_in) (fun st =>
  bind body (fun _ => ScopedTracer_dtor st t_out)).

(** [class BlockTracer : public ScopedTracer] *)
Record BlockTracer := mkBlockTracer {
  scoped : ScopedTracer;
  justonce : bool
}.

(** [BlockTracer::BlockTracer(ck, name)] *)
Definition BlockTracer_ctor (name : string) (now : Z) : M BlockTracer :=
  bind (ScopedTracer_ctor name now) (fun st => ret (mkBlockTracer st true)).

(** [BlockTracer::once] *)
Definition once (bt : BlockTracer) : bool * BlockTracer :=
  if justonce bt then (true, mkBlockTracer (scoped bt) false)
  else (false, bt).

(** The loop of [TRACE_BLOCK_CK]: [for (...; bt.once();) body]. *)
Fixpoint block_loop (fuel : nat) (bt : BlockTracer) (body : M unit)
  : M BlockTracer :=
  let r := once bt in
  if fst r then
    match fuel with
    | O => fun _ => Unfinished
    | S fuel' => bind body (fun _ => block_loop fuel' (snd r) body)
    end
  else ret (snd r).

(** [TRACE_BLOCK_CK(ck, name) body] *)
Definition TRACE_BLOCK_CK (fuel : nat) (name : string) (t_in t_out : Z)
           (body : M unit) : M unit :=
  bind (BlockTracer_ctor name t_in) (fun bt =>
  bind (block_loop fuel bt body) (fun bt' =>
  ScopedTracer_dtor (scoped bt') t_out)).

End Tracing.

(* ================================================================== *)
(** * SASL authentication
      ([src/daemon/protocol/mcbp/sasl_auth_command_context.cc]) *)
(* ================================================================== *)

Module SaslAuth.

(** The states the [switch] of [step] names. *)
Inductive State :=
| Initial
| ParseAuthTaskResult
| AuthOk
| AuthContinue
| AuthBadParameters
| AuthFailure
| Done.

(** The values of [ENGINE_ERROR_CODE] the file returns. *)
Inductive ENGINE_ERROR_CODE :=
| ENGINE_SUCCESS
| ENGINE_EWOULDBLOCK
| ENGINE_ENOTSUP
| ENGINE_EINVAL.

(** [cbsasl_error_t]: the values the file names, and the others of the
    enumeration, which is declared outside the sources. *)
Inductive cbsasl_error_t :=
| CBSASL_OK
| CBSASL_CONTINUE
| CBSASL_BADPARAM
| CBSASL_NOUSER
| CBSASL_PWERR
| CBSASL_OTHER (code : Z).

(** [cb::mcbp::ClientOpcode] *)
Inductive ClientOpcode :=
| SaslAuth
| SaslStep
| OtherOpcode (code : Z).

(** The task [initial] creates. *)
Inductive task_kind := StartSaslAuthTask | StepSaslAuthTask.

Record SaslAuthTask := mkTask {
  kind : task_kind;
  mechanism : string;
  challenge : string
}.

(** The response status codes and connection states the file names. *)
Inductive response_status :=
| PROTOCOL_BINARY_RESPONSE_AUTH_CONTINUE
| PROTOCOL_BINARY_RESPONSE_NOT_INITIALIZED
| PROTOCOL_BINARY_RESPONSE_AUTH_ERROR.

Inductive conn_state := conn_send_data | conn_new_cmd | conn_closing.

Inductive datatype_t := PROTOCOL_BINARY_RAW_BYTES.

(** What the functions of the file do to the connection and to the rest of
    the server, in the order they do it. *)
Inductive event :=
| LogDebug (mechanism : string) (nbytes : nat)
| LogWarning
| Schedule (task : SaslAuthTask)
| WriteResponse (payload : string) (extlen keylen dlen : nat)
| AddHeader (status : response_status) (extlen keylen bodylen : nat)
            (datatype : datatype_t)
| AddIov (payload : string) (len : nat)
| SetState (s : conn_state)
| SetWriteAndGo (s : conn_state)
| WritePacket (status : response_status)
| AuditAuthFailure (reason : string).

(** What the functions read from the connection, the request and the
    server, and what the authentication task answers once the executor
    has run it. *)
Record World := mkWorld {
  isSaslAuthEnabled : bool;
  isXerrorSupport : bool;
  is_server_initialized : bool;
  getClientOpcode : ClientOpcode;
  getKey : string;
  getValue : string;
  getError : cbsasl_error_t;
  getResponse : string
}.

(** [class SaslAuthCommandContext] with the connection it writes to:
    [events] are the effects so far, [auth_cmds] and [auth_errors] the
    counters of the thread statistics (their type is declared outside the
    sources; they are counted without a bound). *)
Record Context := mkContext {
  state : State;
  task : option SaslAuthTask;
  events : list event;
  auth_cmds : Z;
  auth_errors : Z
}.

(** How a member function ends: it returns a code, it throws
    [std::logic_error], it uses a null task pointer, or the loop bound of
    the model is reached. *)
Inductive outcome :=
| Returns (ret : ENGINE_ERROR_CODE) (c : Context)
| Throws (c : Context)
| NullTask (c : Context)
| Unfinished.

Definition set_state (c : Context) (s : State) : Context :=
  mkContext s (task c) (events c) (auth_cmds c) (auth_errors c).

Definition emit (c : Context) (es : list event) : Context :=
  mkContext (state c) (task c) (events c ++ es) (auth_cmds c) (auth_errors c).

Definition count_cmd (c : Context) : Context :=
  mkContext (state c) (task c) (events c) (auth_cmds c + 1) (auth_errors c).

Definition count_error (c : Context) : Context :=
  mkContext (state c) (task c) (events c) (auth_cmds c) (auth_errors c + 1).

Section WithWorld.

Variable w : World.

(** [SaslAuthCommandContext::initial] *)
Definition initial (c : Context) : outcome :=
  if negb (isSaslAuthEnabled w) then Returns ENGINE_ENOTSUP c
  else
    let k := getKey w in
    let v := getValue w in
    let mechanism := k in
    let challenge := v in
    let c := emit c [LogDebug mechanism (String.length v)] in
    match getClientOpcode w with
    | SaslAuth =>
        let t := mkTask StartSaslAuthTask mechanism challenge in
        let c := mkContext (state c) (Some t) (events c)
                           (auth_cmds c) (auth_errors c) in
        let c := emit c [Schedule t] in
        Returns ENGINE_EWOULDBLOCK (set_state c ParseAuthTaskResult)
    | SaslStep =>
        let t := mkTask StepSaslAuthTask mechanism challenge in
        let c := mkContext (state c) (Some t) (events c)
                           (auth_cmds c) (auth_errors c) in
        let c := emit c [Schedule t] in
        Returns ENGINE_EWOULDBLOCK (set_state c ParseAuthTaskResult)
    | OtherOpcode _ => Throws c
    end.

(** [SaslAuthCommandContext::parseAuthTaskResult] *)
Definition parseAuthTaskResult (c : Context) : outcome :=
  match task c with
  | None => NullTask c
  | Some _ =>
      match getError w with
      | CBSASL_OK => Returns ENGINE_SUCCESS (set_state c AuthOk)
      | CBSASL_CONTINUE => Returns ENGINE_SUCCESS (set_state c AuthContinue)
      | CBSASL_BADPARAM =>
          Returns ENGINE_SUCCESS (set_state c AuthBadParameters)
      | _ => Returns ENGINE_SUCCESS (set_state c AuthFailure)
      end
  end.

(** [SaslAuthCommandContext::authOk] *)
Definition authOk (c : Context) : outcome :=
  match task c with
  | None => NullTask c
  | Some _ =>
      let payload := getResponse w in
      let c := emit c [WriteResponse payload 0 0 (String.length payload)] in
      let c := count_cmd c in
      Returns ENGINE_SUCCESS (set_state c Done)
  end.

(** [SaslAuthCommandContext::authContinue] *)
Definition authContinue (c : Context) : outcome :=
  match task c with
  | None => NullTask c
  | Some _ =>
      let payload := getResponse w in
      let c := emit c [AddHeader PROTOCOL_BINARY_RESPONSE_AUTH_CONTINUE
                                 0 0 (String.length payload)
                                 PROTOCOL_BINARY_RAW_BYTES;
                       AddIov payload (String.length payload);
                       SetState conn_send_data;
                       SetWriteAndGo conn_new_cmd] in
      Returns ENGINE_SUCCESS (set_state c Done)
  end.

(** [SaslAuthCommandContext::authBadParameters] *)
Definition authBadParameters (c : Context) : outcome :=
  let c := count_cmd c in
  let c := count_error c in
  Returns ENGINE_EINVAL c.

(** [SaslAuthCommandContext::authFailure] *)
Definition authFailure (c : Context) : outcome :=
  let c := set_state c Done in
  if negb (is_server_initialized w) then
    let ret := if negb (isXerrorSupport w)
               then PROTOCOL_BINARY_RESPONSE_AUTH_ERROR
               else PROTOCOL_BINARY_RESPONSE_NOT_INITIALIZED in
    let c := emit c [LogWarning; WritePacket ret;
                     SetWriteAndGo conn_closing] in
    Returns ENGINE_SUCCESS c
  else
    match task c with
    | None => NullTask c
    | Some _ =>
        let c :=
          match getError w with
          | CBSASL_NOUSER => emit c [AuditAuthFailure "Unknown user"]
          | CBSASL_PWERR => emit c [AuditAuthFailure "Incorrect password"]
          | _ => c
          end in
        let c := emit c [WritePacket PROTOCOL_BINARY_RESPONSE_AUTH_ERROR] in
        let c := count_cmd c in
        let c := count_error c in
        Returns ENGINE_SUCCESS c
    end.

(** [SaslAuthCommandContext::step]: the [do ... while] loop runs the
    handler of the current state until one returns something else than
    [ENGINE_SUCCESS], or the state is [Done]. *)
Fixpoint step (fuel : nat) (c : Context) : outcome :=
  match fuel with
  | O => Unfinished
  | S fuel' =>
      let r :=
        match state c with
        | Initial => Some (initial c)
        | ParseAuthTaskResult => Some (parseAuthTaskResult c)
        | AuthOk => Some (authOk c)
        | AuthContinue => Some (authContinue c)
        | AuthBadParameters => Some (authBadParameters c)
        | AuthFailure => Some (authFailure c)
        | Done => None
        end in
      match r with
      | None => Returns ENGINE_SUCCESS c
      | Some (Returns ENGINE_SUCCESS c') => step fuel' c'
      | Some r => r
      end
  end.

End WithWorld.

End SaslAuth.

(* ================================================================== *)
(** * Cluster configuration push ([src/daemon/cccp_notification_task.cc]) *)
(* ================================================================== *)

Module Cccp.

(** What [CccpPushNotificationServerEvent::execute] does to the
    connection's output, in order. *)
Inductive conn_event :=
| EnsureCapacity (needed : nat)
| SetMagicServerRequest
| SetDatatypeJSON
| SetOpcodeClustermapChangeNotification
| SetExtras (bytes : list Z)
| SetKey (name : string)
| SetValue (payload : string)
| AddMsgHdr (reset : bool)
| AddIov (len : nat)
| Produced (len : nat)
| SetState_conn_send_data
| SetWriteAndGo_conn_new_cmd.

(** A server event waiting on a connection. *)
Inductive ServerEvent := CccpPushNotificationServerEvent.

(** [class Connection], as the file uses it: [is_mcbp] tells whether the
    object is a [McbpConnection] (the [dynamic_cast] succeeds). *)
Record Connection := mkConnection {
  getId : Z;
  isClustermapChangeNotificationSupported : bool;
  is_mcbp : bool;
  getClustermapRevno : Z;
  server_events : list ServerEvent;
  signalled : nat;
  output : list conn_event
}.

(** [class Bucket], as the file uses it: its name, the number of clients
    that hold a reference, the notifications sent on its condition
    variable, and the cluster configuration (revision and text). *)
Record Bucket := mkBucket {
  name : string;
  clients : Z;
  notified : nat;
  clusterConfiguration : Z * string
}.

(** [class CccpNotificationTask]; [task_mutex] tells whether the thread
    holds the mutex of the task. *)
Record CccpNotificationTask := mkTask {
  bucketIndex : Z;
  revision : Z;
  task_mutex : bool
}.

Definition with_clients (b : Bucket) (n : Z) : Bucket :=
  mkBucket (name b) n (notified b) (clusterConfiguration b).

(** [all_buckets.at(i)]: the index is converted to [size_t]. *)
Definition at_index (all_buckets : list Bucket) (i : Z) : option Bucket :=
  if i <? 0 then None else all_buckets !! Z.to_nat i.

(** [CccpNotificationTask::CccpNotificationTask]: [None] when
    [all_buckets.at] throws [std::out_of_range]; the mutex of a new task is
    free. *)
Definition construct (all_buckets : list Bucket) (bucket_ revision_ : Z)
  : option (CccpNotificationTask * list Bucket) :=
  match at_index all_buckets bucket_ with
  | None => None
  | Some _ =>
      Some (mkTask bucket_ revision_ false,
            alter (fun b => with_clients b (clients b + 1))
                  (Z.to_nat bucket_) all_buckets)
  end.

(** [CccpNotificationTask::~CccpNotificationTask] *)
Definition destroy (t : CccpNotificationTask) (all_buckets : list Bucket)
  : list Bucket :=
  alter (fun b =>
           let b := with_clients b (clients b - 1) in
           let notify := clients b =? 0 in
           if notify
           then mkBucket (name b) (clients b) (S (notified b))
                         (clusterConfiguration b)
           else b)
        (Z.to_nat (bucketIndex t)) all_buckets.

(** What a call throws: a [std::exception] (or a class derived from it),
    or something else. *)
Inductive thrown := StdException | OtherException.

(** The connection with one more push event in its queue. *)
Definition with_event (c : Connection) : Connection :=
  mkConnection (getId c) (isClustermapChangeNotificationSupported c)
               (is_mcbp c) (getClustermapRevno c)
               (server_events c ++ [CccpPushNotificationServerEvent])
               (signalled c) (output c).

(** The connection signalled once more. *)
Definition with_signal (c : Connection) : Connection :=
  mkConnection (getId c) (isClustermapChangeNotificationSupported c)
               (is_mcbp c) (getClustermapRevno c) (server_events c)
               (S (signalled c)) (output c).

Section WithConnections.

(** [McbpConnection::enqueueServerEvent] and
    [McbpConnection::signalIfIdle], whose sources are not part of the
    repository: each returns ([None]) or throws.  A call of
    [enqueueServerEvent] that throws is taken to have queued nothing;
    [std::make_unique], which can throw [std::bad_alloc], counts with
    it. *)
Variable enqueueServerEvent : Connection -> option thrown.
Variable signalIfIdle : Connection -> option thrown.

(** The body of the lambda [execute] passes to [iterate_all_connections]:
    the connection as the lambda leaves it, and what it throws, if
    anything. *)
Definition notify_connection (rev : Z) (c : Connection)
  : Connection * option thrown :=
  if negb (isClustermapChangeNotificationSupported c) then (c, None)
  else if negb (is_mcbp c) then (c, None)
  else if rev <=? getClustermapRevno c then (c, None)
  else
    match enqueueServerEvent c with
    | Some e => (c, Some e)
    | None =>
        let c := with_event c in
        match signalIfIdle c with
        | Some e => (c, Some e)
        | None => (with_signal c, None)
        end
    end.

(** [iterate_all_connections] (declared outside the sources): the
    callback is run on the connections in turn, until it throws. *)
Fixpoint iterate_all_connections
         (f : Connection -> Connection * option thrown)
         (cs : list Connection) : list Connection * option thrown :=
  match cs with
  | [] => ([], None)
  | c :: rest =>
      match f c with
      | (c', Some e) => (c' :: rest, Some e)
      | (c', None) =>
          let r := iterate_all_connections f rest in
          (c' :: fst r, snd r)
      end
  end.

Inductive Status := Finished.

(** How [execute] ends: it returns a status, or an exception that is not
    a [std::exception] leaves it. *)
Inductive execute_end :=
| Returned (status : Status) (t : CccpNotificationTask)
           (cs : list Connection)
| Propagated (t : CccpNotificationTask) (cs : list Connection).

(** [CccpNotificationTask::execute]: [None] when the task's mutex is not
    held at entry (unlocking it is undefined).  The handler catches
    [const std::exception&] only; an exception of another type leaves
    [execute] before [getMutex().lock()]. *)
Definition execute (t : CccpNotificationTask) (cs : list Connection)
  : option execute_end :=
  if task_mutex t then
    let rev := revision t in
    let t := mkTask (bucketIndex t) (revision t) false in
    let r := iterate_all_connections (notify_connection rev) cs in
    match snd r with
    | Some OtherException => Some (Propagated t (fst r))
    | Some StdException | None =>
        (* a [std::exception] is caught and logged *)
        let t := mkTask (bucketIndex t) (revision t) true in
        Some (Returned Finished t (fst r))
    end
  else None.

End WithConnections.

(** [htonl(rev)] as the four bytes of the extras. *)
Definition htonl_bytes (rev : Z) : list Z :=
  let u := rev mod 2 ^ 32 in
  [u / 2 ^ 24; (u / 2 ^ 16) mod 256; (u / 2 ^ 8) mod 256; u mod 256].

(** [CccpPushNotificationServerEvent::execute] on a connection of the
    bucket [b]; [None] when the connection is not a [McbpConnection] (the
    [dynamic_cast] to a reference throws); [sizeof_Request] is
    [sizeof(cb::mcbp::Request)]. *)
Definition push (sizeof_Request : nat) (b : Bucket) (conn : Connection)
  : option (bool * Connection) :=
  if negb (is_mcbp conn) then None
  else
    let payload := clusterConfiguration b in
    if fst payload <? getClustermapRevno conn then Some (true, conn)
    else
      let needed := (sizeof_Request + 4 + String.length (name b)
                     + String.length (snd payload))%nat in
      Some
        (true,
         mkConnection (getId conn)
                      (isClustermapChangeNotificationSupported conn)
                      (is_mcbp conn) (fst payload) (server_events conn)
                      (signalled conn)
                      (output conn ++
                       [EnsureCapacity needed;
                        SetMagicServerRequest;
                        SetDatatypeJSON;
                        SetOpcodeClustermapChangeNotification;
                        SetExtras (htonl_bytes (fst payload));
                        SetKey (name b);
                        SetValue (snd payload);
                        AddMsgHdr true;
                        AddIov needed;
                        Produced needed;
                        SetState_conn_send_data;
                        SetWriteAndGo_conn_new_cmd])).

End Cccp.

(* ================================================================== *)
(** * The test suite support ([src/engines/ep/tests/ep_testsuite_common.cc]) *)
(* ================================================================== *)

Module Testsuite.

(** ** The string functions the file uses *)

(** The string [s] begins with [pat]. *)
Fixpoint starts_with (pat s : string) : bool :=
  match pat with
  | EmptyString => true
  | String p pat' =>
      match s with
      | EmptyString => false
      | String a s' => Ascii.eqb p a && starts_with pat' s'
      end
  end.

(** [strstr(s, pat)] and [std::string::find(pat)]: the position of the
    first occurrence of [pat] in [s]. *)
Fixpoint find (pat s : string) : option nat :=
  if starts_with pat s then Some 0%nat
  else
    match s with
    | EmptyString => None
    | String _ s' =>
        match find pat s' with
        | Some p => Some (S p)
        | None => None
        end
    end.

(** [find(pat, pos)]: the first occurrence at or after [pos]. *)
Fixpoint find_from (pat s : string) (pos : nat) {struct pos} : option nat :=
  match pos, s with
  | O, _ => find pat s
  | S pos', String _ s' =>
      match find_from pat s' pos' with
      | Some p => Some (S p)
      | None => None
      end
  | S _, EmptyString => None
  end.

(** The characters from position [pos] on ([nm + 7] on a C string). *)
Fixpoint str_skip (pos : nat) (s : string) {struct pos} : string :=
  match pos, s with
  | O, _ => s
  | S pos', String _ s' => str_skip pos' s'
  | S _, EmptyString => EmptyString
  end.

(** [s.substr(0, len)] *)
Fixpoint str_take (len : nat) (s : string) {struct len} : string :=
  match len, s with
  | O, _ => EmptyString
  | S len', String c s' => String c (str_take len' s')
  | S _, EmptyString => EmptyString
  end.

(** [s.insert(pos, t)], for [pos] within [s]. *)
Definition insert (pos : nat) (t s : string) : string :=
  (str_take pos s ++ t ++ str_skip pos s)%string.

(** [std::to_string(ii)] and [ss << ii] for an [int]. *)
Definition to_string (ii : Z) : string := NilZero.string_of_int (Z.to_int ii).

(** ** [get_dbname] *)

(** [get_dbname]; [dbname_env] is the global of that name and [None] a
    null [test_cfg]. *)
Definition get_dbname (dbname_env : string) (test_cfg : option string)
  : string :=
  match test_cfg with
  | None => dbname_env
  | Some cfg =>
      match find "dbname=" cfg with
      | None => dbname_env
      | Some nm =>
          let dbname := str_skip (nm + 7) cfg in
          match find ";" dbname with
          | Some e => str_take e dbname
          | None => dbname
          end
      end
  end.

(** ** Test cases *)

Inductive test_result := SUCCESS | SKIPPED | FAIL.

(** The [tfun] of an entry: what the constructor of the test case left
    there ([_tfun] for a [TestCase], null for a [TestCaseV2], which keeps
    its function in [api_v2]), or [skipped_test_function]. *)
Inductive test_function (F : Type) :=
| given (f : F)
| skipped_test_function.

Arguments given {F} _.
Arguments skipped_test_function {F}.

(** [class BaseTestCase]: [None] is a null pointer, [tc_tfun] the
    [test.tfun] the constructor set. *)
Record BaseTestCase (F : Type) := mkTestCase {
  tc_name : option string;
  tc_cfg : option string;
  tc_skip : bool;
  tc_tfun : F
}.

Arguments mkTestCase {F} _ _ _ _.
Arguments tc_name {F} _.
Arguments tc_cfg {F} _.
Arguments tc_skip {F} _.
Arguments tc_tfun {F} _.

(** [engine_test_t]: the fields [getTest] sets. *)
Record engine_test_t (F : Type) := mkTest {
  test_name : string;
  test_cfg : option string;
  tfun : test_function F
}.

Arguments mkTest {F} _ _ _.
Arguments test_name {F} _.
Arguments test_cfg {F} _.
Arguments tfun {F} _.

Section WithDefault.

(** [default_dbname], defined outside the sources. *)
Variable default_dbname : string.
Variable F : Type.

(** [BaseTestCase::getTest]; [None] when the name is null
    ([std::string nm(name)] is undefined then). *)
Definition getTest (tc : BaseTestCase F) : option (engine_test_t F) :=
  match tc_name tc with
  | None => None
  | Some name =>
      let nm := name in
      let ss := match tc_cfg tc with
                | Some cfg => (cfg ++ ";")%string
                | None => "flushall_enabled=true;"%string
                end in
      let ss :=
        if match tc_cfg tc with
           | None => true
           | Some cfg => match find "dbname=" cfg with
                         | None => true
                         | Some _ => false
                         end
           end
        then (ss ++ "dbname=" ++ default_dbname ++ ";")%string
        else ss in
      let nm := if tc_skip tc then (nm ++ " (skipped)")%string
                else (nm ++ " (couchstore)")%string in
      let f := if tc_skip tc then skipped_test_function
               else given (tc_tfun tc) in
      let config := ss in
      Some (mkTest nm
                   (if (String.length config =? 0)%nat then None
                    else Some config)
                   f)
  end.

(** [skipped_test_function] *)
Definition run_skipped_test_function : test_result := SKIPPED.

(** ** [get_tests] *)

(** The loop that counts the test cases: the entries before the first one
    with a null name; [None] when the array has no such entry (the loop
    then reads past its end). *)
Fixpoint count_tests (testsuite_testcases : list (BaseTestCase F))
  : option nat :=
  match testsuite_testcases with
  | [] => None
  | tc :: rest =>
      match tc_name tc with
      | None => Some 0%nat
      | Some _ =>
          match count_tests rest with
          | Some n => Some (S n)
          | None => None
          end
      end
  end.

(** The loop [for (jj = 0; jj < num; ++jj)] of [get_tests]. *)
Fixpoint all_tests (num : nat) (tcs : list (BaseTestCase F))
  : option (list (engine_test_t F)) :=
  match num, tcs with
  | O, _ => Some []
  | S num', tc :: rest =>
      match getTest tc, all_tests num' rest with
      | Some r, Some rs => Some (r :: rs)
      | _, _ => None
      end
  | S _, [] => None
  end.

(** [INT_MIN] and [INT_MAX], for an [int] of 32 bits. *)
Definition INT_MIN : Z := - 2 ^ 31.
Definition INT_MAX : Z := 2 ^ 31 - 1.

(** [oneTestIdx] after [oneTestIdx = -1], [getenv("EP_TEST_NUM")] and
    [sscanf(testNum, "%d", &oneTestIdx)].  [EP_TEST_NUM] is the number the
    text of the variable starts with, [None] when the variable is not set
    or its text starts with no number ([sscanf] then stores nothing).  For
    a number that does not fit an [int] the behaviour of [sscanf] is
    undefined: the result is [None]. *)
Definition scanned (EP_TEST_NUM : option Z) : option Z :=
  match EP_TEST_NUM with
  | None => Some (-1)
  | Some n => if (n <? INT_MIN) || (INT_MAX <? n) then None else Some n
  end.

(** The tests [get_tests] returns (the array, up to its zeroed last
    entry).  The result is [None] when the behaviour is undefined: the
    count of the tests or the number scanned does not fit an [int],
    [getTest] is called on an entry with a null name, or the array is read
    past its end. *)
Definition get_tests (testsuite_testcases : list (BaseTestCase F))
           (EP_TEST_NUM : option Z) : option (list (engine_test_t F)) :=
  match count_tests testsuite_testcases with
  | None => None
  | Some num =>
      if INT_MAX <? Z.of_nat num then None
      else
        match scanned EP_TEST_NUM with
        | None => None
        | Some oneTestIdx =>
            let oneTestIdx :=
              if (oneTestIdx <? 0) || (Z.of_nat num <? oneTestIdx) then -1
              else oneTestIdx in
            if oneTestIdx =? -1 then all_tests num testsuite_testcases
            else
              match testsuite_testcases !! Z.to_nat oneTestIdx with
              | Some tc =>
                  match getTest tc with
                  | Some r => Some [r]
                  | None => None
                  end
              | None => None
              end
        end
  end.

End WithDefault.

Arguments getTest default_dbname {F} _.
Arguments count_tests {F} _.
Arguments all_tests default_dbname {F} _ _.
Arguments get_tests default_dbname {F} _ _.

(** ** Buckets for a test *)

(** What the functions below ask of the file system and of the test
    harness, in order. *)
Inductive fs_event :=
| Rmrf (path : string)
| Access (path : string)
| CreateBucket (cfg : string).

(** [ENOENT] *)
Definition ENOENT : Z := 2.

Section WithHarness.

(** The engine handles [testHarness.create_bucket] returns. *)
Variable handle : Type.

(** The file system and the harness, given what was asked of them so far:
    [rmrf] returns ([None]) or throws [std::system_error] with an error
    code; [access] tells whether the path exists; [create_bucket] returns
    a handle or null. *)
Variable rmrf : list fs_event -> string -> option Z.
Variable access : list fs_event -> string -> bool.
Variable create_bucket : list fs_event -> string -> option handle.

(** How a function ends: it returns, or a [std::system_error] with the
    code, or the [std::out_of_range] of [std::string::insert], leaves
    it. *)
Inductive ending (A : Type) :=
| Returned (a : A) (log : list fs_event)
| SystemError (code : Z) (log : list fs_event)
| OutOfRange (log : list fs_event).

Arguments Returned {A} _ _.
Arguments SystemError {A} _ _.
Arguments OutOfRange {A} _.

(** [rmdb] *)
Definition rmdb (path : string) (log : list fs_event) : ending test_result :=
  match rmrf log path with
  | Some code => SystemError code (log ++ [Rmrf path])
  | None =>
      let log := log ++ [Rmrf path] in
      if access log path then Returned FAIL (log ++ [Access path])
      else Returned SUCCESS (log ++ [Access path])
  end.

(** [try { rmdb(path); } catch (std::system_error& e) { if (e.code() !=
    ENOENT) throw e; }] of [create_buckets]. *)
Definition rmdb_unless_missing (path : string) (log : list fs_event)
  : ending unit :=
  match rmdb path log with
  | Returned _ log' => Returned tt log'
  | SystemError code log' =>
      if code =? ENOENT then Returned tt log' else SystemError code log'
  | OutOfRange log' => OutOfRange log'
  end.

(** [class BucketHolder] *)
Record BucketHolder := mkBucketHolder {
  h : handle;
  dbpath : string
}.

(** The configuration [create_buckets] builds for bucket [ii]; [None]
    when [str_cfg.insert] throws [std::out_of_range] (no [';'] follows
    ["dbname="]). *)
Definition bucket_config (cfg dbpath : string) (ii : Z) : option string :=
  match find "dbname=" cfg with
  | Some pos =>
      match find_from ";" cfg pos with
      | Some new_pos => Some (insert new_pos (to_string ii) cfg)
      | None => None
      end
  | None => Some (cfg ++ "dbname=" ++ dbpath)%string
  end.

(** The loop of [create_buckets], with [remaining] rounds to go from
    [ii]. *)
Fixpoint create_buckets_loop (cfg dbname : string) (remaining : nat)
         (ii n_buckets : Z) (buckets : list BucketHolder)
         (log : list fs_event) : ending (Z * list BucketHolder) :=
  match remaining with
  | O => Returned (n_buckets, buckets) log
  | S remaining' =>
      let dbpath := (dbname ++ to_string ii)%string in
      match bucket_config cfg dbpath ii with
      | None => OutOfRange log
      | Some config =>
          match rmdb_unless_missing dbpath log with
          | Returned _ log =>
              match create_bucket log config with
              | Some handle =>
                  create_buckets_loop cfg dbname remaining' (ii + 1)
                                      n_buckets
                                      (buckets ++
                                       [mkBucketHolder handle dbpath])
                                      (log ++ [CreateBucket config])
              | None => Returned (ii, buckets) (log ++ [CreateBucket config])
              end
          | SystemError code log => SystemError code log
          | OutOfRange log => OutOfRange log
          end
      end
  end.

(** [create_buckets], for a non-null [cfg]. *)
Definition create_buckets (dbname_env cfg : string) (n_buckets : Z)
           (buckets : list BucketHolder) (log : list fs_event)
  : ending (Z * list BucketHolder) :=
  let dbname := get_dbname dbname_env (Some cfg) in
  create_buckets_loop cfg dbname (Z.to_nat n_buckets) 0 n_buckets buckets log.

End WithHarness.

Arguments Returned {A} _ _.
Arguments SystemError {A} _ _.
Arguments OutOfRange {A} _.
Arguments mkBucketHolder {handle} _ _.
Arguments h {handle} _.
Arguments dbpath {handle} _.
Arguments create_buckets_loop {handle} _ _ _ _ _ _ _ _ _ _.
Arguments create_buckets {handle} _ _ _ _ _ _ _ _.

End Testsuite.

(* ================================================================== *)
(** * Facts about the task comparators *)
(* ================================================================== *)

Module TasksFacts.

Import Tasks.

(** [tv1] is an earlier point in time than [tv2]. *)
Definition earlier (tv1 tv2 : timeval) : Prop :=
  tv_sec tv1 < tv_sec tv2 \/
  (tv_sec tv1 = tv_sec tv2 /\ tv_usec tv1 < tv_usec tv2).

Lemma less_tv_earlier tv1 tv2 : less_tv tv1 tv2 = true <-> earlier tv1 tv2.
Proof.
  unfold less_tv, earlier.
  destruct (Z.eqb_spec (tv_sec tv1) (tv_sec tv2)) as [E | E].
  - rewrite Z.ltb_lt. lia.
  - rewrite Z.ltb_lt. lia.
Qed.

Section Ordering.

Variable Priority : Type.
Variable rank : Priority -> Z.

Local Abbreviation served_after := (CompareByPriority rank).

(** What [CompareByPriority] decides, in terms of ranks and ids. *)
Lemma CompareByPriority_spec (t1 t2 : GlobalTask Priority) :
  served_after t1 t2 = true <->
  rank (priority t1) < rank (priority t2) \/
  (rank (priority t1) = rank (priority t2) /\ taskId t2 < taskId t1).
Proof.
  unfold CompareByPriority, priority_eq, priority_lt.
  destruct (Z.eqb_spec (rank (priority t1)) (rank (priority t2))) as [E | E];
    rewrite Z.ltb_lt; lia.
Qed.

Lemma CompareByPriority_false (t1 t2 : GlobalTask Priority) :
  served_after t1 t2 = false <->
  rank (priority t2) < rank (priority t1) \/
  (rank (priority t1) = rank (priority t2) /\ taskId t1 <= taskId t2).
Proof.
  rewrite <- Bool.not_true_iff_false, CompareByPriority_spec. lia.
Qed.

Lemma CompareByPriority_irrefl (t : GlobalTask Priority) :
  served_after t t = false.
Proof. apply CompareByPriority_false. lia. Qed.

Lemma CompareByPriority_trans (t1 t2 t3 : GlobalTask Priority) :
  served_after t1 t2 = true -> served_after t2 t3 = true ->
  served_after t1 t3 = true.
Proof. rewrite !CompareByPriority_spec. lia. Qed.

Lemma CompareByPriority_asym (t1 t2 : GlobalTask Priority) :
  served_after t1 t2 = true -> served_after t2 t1 = false.
Proof. rewrite CompareByPriority_spec, CompareByPriority_false. lia. Qed.

Lemma CompareByPriority_total (t1 t2 : GlobalTask Priority) :
  taskId t1 <> taskId t2 ->
  served_after t1 t2 = true \/ served_after t2 t1 = true.
Proof. rewrite !CompareByPriority_spec. lia. Qed.

Lemma CompareByPriority_ignores_waketime (t1 t2 : GlobalTask Priority) w1 w2 :
  served_after (set_waketime t1 w1) (set_waketime t2 w2) = served_after t1 t2.
Proof. reflexivity. Qed.

(** Of two tasks of one priority class created one after the other, the
    one created first is served first (as long as the id counter does not
    wrap). *)
Lemma older_task_first p b1 b2 sh1 sh2 w1 w2 c :
  0 <= c -> c + 1 < 2 ^ 64 ->
  let (t1, c1) := new_task p b1 sh1 w1 c in
  let (t2, _) := new_task p b2 sh2 w2 c1 in
  served_after t2 t1 = true /\ served_after t1 t2 = false.
Proof.
  intros H0 H1. unfold new_task, nextTaskId. cbn [fst snd].
  rewrite CompareByPriority_spec, CompareByPriority_false.
  cbn [priority taskId]. rewrite Z.mod_small by lia. lia.
Qed.

Lemma CompareByDueDate_spec (t1 t2 : GlobalTask Priority) :
  CompareByDueDate t1 t2 = true <-> earlier (waketime t2) (waketime t1).
Proof. unfold CompareByDueDate. apply less_tv_earlier. Qed.

End Ordering.

(** Two tasks of one priority class: the older one is due later. *)
Definition older_due_later : GlobalTask Z :=
  mkTask 5 true 0 TASK_RUNNING 1 (mkTimeval 10 0).
Definition younger_due_sooner : GlobalTask Z :=
  mkTask 5 true 0 TASK_RUNNING 2 (mkTimeval 5 0).

(** C5, as stated, fails: at equal priority the ordering of the
    specification serves the task with the earlier due date first, while
    [CompareByPriority] serves the task with the lower id first, whatever
    the due dates. *)
Lemma C5_due_date_is_not_consulted :
  spec_served_after (fun p => p) older_due_later younger_due_sooner = true /\
  CompareByPriority (fun p => p) older_due_later younger_due_sooner = false /\
  CompareByPriority (fun p => p) younger_due_sooner older_due_later = true.
Proof. repeat split. Qed.

(** C5, amended: the ordering of the ready set, [CompareByPriority], is a
    strict total order on tasks (ids being unique) that ranks first by
    priority, the higher priority being served first, then by lower task
    id; it does not consult the due date.  Due dates are ordered by a
    separate comparator, [CompareByDueDate], which serves the earlier
    [waketime] first and consults nothing else. *)
Theorem C5_ready_order_is_priority_then_id :
  forall (Priority : Type) (rank : Priority -> Z),
    (forall t1 t2 : GlobalTask Priority,
        CompareByPriority rank t1 t2 = true <->
        rank (priority t1) < rank (priority t2) \/
        (rank (priority t1) = rank (priority t2) /\ taskId t2 < taskId t1)) /\
    (forall t : GlobalTask Priority, CompareByPriority rank t t = false) /\
    (forall t1 t2 : GlobalTask Priority,
        CompareByPriority rank t1 t2 = true ->
        CompareByPriority rank t2 t1 = false) /\
    (forall t1 t2 t3 : GlobalTask Priority,
        CompareByPriority rank t1 t2 = true ->
        CompareByPriority rank t2 t3 = true ->
        CompareByPriority rank t1 t3 = true) /\
    (forall t1 t2 : GlobalTask Priority,
        taskId t1 <> taskId t2 ->
        CompareByPriority rank t1 t2 = true \/
        CompareByPriority rank t2 t1 = true) /\
    (forall (t1 t2 : GlobalTask Priority) w1 w2,
        CompareByPriority rank (set_waketime t1 w1) (set_waketime t2 w2) =
        CompareByPriority rank t1 t2) /\
    (forall t1 t2 : GlobalTask Priority,
        CompareByDueDate t1 t2 = true <->
        earlier (waketime t2) (waketime t1)).
Proof.
  intros Priority rank.
  split; [apply CompareByPriority_spec |].
  split; [apply CompareByPriority_irrefl |].
  split; [apply CompareByPriority_asym |].
  split; [apply CompareByPriority_trans |].
  split; [apply CompareByPriority_total |].
  split; [apply CompareByPriority_ignores_waketime |].
  apply CompareByDueDate_spec.
Qed.

Lemma C5_ready_order_witness :
  CompareByPriority (fun p => p) older_due_later younger_due_sooner = true \/
  CompareByPriority (fun p => p) younger_due_sooner older_due_later = true.
Proof.
  apply (C5_ready_order_is_priority_then_id Z (fun p => p)).
  simpl. lia.
Defined.

(** ** Tasks in the order of their creation *)

(** What the constructor of a task is given. *)
Record task_args (Priority : Type) := mkArgs {
  arg_priority : Priority;
  arg_completeBeforeShutdown : bool;
  arg_serialShardId : Z;
  arg_waketime : timeval
}.

Arguments mkArgs {Priority} _ _ _ _.
Arguments arg_priority {Priority} _.
Arguments arg_completeBeforeShutdown {Priority} _.
Arguments arg_serialShardId {Priority} _.
Arguments arg_waketime {Priority} _.

(** Tasks constructed one after the other, from the id counter [c]: the
    tasks and the counter they leave. *)
Fixpoint new_tasks {Priority} (args : list (task_args Priority)) (c : Z)
  : list (GlobalTask Priority) * Z :=
  match args with
  | [] => ([], c)
  | a :: rest =>
      let r := new_task (arg_priority a) (arg_completeBeforeShutdown a)
                        (arg_serialShardId a) (arg_waketime a) c in
      let r' := new_tasks rest (snd r) in
      (fst r :: fst r', snd r')
  end.

Lemma new_tasks_id {Priority} (args : list (task_args Priority)) :
  forall c i t,
    0 <= c -> c + Z.of_nat (length args) <= 2 ^ 64 ->
    fst (new_tasks args c) !! i = Some t ->
    taskId t = c + Z.of_nat i /\
    exists a, args !! i = Some a /\ priority t = arg_priority a /\
              waketime t = arg_waketime a /\ state t = TASK_RUNNING.
Proof.
  induction args as [| a args IH]; intros c i t H0 H1 L;
    [discriminate |].
  cbn [new_tasks fst snd new_task nextTaskId length] in *.
  destruct i as [| i]; simpl in L.
  - injection L as <-. simpl. split; [lia |]. exists a. auto.
  - destruct args as [| a2 args]; [discriminate |].
    cbn [length] in *. rewrite Z.mod_small in L by lia.
    destruct (IH (c + 1) i t ltac:(lia) ltac:(lia) L) as (E & a' & A).
    split; [lia |]. exists a'. exact A.
Qed.

(** X8.  Tasks are served in the order of their creation within a priority
    class: [nextTaskId] hands out consecutive ids, so of the tasks
    constructed one after the other (the id counter not wrapping) a later
    one has the larger id, and [CompareByPriority] puts it after every
    earlier task of the same priority, whatever the wake times. *)
Theorem X8_equal_priority_tasks_are_served_in_creation_order
        (Priority : Type) (rank : Priority -> Z)
        (args : list (task_args Priority)) (c : Z) (i j : nat)
        (ti tj : GlobalTask Priority) :
  0 <= c -> c + Z.of_nat (length args) <= 2 ^ 64 ->
  fst (new_tasks args c) !! i = Some ti ->
  fst (new_tasks args c) !! j = Some tj ->
  (i < j)%nat ->
  taskId ti < taskId tj /\
  (rank (priority ti) = rank (priority tj) ->
   CompareByPriority rank tj ti = true /\
   CompareByPriority rank ti tj = false).
Proof.
  intros H0 H1 Li Lj Hij.
  destruct (new_tasks_id args c i ti H0 H1 Li) as (Ei & _).
  destruct (new_tasks_id args c j tj H0 H1 Lj) as (Ej & _).
  split; [lia |]. intros Er.
  rewrite CompareByPriority_spec, CompareByPriority_false. lia.
Qed.

(** Three tasks: the second has a higher priority, the third is due first. *)
Definition three_tasks : list (task_args Z) :=
  [mkArgs 5 true 0 (mkTimeval 10 0);
   mkArgs 7 true 0 (mkTimeval 10 0);
   mkArgs 5 false 1 (mkTimeval 2 0)].

Lemma X8_creation_order_witness :
  taskId (mkTask 5 true 0 TASK_RUNNING 40 (mkTimeval 10 0)) <
  taskId (mkTask 5 false 1 TASK_RUNNING 42 (mkTimeval 2 0)) /\
  (5 = 5 ->
   CompareByPriority (fun p => p)
                     (mkTask 5 false 1 TASK_RUNNING 42 (mkTimeval 2 0))
                     (mkTask 5 true 0 TASK_RUNNING 40 (mkTimeval 10 0))
   = true /\
   CompareByPriority (fun p => p)
                     (mkTask 5 true 0 TASK_RUNNING 40 (mkTimeval 10 0))
                     (mkTask 5 false 1 TASK_RUNNING 42 (mkTimeval 2 0))
   = false).
Proof.
  apply (X8_equal_priority_tasks_are_served_in_creation_order
           Z (fun p => p) three_tasks 40 0 2).
  - lia.
  - simpl. lia.
  - reflexivity.
  - reflexivity.
  - lia.
Defined.

(** At the end of the range of [size_t] the counter wraps: the task
    constructed at counter [2^64 - 1] leaves the counter at 0, and the next
    task, with id 0, is served before every older task of its priority
    class. *)
Example task_id_counter_wraps :
  snd (new_tasks [mkArgs 5 true 0 (mkTimeval 0 0)] (2 ^ 64 - 1)) = 0 /\
  (let ts := fst (new_tasks [mkArgs 5 true 0 (mkTimeval 0 0);
                             mkArgs 5 true 0 (mkTimeval 0 0)]
                            (2 ^ 64 - 1)) in
   match ts with
   | [older; younger] =>
       CompareByPriority (fun p => p) older younger = true
   | _ => False
   end).
Proof. split; reflexivity. Qed.

End TasksFacts.

(* ================================================================== *)
(** * Facts about the hash table *)
(* ================================================================== *)

Module HashTableFacts.

Import HashTable.

(** ** Chains *)

Lemma chain_split key c v :
  chain_find key c = Some v ->
  exists c1 c2,
    c = c1 ++ v :: c2 /\ getKey v = key /\
    (forall f, chain_update key f c = c1 ++ f v :: c2) /\
    chain_remove key c = c1 ++ c2.
Proof.
  induction c as [| w c IH]; simpl; [discriminate |].
  destruct (String.eqb_spec (getKey w) key) as [E | E].
  - intros [= ->]. exists [], c. repeat split; auto.
  - intros H. destruct (IH H) as (c1 & c2 & -> & K & U & R).
    exists (w :: c1), c2. repeat split; auto.
    + intros f. simpl. now rewrite U.
    + simpl. now rewrite R.
Qed.

Lemma chain_find_None key c :
  chain_find key c = None ->
  (key ∉ (getKey <$> c)) /\
  (forall f, chain_update key f c = c) /\ chain_remove key c = c.
Proof.
  induction c as [| w c IH]; simpl.
  - intros _. repeat split; auto. apply not_elem_of_nil.
  - destruct (String.eqb_spec (getKey w) key) as [E | E]; [discriminate |].
    intros H. destruct (IH H) as (N & U & R).
    repeat split.
    + rewrite not_elem_of_cons. split; [congruence | exact N].
    + intros f. now rewrite U.
    + now rewrite R.
Qed.

Lemma chain_find_elem key c v :
  chain_find key c = Some v -> v ∈ c /\ getKey v = key.
Proof.
  intros H. destruct (chain_split _ _ _ H) as (c1 & c2 & -> & K & _).
  split; [| exact K]. rewrite elem_of_app, elem_of_cons. auto.
Qed.

Lemma NoDup_fmap_eq {A B} (f : A -> B) (l : list A) x y :
  NoDup (f <$> l) -> x ∈ l -> y ∈ l -> f x = f y -> x = y.
Proof.
  induction l as [| a l IH]; simpl.
  - intros _ Hx. now apply elem_of_nil in Hx.
  - rewrite NoDup_cons, !elem_of_cons.
    intros [Na ND] [-> | Hx] [-> | Hy] E; auto.
    + exfalso. apply Na. rewrite E. now apply list_elem_of_fmap_2.
    + exfalso. apply Na. rewrite <- E. now apply list_elem_of_fmap_2.
Qed.

Lemma chain_find_unique c v :
  NoDup (getKey <$> c) -> v ∈ c -> chain_find (getKey v) c = Some v.
Proof.
  intros ND Hin.
  destruct (chain_find (getKey v) c) as [w |] eqn:F.
  - apply chain_find_elem in F as [Hw K].
    f_equal. eapply NoDup_fmap_eq; eauto.
  - apply chain_find_None in F as [N _]. exfalso. apply N.
    now apply list_elem_of_fmap_2.
Qed.

(** ** The bucket array *)

Lemma values_split (vs : list (list StoredValue)) b c :
  vs !! b = Some c ->
  exists l1 l2,
    vs = l1 ++ c :: l2 /\ length l1 = b /\
    forall f, alter f b vs = l1 ++ f c :: l2.
Proof.
  intros H.
  exists (take b vs), (drop (S b) vs).
  assert (L : length (take b vs) = b).
  { rewrite length_take. apply lookup_lt_Some in H. lia. }
  split; [symmetry; now apply take_drop_middle |].
  split; [exact L |].
  intros f.
  rewrite <- (take_drop_middle vs b c H) at 1.
  rewrite alter_app_r_alt by lia.
  f_equal. rewrite L. now replace (b - b)%nat with 0%nat by lia.
Qed.

Lemma elem_of_concat {A} (ls : list (list A)) (x : A) :
  x ∈ concat ls <-> exists i c, ls !! i = Some c /\ x ∈ c.
Proof.
  rewrite list_elem_of_In, in_concat. split.
  - intros (c & Hc & Hx).
    apply list_elem_of_In, list_elem_of_lookup in Hc as [i Hi].
    exists i, c. split; [exact Hi | now apply list_elem_of_In].
  - intros (i & c & Hi & Hx). exists c. split.
    + apply list_elem_of_In. eapply list_elem_of_lookup_2; eauto.
    + now apply list_elem_of_In.
Qed.

(** The slots of the table, bucket by bucket. *)
Definition slots (h : HashTable) : list StoredValue := concat (values h).

(** The number of tombstones among the slots. *)
Fixpoint count_deleted (l : list StoredValue) : nat :=
  match l with
  | [] => 0
  | v :: l => (if isDeleted v then 1 else 0) + count_deleted l
  end.

Fixpoint count_live (l : list StoredValue) : nat :=
  match l with
  | [] => 0
  | v :: l => (if isDeleted v then 0 else 1) + count_live l
  end.

Lemma count_deleted_app l1 l2 :
  count_deleted (l1 ++ l2) = (count_deleted l1 + count_deleted l2)%nat.
Proof. induction l1 as [| v l1 IH]; simpl; [reflexivity | lia]. Qed.

Lemma count_live_deleted l : (count_live l + count_deleted l)%nat = length l.
Proof.
  induction l as [| v l IH]; simpl; [reflexivity |].
  destruct (isDeleted v); lia.
Qed.

Lemma count_deleted_perm l1 l2 :
  l1 ≡ₚ l2 -> count_deleted l1 = count_deleted l2.
Proof. induction 1; simpl; lia. Qed.

(** What the [Counter] visitor has counted after a visit. *)
Lemma visit_slots_Counter c l :
  visit_slots Counter.visit c l =
  Counter.mk (Counter.count c + count_live l)
             (Counter.deleted c + count_deleted l).
Proof.
  revert c. induction l as [| v l IH]; intros c; simpl.
  - destruct c; simpl. f_equal; lia.
  - unfold Counter.visit at 1.
    destruct (isDeleted v); rewrite IH; simpl; f_equal; lia.
Qed.


Lemma concat_alter (vs : list (list StoredValue)) b c :
  vs !! b = Some c ->
  exists s1 s2,
    concat vs = s1 ++ c ++ s2 /\
    forall f, concat (alter f b vs) = s1 ++ f c ++ s2.
Proof.
  intros H. destruct (values_split _ _ _ H) as (l1 & l2 & -> & _ & A).
  exists (concat l1), (concat l2). split.
  - now rewrite concat_app, concat_cons.
  - intros f. now rewrite A, concat_app, concat_cons.
Qed.

Lemma lookup_repeat {A} (x y : A) n i : repeat x n !! i = Some y -> y = x.
Proof.
  revert i. induction n as [| n IH]; intros [| i]; simpl; try discriminate.
  - now intros [= ->].
  - apply IH.
Qed.

Lemma concat_repeat_nil {A} n : concat (repeat (@nil A) n) = [].
Proof. induction n as [| n IH]; simpl; auto. Qed.

Section WithHash.

Variable hash : string -> nat.

(** The counters agree with the slots present, and there is a bucket. *)
Definition counts_ok (h : HashTable) : Prop :=
  (0 < length (values h))%nat /\
  numItems h = length (slots h) /\
  numDeletedItems h = count_deleted (slots h).

(** Every slot sits in the bucket of its key, and no key has two slots. *)
Definition placed_ok (h : HashTable) : Prop :=
  NoDup (getKey <$> slots h) /\
  forall i c v, values h !! i = Some c -> v ∈ c ->
                (hash (getKey v) mod length (values h))%nat = i.

Definition wf (h : HashTable) : Prop := counts_ok h /\ placed_ok h.

Lemma bucket_lookup h key :
  (0 < length (values h))%nat ->
  exists c, values h !! bucket hash h key = Some c.
Proof.
  intros L. apply lookup_lt_is_Some_2. unfold bucket, getSize.
  apply Nat.mod_upper_bound. lia.
Qed.

Lemma unlocked_find_chain key b wd h c :
  values h !! b = Some c ->
  unlocked_find key b wd h =
  match chain_find key c with
  | Some v => if isDeleted v && negb wd then None else Some v
  | None => None
  end.
Proof. intros H. unfold unlocked_find. now rewrite H. Qed.

Lemma wf_make size locks : (0 < size)%nat -> wf (make size locks).
Proof.
  intros L. unfold wf, counts_ok, placed_ok, make, slots; simpl.
  rewrite repeat_length, concat_repeat_nil. simpl.
  repeat split; auto.
  - constructor.
  - intros i c v Hc Hv. apply lookup_repeat in Hc. subst c.
    now apply elem_of_nil in Hv.
Qed.

Lemma wf_clear h : wf h -> wf (clear h).
Proof.
  intros [[L _] _]. unfold clear, getSize.
  exact (wf_make (length (values h)) (n_locks h) L).
Qed.

(** A key absent from its own bucket is absent from the table. *)
Lemma absent_from_table h key c :
  placed_ok h ->
  values h !! bucket hash h key = Some c ->
  chain_find key c = None ->
  key ∉ (getKey <$> slots h).
Proof.
  intros [_ P] Hc F Hin.
  apply list_elem_of_fmap in Hin as (v & -> & Hv).
  apply elem_of_concat in Hv as (i & c' & Hi & Hv).
  pose proof (P _ _ _ Hi Hv) as E. unfold bucket, getSize in Hc.
  rewrite E in Hc. rewrite Hi in Hc. injection Hc as ->.
  apply chain_find_None in F as [N _]. apply N.
  now apply list_elem_of_fmap_2.
Qed.

(** Replacing, in the bucket [b], the chain [c] by [c']. *)
Lemma placed_ok_alter h b c f :
  placed_ok h ->
  values h !! b = Some c ->
  (forall s1 s2, NoDup (getKey <$> (s1 ++ c ++ s2)) ->
                 concat (values h) = s1 ++ c ++ s2 ->
                 NoDup (getKey <$> (s1 ++ f c ++ s2))) ->
  (forall v, v ∈ f c -> (hash (getKey v) mod length (values h))%nat = b) ->
  forall nl ni nd,
    placed_ok (mkHT (alter f b (values h)) nl ni nd).
Proof.
  intros [ND P] Hc HN HP nl ni nd.
  destruct (concat_alter _ _ _ Hc) as (s1 & s2 & E & A).
  unfold placed_ok, slots in *; simpl. split.
  - rewrite A. apply HN; [now rewrite <- E | exact E].
  - intros i c' v Hi Hv. rewrite length_alter.
    rewrite list_lookup_alter in Hi.
    destruct (decide (b = i)) as [<- | Ne].
    + rewrite Hc in Hi. simpl in Hi. injection Hi as <-. now apply HP.
    + eapply P; eauto.
Qed.


Definition tomb (v : StoredValue) : nat := if isDeleted v then 1%nat else 0%nat.

(** The found slot of a chain is rewritten in place, its key kept. *)
Lemma wf_update h key b c v f nd' :
  wf h ->
  values h !! b = Some c ->
  chain_find key c = Some v ->
  getKey (f v) = getKey v ->
  (nd' + tomb v = numDeletedItems h + tomb (f v))%nat ->
  wf (mkHT (alter (chain_update key f) b (values h))
           (n_locks h) (numItems h) nd').
Proof.
  intros [[L [NI ND]] PL] Hc F K Hnd.
  destruct (chain_split _ _ _ F) as (c1 & c2 & -> & Kv & U & _).
  split.
  - destruct (concat_alter _ _ _ Hc) as (s1 & s2 & E & A).
    unfold counts_ok, slots in *; simpl.
    rewrite length_alter, A, U. rewrite E in NI, ND.
    split; [exact L |]. split.
    + rewrite NI. rewrite !length_app. simpl. reflexivity.
    + revert Hnd. rewrite ND. rewrite !count_deleted_app. simpl.
      unfold tomb. destruct (isDeleted v), (isDeleted (f v)); lia.
  - apply (placed_ok_alter h b _ _ PL Hc).
    + intros s1 s2 N _. rewrite U.
      rewrite !fmap_app, fmap_cons, K in *. exact N.
    + intros w. rewrite U. rewrite !elem_of_app, !elem_of_cons.
      destruct PL as [_ P].
      intros [Hw | [-> | Hw]].
      * apply (P _ _ _ Hc). rewrite elem_of_app. auto.
      * rewrite K. apply (P _ _ _ Hc). rewrite elem_of_app, elem_of_cons. auto.
      * apply (P _ _ _ Hc). rewrite elem_of_app, elem_of_cons. auto.
Qed.

(** The found slot of a chain is unlinked. *)
Lemma wf_remove h key b c v :
  wf h ->
  values h !! b = Some c ->
  chain_find key c = Some v ->
  wf (mkHT (alter (chain_remove key) b (values h))
           (n_locks h) (Nat.pred (numItems h))
           (if isDeleted v then Nat.pred (numDeletedItems h)
            else numDeletedItems h)).
Proof.
  intros [[L [NI ND]] PL] Hc F.
  destruct (chain_split _ _ _ F) as (c1 & c2 & -> & Kv & _ & R).
  split.
  - destruct (concat_alter _ _ _ Hc) as (s1 & s2 & E & A).
    unfold counts_ok, slots in *; simpl.
    rewrite length_alter, A, R. rewrite E in NI, ND.
    split; [exact L |]. split.
    + rewrite NI. rewrite !length_app. simpl. lia.
    + rewrite ND. rewrite !count_deleted_app. simpl.
      destruct (isDeleted v); lia.
  - apply (placed_ok_alter h b _ _ PL Hc).
    + intros s1 s2 N _. rewrite R.
      eapply sublist_NoDup; [exact N |].
      apply fmap_sublist. apply sublist_app; [reflexivity |].
      apply sublist_app; [| reflexivity].
      apply sublist_app; [reflexivity |]. now apply sublist_cons.
    + intros w. rewrite R. rewrite elem_of_app.
      destruct PL as [_ P].
      intros [Hw | Hw]; apply (P _ _ _ Hc);
        rewrite elem_of_app, elem_of_cons; auto.
Qed.

(** A slot for a key absent from its bucket is linked at the head. *)
Lemma wf_insert h v c :
  wf h ->
  values h !! bucket hash h (getKey v) = Some c ->
  chain_find (getKey v) c = None ->
  wf (mkHT (alter (cons v) (bucket hash h (getKey v)) (values h))
           (n_locks h) (S (numItems h)) (numDeletedItems h + tomb v)).
Proof.
  intros [[L [NI ND]] PL] Hc F.
  pose proof (absent_from_table h _ _ PL Hc F) as Abs.
  split.
  - destruct (concat_alter _ _ _ Hc) as (s1 & s2 & E & A).
    unfold counts_ok, slots in *; simpl.
    rewrite length_alter, A. rewrite E in NI, ND.
    split; [exact L |]. split.
    + rewrite NI. rewrite !length_app. simpl. rewrite ?length_app. lia.
    + rewrite ND. rewrite !count_deleted_app. simpl.
      rewrite ?count_deleted_app. unfold tomb. destruct (isDeleted v); lia.
  - apply (placed_ok_alter h _ _ _ PL Hc).
    + intros s1 s2 N E. unfold slots in Abs. rewrite E in Abs.
      rewrite !fmap_app in *. simpl.
      apply NoDup_app in N as (N1 & N12 & N2).
      apply NoDup_app. split; [exact N1 |]. split.
      * intros x Hx. rewrite elem_of_cons. intros [-> | Hx'].
        -- apply Abs. rewrite elem_of_app. auto.
        -- now apply (N12 x).
      * apply NoDup_cons. split; [| exact N2].
        intros Hx. apply Abs. rewrite elem_of_app. auto.
    + intros w. rewrite elem_of_cons. destruct PL as [_ P].
      intros [-> | Hw]; [reflexivity | apply (P _ _ _ Hc Hw)].
Qed.


Lemma unlocked_find_all key b h c :
  values h !! b = Some c ->
  unlocked_find key b true h = chain_find key c.
Proof.
  intros H. rewrite (unlocked_find_chain _ _ _ _ _ H).
  destruct (chain_find key c); [| reflexivity].
  now rewrite andb_false_r.
Qed.

Lemma wf_set i mem_ok h : wf h -> wf (snd (set hash i mem_ok h)).
Proof.
  intros W. pose proof W as [[L _] _].
  destruct (bucket_lookup h (item_key i) L) as [c Hc].
  unfold set. rewrite (unlocked_find_all _ _ _ _ Hc).
  destruct (chain_find (item_key i) c) as [v |] eqn:F; simpl.
  - apply (wf_update h _ _ _ _ _ _ W Hc F).
    + simpl. symmetry. now apply chain_find_elem in F.
    + unfold tomb; simpl. destruct W as [[_ [_ ND]] _].
      destruct (chain_split _ _ _ F) as (c1 & c2 & -> & _).
      destruct (concat_alter _ _ _ Hc) as (s1 & s2 & E & _).
      unfold slots in ND. rewrite E, !count_deleted_app in ND. simpl in ND.
      destruct (isDeleted v); lia.
  - destruct mem_ok; simpl; [| exact W].
    pose proof (wf_insert h (slot_of_item i) c W Hc F) as W'.
    simpl in W'. unfold tomb in W'. simpl in W'.
    now rewrite Nat.add_0_r in W'.
Qed.

Lemma wf_unlocked_del key h :
  wf h -> wf (unlocked_del key (bucket hash h key) h).
Proof.
  intros W. pose proof W as [[L _] _].
  destruct (bucket_lookup h key L) as [c Hc].
  unfold unlocked_del. rewrite (unlocked_find_all _ _ _ _ Hc).
  destruct (chain_find key c) as [v |] eqn:F; [| exact W].
  now apply (wf_remove h key _ c v).
Qed.

Lemma wf_del key h : wf h -> wf (snd (del hash key h)).
Proof.
  intros W. unfold del.
  destruct (unlocked_find key (bucket hash h key) true h); simpl;
    [now apply wf_unlocked_del | exact W].
Qed.

Lemma wf_softDelete key h :
  wf h -> wf (unlocked_softDelete key (bucket hash h key) h).
Proof.
  intros W. pose proof W as [[L _] _].
  destruct (bucket_lookup h key L) as [c Hc].
  unfold unlocked_softDelete. rewrite (unlocked_find_chain _ _ _ _ _ Hc).
  destruct (chain_find key c) as [v |] eqn:F; [| exact W].
  simpl. rewrite andb_true_r.
  destruct (isDeleted v) eqn:D; [exact W |].
  apply (wf_update h _ _ _ _ _ _ W Hc F); [reflexivity |].
  unfold tomb. rewrite D. simpl. lia.
Qed.

Lemma wf_markClean key h :
  wf h -> wf (unlocked_markClean key (bucket hash h key) h).
Proof.
  intros W. pose proof W as [[L _] _].
  destruct (bucket_lookup h key L) as [c Hc].
  unfold unlocked_markClean.
  destruct (chain_find key c) as [v |] eqn:F.
  - apply (wf_update h _ _ _ _ _ _ W Hc F); [reflexivity |].
    unfold tomb. simpl. lia.
  - apply chain_find_None in F as (_ & U & _).
    destruct (values_split _ _ _ Hc) as (l1 & l2 & E & _ & A).
    rewrite A, U, <- E. now destruct h.
Qed.


(** ** Rehashing *)

Definition placed (nv : list (list StoredValue)) : Prop :=
  forall i c v, nv !! i = Some c -> v ∈ c ->
                (hash (getKey v) mod length nv)%nat = i.

Lemma relink_length nv v : length (relink hash nv v) = length nv.
Proof. unfold relink. apply length_alter. Qed.

Lemma relink_perm nv v :
  (0 < length nv)%nat -> concat (relink hash nv v) ≡ₚ v :: concat nv.
Proof.
  intros L. unfold relink.
  assert (is_Some (nv !! (hash (getKey v) mod length nv)%nat)) as [c Hc].
  { apply lookup_lt_is_Some_2, Nat.mod_upper_bound. lia. }
  destruct (concat_alter _ _ _ Hc) as (s1 & s2 & E & A).
  rewrite A, E. simpl. symmetry. apply Permutation_middle.
Qed.

Lemma relink_placed nv v : placed nv -> placed (relink hash nv v).
Proof.
  intros P i c w Hi Hw. rewrite relink_length. unfold relink in Hi.
  rewrite list_lookup_alter in Hi.
  destruct (decide ((hash (getKey v) mod length nv)%nat = i)) as [E | Ne].
  - destruct (nv !! (hash (getKey v) mod length nv)%nat) as [c0 |] eqn:Hc;
      simpl in Hi; [| discriminate].
    injection Hi as <-. apply elem_of_cons in Hw as [-> | Hw]; [exact E |].
    rewrite <- E. eapply P; eauto.
  - eapply P; eauto.
Qed.

Lemma rehash_fold l : forall nv,
  (0 < length nv)%nat -> placed nv ->
  length (fold_left (relink hash) l nv) = length nv /\
  concat (fold_left (relink hash) l nv) ≡ₚ l ++ concat nv /\
  placed (fold_left (relink hash) l nv).
Proof.
  induction l as [| v l IH]; intros nv L P; simpl.
  - auto.
  - destruct (IH (relink hash nv v)) as (IL & IP & IQ).
    + now rewrite relink_length.
    + now apply relink_placed.
    + rewrite relink_length in IL. split; [exact IL |]. split; [| exact IQ].
      rewrite IP, relink_perm by exact L. symmetry. apply Permutation_middle.
Qed.

Lemma rehash_spec n old :
  (0 < n)%nat ->
  length (rehash hash n old) = n /\
  concat (rehash hash n old) ≡ₚ concat old /\
  placed (rehash hash n old).
Proof.
  intros L. unfold rehash.
  destruct (rehash_fold (concat old) (repeat [] n)) as (IL & IP & IQ).
  - now rewrite repeat_length.
  - intros i c v Hc Hv. apply lookup_repeat in Hc. subst c.
    now apply elem_of_nil in Hv.
  - rewrite repeat_length in IL. rewrite concat_repeat_nil, app_nil_r in IP.
    auto.
Qed.

(** The cases of [resize]: nothing changes, or the slots are rehashed into
    a positive number of buckets. *)
Lemma resize_cases t n h :
  resize hash t n h = h \/
  exists m, (0 < m)%nat /\
            resize hash t n h =
            mkHT (rehash hash m (values h)) (n_locks h) (numItems h)
                 (numDeletedItems h).
Proof.
  unfold resize.
  set (target := if (n =? 0)%N then auto_size t h else n).
  destruct (max_buckets <? target)%N; [now left |].
  destruct (N.eqb_spec target 0); [now left |].
  destruct (target =? N.of_nat (getSize h))%N; [now left |].
  right. exists (N.to_nat target). split; [lia | reflexivity].
Qed.

Lemma wf_rehash m h :
  (0 < m)%nat -> wf h ->
  wf (mkHT (rehash hash m (values h)) (n_locks h) (numItems h)
           (numDeletedItems h)).
Proof.
  intros Lm [[L [NI ND]] [NK P]].
  destruct (rehash_spec m (values h) Lm) as (RL & RP & RQ).
  unfold wf, counts_ok, placed_ok, slots in *; simpl.
  rewrite RL. repeat split.
  - exact Lm.
  - rewrite NI. symmetry. now apply Permutation_length.
  - rewrite ND. symmetry. now apply count_deleted_perm.
  - now rewrite RP.
  - intros i c v Hi Hv. rewrite <- RL. eapply RQ; eauto.
Qed.

Lemma wf_resize t n h : wf h -> wf (resize hash t n h).
Proof.
  intros W. destruct (resize_cases t n h) as [-> | (m & Lm & ->)];
    [exact W | now apply wf_rehash].
Qed.

Lemma wf_apply_op h o : wf h -> wf (apply_op hash h o).
Proof.
  intros W. destruct o; simpl.
  - now apply wf_set.
  - now apply wf_del.
  - now apply wf_softDelete.
  - now apply wf_markClean.
  - now apply wf_resize.
  - now apply wf_clear.
Qed.

Lemma wf_run_ops ops : forall h, wf h -> wf (run_ops hash h ops).
Proof.
  unfold run_ops. induction ops as [| o ops IH]; intros h W; simpl;
    [exact W | apply IH, wf_apply_op, W].
Qed.

(** ** Lookup in a well-formed table *)

Lemma find_spec h key wd v :
  wf h ->
  find hash key wd h = Some v <->
  v ∈ slots h /\ getKey v = key /\ isDeleted v && negb wd = false.
Proof.
  intros [[L _] [NK P]].
  destruct (bucket_lookup h key L) as [c Hc].
  unfold find. rewrite (unlocked_find_chain _ _ _ _ _ Hc). split.
  - destruct (chain_find key c) as [w |] eqn:F; [| discriminate].
    destruct (isDeleted w && negb wd) eqn:D; [discriminate |].
    intros [= ->]. apply chain_find_elem in F as [Hv K].
    repeat split; auto. apply elem_of_concat. eauto.
  - intros (Hv & K & D).
    apply elem_of_concat in Hv as (i & c' & Hi & Hv).
    pose proof (P _ _ _ Hi Hv) as E. rewrite K in E.
    unfold bucket, getSize in Hc. rewrite E, Hi in Hc. injection Hc as ->.
    assert (NoDup (getKey <$> c)) as NC.
    { destruct (concat_alter _ _ _ Hi) as (s1 & s2 & Es & _).
      unfold slots in NK. rewrite Es, !fmap_app in NK.
      apply NoDup_app in NK as (_ & _ & NK).
      now apply NoDup_app in NK as (NK & _). }
    rewrite <- K, (chain_find_unique _ _ NC Hv). now rewrite D.
Qed.

(** Two well-formed tables with the same slots answer [find] alike. *)
Lemma find_perm h1 h2 key wd :
  wf h1 -> wf h2 -> slots h1 ≡ₚ slots h2 ->
  find hash key wd h1 = find hash key wd h2.
Proof.
  intros W1 W2 E.
  destruct (find hash key wd h1) as [v |] eqn:F1.
  - symmetry. apply (find_spec _ _ _ _ W2).
    apply (find_spec _ _ _ _ W1) in F1 as (Hv & K & D).
    repeat split; auto. now rewrite <- E.
  - destruct (find hash key wd h2) as [w |] eqn:F2; [| reflexivity].
    apply (find_spec _ _ _ _ W2) in F2 as (Hv & K & D).
    rewrite <- E in Hv.
    assert (find hash key wd h1 = Some w) as F by now apply find_spec.
    congruence.
Qed.

Lemma resize_find t n h key wd :
  wf h -> find hash key wd (resize hash t n h) = find hash key wd h.
Proof.
  intros W. apply find_perm; [now apply wf_resize | exact W |].
  destruct (resize_cases t n h) as [-> | (m & Lm & ->)]; [reflexivity |].
  unfold slots; simpl. now apply rehash_spec.
Qed.

Lemma resize_out_of_range t n h :
  (max_buckets < n)%N -> resize hash t n h = h.
Proof.
  intros H. unfold resize.
  destruct (N.eqb_spec n 0) as [-> | _]; [now apply N.nlt_0_r in H |].
  apply N.ltb_lt in H. now rewrite H.
Qed.


(** ** Lookup after [set] and after [del] *)

Lemma NoDup_fmap_middle {A B} (f : A -> B) (l1 l2 : list A) x :
  NoDup (f <$> (l1 ++ x :: l2)) -> x ∉ l1 ++ l2.
Proof.
  rewrite fmap_app, fmap_cons. intros N Hin.
  apply NoDup_app in N as (_ & N1 & N2).
  apply NoDup_cons in N2 as [N2 _].
  apply elem_of_app in Hin as [Hin | Hin].
  - apply (N1 (f x)); [now apply list_elem_of_fmap_2 | apply list_elem_of_here].
  - apply N2. now apply list_elem_of_fmap_2.
Qed.

Lemma find_after_set i mem_ok wd h :
  wf h ->
  (find hash (item_key i) true h <> None \/ mem_ok = true) ->
  find hash (item_key i) wd (snd (set hash i mem_ok h)) =
  Some (slot_of_item i).
Proof.
  intros W Hc. apply find_spec; [now apply wf_set |].
  split; [| split; [reflexivity | reflexivity]].
  pose proof W as [[L _] _].
  destruct (bucket_lookup h (item_key i) L) as [c Hb].
  unfold find in Hc. unfold set, slots.
  rewrite (unlocked_find_all _ _ _ _ Hb) in *.
  destruct (concat_alter _ _ _ Hb) as (s1 & s2 & _ & A).
  destruct (chain_find (item_key i) c) as [v |] eqn:F; simpl.
  - rewrite A. destruct (chain_split _ _ _ F) as (c1 & c2 & _ & _ & U & _).
    rewrite U. rewrite !elem_of_app, elem_of_cons. auto.
  - destruct Hc as [Hc | ->]; [congruence |]. simpl. rewrite A.
    rewrite !elem_of_app, elem_of_cons. auto.
Qed.

Lemma find_after_del key wd h :
  wf h -> find hash key wd (snd (del hash key h)) = None.
Proof.
  intros W.
  destruct (find hash key wd (snd (del hash key h))) as [v |] eqn:F;
    [| reflexivity].
  exfalso. apply (find_spec _ _ _ _ (wf_del key h W)) in F as (Hv & K & _).
  pose proof W as [[L _] [NK P]].
  destruct (bucket_lookup h key L) as [c Hb].
  unfold del, unlocked_del, slots in Hv.
  rewrite (unlocked_find_all _ _ _ _ Hb) in Hv.
  destruct (chain_find key c) as [v0 |] eqn:Fc; simpl in Hv.
  - destruct (concat_alter _ _ _ Hb) as (s1 & s2 & E & A).
    destruct (chain_split _ _ _ Fc) as (c1 & c2 & -> & K0 & _ & R).
    rewrite A, R in Hv. unfold slots in NK. rewrite E in NK.
    assert (Hv' : v ∈ (s1 ++ c1) ++ c2 ++ s2).
    { revert Hv. rewrite !elem_of_app. tauto. }
    assert (E' : s1 ++ (c1 ++ v0 :: c2) ++ s2 = (s1 ++ c1) ++ v0 :: c2 ++ s2).
    { now rewrite <- !app_assoc. }
    rewrite E' in NK.
    assert (v = v0).
    { eapply NoDup_fmap_eq; [exact NK | | | congruence].
      - revert Hv'. rewrite !elem_of_app, elem_of_cons, !elem_of_app. tauto.
      - rewrite elem_of_app, elem_of_cons. auto. }
    subst v. now apply NoDup_fmap_middle in NK.
  - apply (absent_from_table h key c (conj NK P) Hb Fc).
    rewrite <- K. now apply list_elem_of_fmap_2.
Qed.

End WithHash.

(** A hash function and some keys for concrete runs. *)
Definition length_hash (key : string) : nat := String.length key.

Definition sample_ops : list ht_op :=
  [ OpSet (mkItem "a"%string 0 0 "1"%string) true;
    OpSet (mkItem "bb"%string 0 0 "2"%string) true;
    OpSet (mkItem "ccc"%string 0 0 "3"%string) true;
    OpSet (mkItem "dddddd"%string 0 0 "4"%string) true;
    OpSoftDelete "bb"%string;
    OpSet (mkItem "a"%string 0 0 "5"%string) true;
    OpSet (mkItem "e"%string 0 0 "6"%string) false;
    OpDel "ccc"%string;
    OpResize [] 11;
    OpResize [] 2 ].

Definition sample_keys : list string :=
  ["a"%string; "bb"%string; "ccc"%string; "dddddd"%string].

(** C7: after any sequence of operations on a table created with a
    positive number of buckets ([set], with or without memory for a new
    slot, [del], soft deletion, marking clean, [resize], [clear]), the
    [Counter] visitor counts exactly the live and the tombstoned slots
    present, [getNumItems()] equals the sum of its two counters (the
    expectation inside [count] holds), and [getNumDeletedItems()] equals
    the tombstone counter. *)
Theorem C7_numItems_is_live_plus_deleted :
  forall (hash : string -> nat) (size locks : nat) (ops : list ht_op),
    (0 < size)%nat ->
    let h := run_ops hash (make size locks) ops in
    let c := visit Counter.visit (Counter.mk 0 0) h in
    Counter.count c = count_live (slots h) /\
    Counter.deleted c = count_deleted (slots h) /\
    getNumItems h = (Counter.count c + Counter.deleted c)%nat /\
    getNumDeletedItems h = Counter.deleted c /\
    count h = (Counter.count c, true).
Proof.
  intros hash size locks ops L h c.
  assert (W : wf hash h) by (apply wf_run_ops, wf_make, L).
  destruct W as [[_ [NI ND]] _].
  assert (E : c = Counter.mk (count_live (slots h)) (count_deleted (slots h))).
  { unfold c, visit. now rewrite visit_slots_Counter. }
  assert (S : getNumItems h = (Counter.count c + Counter.deleted c)%nat).
  { rewrite E. simpl. unfold getNumItems. now rewrite NI, count_live_deleted. }
  rewrite E in *. simpl in *. repeat split; auto.
  unfold count. fold c. rewrite E. simpl. f_equal.
  apply Nat.eqb_eq. exact S.
Qed.

Lemma C7_numItems_witness :
  (0 < 3)%nat /\
  let h := run_ops length_hash (make 3 2) sample_ops in
  let c := visit Counter.visit (Counter.mk 0 0) h in
  Counter.count c = count_live (slots h) /\
  Counter.deleted c = count_deleted (slots h) /\
  getNumItems h = (Counter.count c + Counter.deleted c)%nat /\
  getNumDeletedItems h = Counter.deleted c /\
  count h = (Counter.count c, true).
Proof.
  split; [lia |].
  apply (C7_numItems_is_live_plus_deleted length_hash 3 2 sample_ops). lia.
Defined.

(** C8: on every table reached from a fresh one with a positive number of
    buckets, [resize(newSize)] preserves all slots: [find], for every key
    and either choice of [wantsDeleted], returns after the resize what it
    returned before, whether the table shrinks or grows; and a request for
    an out-of-range size (above the largest supported bucket count)
    returns the table as it was, bucket count and contents included. *)
Theorem C8_resize_preserves_find :
  forall (hash : string -> nat) (size locks : nat) (ops : list ht_op)
         (prime_size_table : list N) (newSize : N) (key : string)
         (wantsDeleted : bool),
    (0 < size)%nat ->
    let h := run_ops hash (make size locks) ops in
    find hash key wantsDeleted (resize hash prime_size_table newSize h) =
    find hash key wantsDeleted h /\
    ((max_buckets < newSize)%N ->
     resize hash prime_size_table newSize h = h /\
     getSize (resize hash prime_size_table newSize h) = getSize h) /\
    ((0 < newSize <= max_buckets)%N ->
     getSize (resize hash prime_size_table newSize h) = N.to_nat newSize).
Proof.
  intros hash size locks ops t n key wd L h.
  assert (W : wf hash h) by (apply wf_run_ops, wf_make, L).
  split; [now apply resize_find |]. split.
  - intros H. rewrite resize_out_of_range by exact H. auto.
  - intros [H0 H1]. unfold resize.
    destruct (N.eqb_spec n 0) as [-> | _]; [now apply N.lt_irrefl in H0 |].
    destruct (N.ltb_spec max_buckets n) as [H | _]; [lia |].
    destruct (N.eqb_spec n 0) as [-> | _]; [now apply N.lt_irrefl in H0 |].
    destruct (N.eqb_spec n (N.of_nat (getSize h))) as [-> | _]; [lia |].
    unfold getSize; simpl. apply rehash_spec. lia.
Qed.

Lemma C8_resize_witness :
  (0 < 3)%nat /\
  let h := run_ops length_hash (make 3 2) sample_ops in
  find length_hash "a"%string false (resize length_hash [] 7 h) =
  find length_hash "a"%string false h /\
  ((max_buckets < 7)%N ->
   resize length_hash [] 7 h = h /\
   getSize (resize length_hash [] 7 h) = getSize h) /\
  ((0 < 7 <= max_buckets)%N ->
   getSize (resize length_hash [] 7 h) = N.to_nat 7).
Proof.
  split; [lia |].
  apply (C8_resize_preserves_find
           length_hash 3 2 sample_ops [] 7 "a"%string false).
  lia.
Defined.

(** The resize test of [hash_table_test.cc] in small: a grow, a shrink and
    an out-of-range request keep every lookup. *)
Example resize_grow_shrink_out_of_range :
  let h := run_ops length_hash (make 3 2) sample_ops in
  let grown := resize length_hash [] 11 h in
  let shrunk := resize length_hash [] 2 grown in
  let same := resize length_hash [] (2147483647 + 17) shrunk in
  getSize h = 2%nat /\ getSize grown = 11%nat /\ getSize shrunk = 2%nat /\
  getSize same = 2%nat /\ same = shrunk /\
  List.map (fun k => find length_hash k true grown) sample_keys =
  List.map (fun k => find length_hash k true h) sample_keys /\
  List.map (fun k => find length_hash k true shrunk) sample_keys =
  List.map (fun k => find length_hash k true h) sample_keys /\
  find length_hash "bb"%string true h =
  Some (mkStoredValue "bb"%string 0 0 "2"%string true true) /\
  find length_hash "bb"%string false h = None /\
  find length_hash "ccc"%string true h = None.
Proof. vm_compute. repeat split. Qed.

End HashTableFacts.

(* ================================================================== *)
(** * Facts about the store *)
(* ================================================================== *)

Module EPFacts.

Import HashTable EP HashTableFacts.
Local Open Scope ep_scope.

(** ** Running the monad *)

Ltac mrun :=
  cbv beta delta [bind ret get_store modify throw abort wait out_of_fuel
                  discard] in *;
  cbv beta iota in *.

Lemma bind_done {A B} (m : M A) (f : A -> M B) s a s' :
  m s = Done a s' -> bind m f s = f a s'.
Proof. intros H. unfold bind. now rewrite H. Qed.

Lemma bind_threw {A B} (m : M A) (f : A -> M B) s s' :
  m s = Threw s' -> bind m f s = Threw s'.
Proof. intros H. unfold bind. now rewrite H. Qed.

(** However the operation ends (returning, throwing, stopped by a failed
    assertion or blocked), the store it leaves satisfies [P]. *)
Definition ends_in {A} (r : result A) (P : Store -> Prop) : Prop :=
  match r with
  | Done _ s | Threw s | Aborted s | Waiting s => P s
  | OutOfFuel => True
  end.

Lemma ends_in_bind {A B} (m : M A) (f : A -> M B) s (P : Store -> Prop) :
  ends_in (m s) P ->
  (forall a s', m s = Done a s' -> ends_in (f a s') P) ->
  ends_in (bind m f s) P.
Proof.
  intros Hm Hf. unfold bind. destruct (m s) as [a s' | s' | s' | s' |] eqn:E;
    simpl in *; auto.
Qed.

Lemma ends_in_weaken {A} (r : result A) (P Q : Store -> Prop) :
  ends_in r P -> (forall s, P s -> Q s) -> ends_in r Q.
Proof. destruct r; simpl; auto. Qed.

Lemma final_store_ends_in {A} (r : result A) P s' :
  ends_in r P -> final_store r = Some s' -> P s'.
Proof. destruct r; simpl; try discriminate; now intros H [= <-]. Qed.

Section WithEnvironment.

Variable hash : string -> nat.
Variable underlying : KVStore.
Variable timing_asserts : list kvop -> StoredValue -> bool.

Definition logged (s : Store) (op : kvop) : Store :=
  with_kvlog s (kvlog s ++ [op]).

Lemma kv_call_eq op s :
  kv_call underlying op s =
  match underlying (kvlog s) op with
  | KvThrows => Threw (logged s op)
  | _ => Done tt (logged s op)
  end.
Proof.
  unfold kv_call. mrun. destruct (underlying (kvlog s) op); reflexivity.
Qed.

Lemma queueDirty_eq key s q :
  towrite s = Some q ->
  queueDirty key s = Done tt (with_towrite s (Some (q ++ [key]))).
Proof. intros H. unfold queueDirty. mrun. now rewrite H. Qed.

(** ** [set] and [del] *)

(** Whether [set] appends the key, by the result of [storage.set]. *)
Definition enqueues (mtype : mutation_type_t) : bool :=
  match mtype with
  | WAS_CLEAN | NOT_FOUND => true
  | WAS_DIRTY | NOMEM => false
  end.

Lemma set_enqueue_eq mtype item s q :
  towrite s = Some q ->
  set_enqueue mtype item s =
  Done [true] (if enqueues mtype
               then with_towrite s (Some (q ++ [item_key item])) else s).
Proof.
  intros H. unfold set_enqueue.
  destruct mtype; simpl;
    try (rewrite (bind_done _ _ _ _ _ (queueDirty_eq _ _ _ H)); reflexivity);
    reflexivity.
Qed.

Lemma set_eq item mem_ok s q :
  towrite s = Some q ->
  set hash item mem_ok s =
  let r := HashTable.set hash item mem_ok (storage s) in
  Done [true]
       (if enqueues (fst r)
        then with_towrite (with_storage s (snd r)) (Some (q ++ [item_key item]))
        else with_storage s (snd r)).
Proof.
  intros H. unfold set. mrun.
  destruct (HashTable.set hash item mem_ok (storage s)) as [mtype h].
  simpl. now rewrite (set_enqueue_eq mtype item (with_storage s h) q).
Qed.

Lemma del_eq key s q :
  towrite s = Some q ->
  del hash key s =
  let r := HashTable.del hash key (storage s) in
  Done [fst r]
       (if fst r
        then with_towrite (with_storage s (snd r)) (Some (q ++ [key]))
        else with_storage s (snd r)).
Proof.
  intros H. unfold del. mrun.
  destruct (HashTable.del hash key (storage s)) as [existed h]. simpl.
  destruct existed; [| reflexivity].
  now rewrite (queueDirty_eq key (with_storage s h) q).
Qed.


Lemma HashTable_set_result i mem_ok h :
  fst (HashTable.set hash i mem_ok h) =
  match unlocked_find (item_key i) (bucket hash h (item_key i)) true h with
  | Some v => if isDirty v then WAS_DIRTY else WAS_CLEAN
  | None => if mem_ok then WAS_CLEAN else NOMEM
  end.
Proof.
  unfold HashTable.set.
  destruct (unlocked_find (item_key i) (bucket hash h (item_key i)) true h);
    [reflexivity | now destruct mem_ok].
Qed.

Lemma HashTable_del_result key h :
  fst (HashTable.del hash key h) =
  match unlocked_find key (bucket hash h key) true h with
  | Some _ => true
  | None => false
  end.
Proof.
  unfold HashTable.del.
  now destruct (unlocked_find key (bucket hash h key) true h).
Qed.


(** ** Marking a slot clean *)

Lemma chain_find_update_same key f c :
  (forall v, getKey (f v) = getKey v) ->
  chain_find key (chain_update key f c) = f <$> chain_find key c.
Proof.
  intros K. induction c as [| w c IH]; simpl; [reflexivity |].
  destruct (String.eqb_spec (getKey w) key) as [E | E]; simpl.
  - rewrite K. apply String.eqb_eq in E. now rewrite E.
  - apply String.eqb_neq in E. now rewrite E.
Qed.

Lemma chain_find_update_other key k f c :
  key <> k ->
  (forall v, getKey (f v) = getKey v) ->
  chain_find k (chain_update key f c) = chain_find k c.
Proof.
  intros Ne K. induction c as [| w c IH]; simpl; [reflexivity |].
  destruct (String.eqb_spec (getKey w) key) as [E | E]; simpl.
  - rewrite K.
    destruct (String.eqb_spec (getKey w) k) as [E' | E'];
      [congruence | reflexivity].
  - now rewrite IH.
Qed.

Lemma find_markClean key k wd h :
  find hash k wd (unlocked_markClean key (bucket hash h key) h) =
  if String.eqb key k then markClean <$> find hash k wd h
  else find hash k wd h.
Proof.
  unfold find, unlocked_find, unlocked_markClean, bucket, getSize; simpl.
  rewrite length_alter, list_lookup_alter.
  destruct (String.eqb_spec key k) as [-> | Ne].
  - destruct (decide _) as [_ | N]; [| congruence].
    destruct (values h !! (hash k mod length (values h))%nat) as [c |];
      simpl; [| reflexivity].
    rewrite chain_find_update_same by reflexivity.
    destruct (chain_find k c) as [v |]; simpl; [| reflexivity].
    now destruct (isDeleted v && negb wd).
  - destruct (decide _) as [E | _]; [| reflexivity].
    rewrite E.
    destruct (values h !! (hash k mod length (values h))%nat) as [c |];
      simpl; [| reflexivity].
    now rewrite chain_find_update_other.
Qed.

Lemma getSize_markClean key b h :
  getSize (unlocked_markClean key b h) = getSize h.
Proof. unfold getSize, unlocked_markClean; simpl. apply length_alter. Qed.

(** ** [flushOne] *)

Definition item_of (key : string) (v : StoredValue) : Item :=
  mkItem key (getFlags v) (getExptime v) (getValue v).

(** What [flushOne] decides for a key under the bucket lock: the table it
    leaves and the persistence operation to issue, if any. *)
Definition resolve (h : HashTable) (key : string)
  : HashTable * option kvop :=
  match unlocked_find key (bucket hash h key) false h with
  | Some v =>
      if isDirty v
      then (unlocked_markClean key (bucket hash h key) h,
            Some (KvSet (item_of key v)))
      else (h, None)
  | None => (h, Some (KvDel key))
  end.

Definition popped (s : Store) (h : HashTable) : Store :=
  with_stats (with_storage s h)
             (mkStats (queue_size (stats s)) (flusher_todo (stats s) - 1)).

(** Whether [flushOne] stops on a failed assertion for the key. *)
Definition assert_fails (s : Store) (key : string) : bool :=
  match unlocked_find key (bucket hash (storage s) key) false (storage s) with
  | Some v => isDirty v && negb (timing_asserts (kvlog s) v)
  | None => false
  end.

Lemma flushOne_eq key q' s :
  flushOne hash underlying timing_asserts (key :: q') s =
  let r := resolve (storage s) key in
  if assert_fails s key then Aborted (with_storage s (fst r))
  else
    match snd r with
    | None => Done q' (popped s (fst r))
    | Some op =>
        match underlying (kvlog s) op with
        | KvThrows => Threw (logged (popped s (fst r)) op)
        | _ => Done q' (logged (popped s (fst r)) op)
        end
    end.
Proof.
  unfold flushOne, resolve, assert_fails. mrun.
  destruct (unlocked_find key (bucket hash (storage s) key) false (storage s))
    as [v |] eqn:F.
  - destruct (isDirty v) eqn:D; simpl.
    + destruct (timing_asserts (kvlog s) v); simpl; [| reflexivity].
      rewrite kv_call_eq. unfold item_of, popped, logged. simpl.
      destruct (underlying (kvlog s) _); reflexivity.
    + destruct s as [h tw st]; destruct st; reflexivity.
  - simpl. rewrite kv_call_eq. unfold popped, logged. simpl.
    destruct (underlying (kvlog s) _); reflexivity.
Qed.


(** The calls a run added to the log. *)
Definition issued (s s' : Store) : list kvop :=
  drop (length (kvlog s)) (kvlog s').

Lemma issued_app s s' ops : kvlog s' = kvlog s ++ ops -> issued s s' = ops.
Proof. intros E. unfold issued. rewrite E. apply drop_app_length. Qed.

(** ** What a flush cycle maintains *)

(** The keys of the [set] operations in a sequence of calls. *)
Definition set_keys (ops : list kvop) : list string :=
  flat_map (fun op => match op with KvSet i => [item_key i] | _ => [] end) ops.

Lemma set_keys_app ops1 ops2 :
  set_keys (ops1 ++ ops2) = set_keys ops1 ++ set_keys ops2.
Proof. unfold set_keys. apply flat_map_app. Qed.

(** A persistence operation issued during a cycle is justified by the table
    [h0] the cycle started from: a [set] carries the content of a slot that
    was live and dirty in [h0] and is clean in the current table [h]; a
    [del] names a key with no live slot in [h0]. *)
Definition justified (h0 h : HashTable) (op : kvop) : Prop :=
  match op with
  | KvSet i =>
      exists v, find hash (item_key i) false h0 = Some v /\
                isDirty v = true /\
                i = item_of (item_key i) v /\
                find hash (item_key i) false h = Some (markClean v)
  | KvDel key => find hash key false h0 = None
  | KvBegin | KvCommit => True
  | KvReset => False
  end.

Record cycle_inv (s0 s : Store) : Prop := mk_cycle_inv {
  ci_flusher : flusherState s = flusherState s0;
  ci_txn : txnSize s = txnSize s0;
  ci_threads : threads_created s = threads_created s0;
  ci_towrite : towrite s = towrite s0;
  ci_table : forall k,
      find hash k false (storage s) = find hash k false (storage s0) \/
      exists v, find hash k false (storage s0) = Some v /\
                isDirty v = true /\
                find hash k false (storage s) = Some (markClean v);
  ci_log : exists ops,
      kvlog s = kvlog s0 ++ ops /\
      Forall (justified (storage s0) (storage s)) ops /\
      NoDup (set_keys ops)
}.

Lemma cycle_inv_refl s : cycle_inv s s.
Proof.
  constructor; auto. exists []. rewrite app_nil_r.
  repeat split; constructor.
Qed.

Lemma cycle_inv_bracket s0 s op :
  op = KvBegin \/ op = KvCommit ->
  cycle_inv s0 s -> cycle_inv s0 (logged s op).
Proof.
  intros Hop [F T C W Tb (ops & L & J & N)].
  constructor; simpl; auto.
  exists (ops ++ [op]). split; [now rewrite L, app_assoc |]. split.
  - apply Forall_app. split; [exact J |].
    constructor; [| constructor]. destruct Hop as [-> | ->]; exact I.
  - rewrite set_keys_app. destruct Hop as [-> | ->]; simpl;
      now rewrite app_nil_r.
Qed.

Lemma set_key_clean h0 h ops key :
  Forall (justified h0 h) ops -> key ∈ set_keys ops ->
  exists v, find hash key false h = Some (markClean v).
Proof.
  intros J Hin. unfold set_keys in Hin.
  apply list_elem_of_In, in_flat_map in Hin as (op & Hop & Hk).
  rewrite Forall_forall in J. apply list_elem_of_In in Hop.
  specialize (J _ Hop).
  destruct op; simpl in Hk; try contradiction.
  destruct Hk as [<- | []]. destruct J as (v & _ & _ & _ & F). eauto.
Qed.

Lemma cycle_inv_with_stats s0 s st :
  cycle_inv s0 s -> cycle_inv s0 (with_stats s st).
Proof. intros [F T C W Tb L]. constructor; auto. Qed.

(** Marking the dirty slot of a key clean. *)
Lemma cycle_inv_markClean s0 s key v :
  cycle_inv s0 s ->
  find hash key false (storage s) = Some v ->
  isDirty v = true ->
  find hash key false (storage s0) = Some v /\
  cycle_inv s0 (with_storage s (unlocked_markClean
                                  key (bucket hash (storage s) key)
                                  (storage s))).
Proof.
  intros [F T C W Tb (ops & L & J & N)] Fk D.
  assert (F0 : find hash key false (storage s0) = Some v).
  { destruct (Tb key) as [E | (v0 & _ & _ & E)]; [congruence |].
    rewrite Fk in E. injection E as ->. discriminate. }
  split; [exact F0 |].
  constructor; simpl; auto.
  - intros k. rewrite find_markClean.
    destruct (String.eqb_spec key k) as [<- | Ne]; [| apply Tb].
    right. exists v. rewrite Fk. auto.
  - exists ops. split; [exact L |]. split; [| exact N].
    eapply Forall_impl; [exact J |].
    intros [| i | k | |]; simpl; auto.
    intros (w & A & B & E & G). exists w. repeat split; auto.
    rewrite find_markClean, G. now destruct (String.eqb key (item_key i)).
Qed.

(** Issuing the [set] of a slot that was dirty and has been marked clean. *)
Lemma cycle_inv_log_set s0 s key v :
  cycle_inv s0 s ->
  find hash key false (storage s0) = Some v ->
  isDirty v = true ->
  find hash key false (storage s) = Some (markClean v) ->
  (forall w, find hash key false (storage s) = Some w ->
             key ∉ set_keys (issued s0 s)) ->
  cycle_inv s0 (logged s (KvSet (item_of key v))).
Proof.
  intros [F T C W Tb (ops & L & J & N)] F0 D G Fresh.
  constructor; simpl; auto.
  exists (ops ++ [KvSet (item_of key v)]).
  split; [now rewrite L, app_assoc |]. split.
  - apply Forall_app. split; [exact J |].
    constructor; [| constructor]. simpl. exists v. auto.
  - rewrite set_keys_app. simpl. apply NoDup_app.
    split; [exact N |]. split; [| apply NoDup_singleton].
    intros k Hk Hk'. apply list_elem_of_singleton in Hk'. subst k.
    apply (Fresh _ G). unfold issued. rewrite L, drop_app_length. exact Hk.
Qed.

(** Issuing the [del] of a key that has no live slot. *)
Lemma cycle_inv_log_del s0 s key :
  cycle_inv s0 s ->
  find hash key false (storage s) = None ->
  cycle_inv s0 (logged s (KvDel key)).
Proof.
  intros [F T C W Tb (ops & L & J & N)] Fk.
  constructor; simpl; auto.
  exists (ops ++ [KvDel key]). split; [now rewrite L, app_assoc |]. split.
  - apply Forall_app. split; [exact J |].
    constructor; [| constructor]. simpl.
    destruct (Tb key) as [E | (v0 & _ & _ & E)]; congruence.
  - rewrite set_keys_app. simpl. now rewrite app_nil_r.
Qed.

(** The step of [flushOne] on the table and the log. *)
Lemma cycle_inv_resolve s0 s key :
  cycle_inv s0 s ->
  let r := resolve (storage s) key in
  cycle_inv s0 (with_storage s (fst r)) /\
  match snd r with
  | None => cycle_inv s0 (popped s (fst r))
  | Some op => cycle_inv s0 (logged (popped s (fst r)) op)
  end.
Proof.
  intros Inv. unfold resolve. cbv zeta.
  change (unlocked_find key (bucket hash (storage s) key) false (storage s))
    with (find hash key false (storage s)).
  destruct (find hash key false (storage s)) as [v |] eqn:Fk.
  - destruct (isDirty v) eqn:D; simpl.
    + (* found and dirty: marked clean, a set is issued *)
      destruct (cycle_inv_markClean s0 s key v Inv Fk D) as [F0 Inv'].
      split; [exact Inv' |].
      assert (Old : forall k, k ∈ set_keys (issued s0 s) ->
                              exists w, find hash k false (storage s)
                                        = Some (markClean w)).
      { destruct Inv as [_ _ _ _ _ (ops & L & J & _)].
        rewrite (issued_app s0 s ops L). intros k Hk.
        exact (set_key_clean _ _ _ _ J Hk). }
      apply (cycle_inv_log_set s0 (popped s _) key v).
      * apply cycle_inv_with_stats. exact Inv'.
      * exact F0.
      * exact D.
      * simpl. now rewrite find_markClean, String.eqb_refl, Fk.
      * simpl. intros w _ Hk. destruct (Old key) as (w' & G).
        -- exact Hk.
        -- rewrite Fk in G. injection G as ->. discriminate.
    + (* found and clean: nothing is issued *)
      split; [now destruct s |]. apply cycle_inv_with_stats. now destruct s.
  - (* not found: a del is issued *)
    simpl. split; [now destruct s |].
    apply (cycle_inv_log_del s0 (popped s (storage s)) key).
    + apply cycle_inv_with_stats. now destruct s.
    + exact Fk.
Qed.

Lemma flushOne_inv s0 s q :
  cycle_inv s0 s ->
  ends_in (flushOne hash underlying timing_asserts q s) (cycle_inv s0).
Proof.
  intros Inv. destruct q as [| key q']; [exact Inv |].
  rewrite flushOne_eq. destruct (cycle_inv_resolve s0 s key Inv) as [A R].
  cbv zeta in *. destruct (assert_fails s key); [exact A |].
  destruct (snd (resolve (storage s) key)) as [op |]; [| exact R].
  destruct (underlying (kvlog s) op); exact R.
Qed.

Lemma kv_call_inv s0 s op :
  op = KvBegin \/ op = KvCommit ->
  cycle_inv s0 s ->
  ends_in (kv_call underlying op s) (cycle_inv s0).
Proof.
  intros Hop Inv. rewrite kv_call_eq.
  pose proof (cycle_inv_bracket s0 s op Hop Inv).
  now destruct (underlying (kvlog s) op).
Qed.

Lemma flushSome_loop_inv s0 fuel : forall i q s,
  cycle_inv s0 s ->
  ends_in (flushSome_loop hash underlying timing_asserts fuel i q s)
          (cycle_inv s0).
Proof.
  induction fuel as [| fuel IH]; intros i q s Inv; simpl; mrun.
  - destruct (_ && _); [exact I | exact Inv].
  - destruct (_ && _); [| exact Inv].
    apply ends_in_bind; [now apply flushOne_inv |].
    intros q' s' E. apply IH.
    pose proof (flushOne_inv s0 s q Inv) as H. now rewrite E in H.
Qed.

Lemma flushSome_inv s0 fuel q s :
  cycle_inv s0 s ->
  ends_in (flushSome hash underlying timing_asserts fuel q s) (cycle_inv s0).
Proof.
  intros Inv. unfold flushSome.
  apply ends_in_bind; [apply kv_call_inv; auto |].
  intros [] s1 E1.
  assert (Inv1 : cycle_inv s0 s1).
  { pose proof (kv_call_inv s0 s KvBegin (or_introl eq_refl) Inv) as H.
    now rewrite E1 in H. }
  apply ends_in_bind; [now apply flushSome_loop_inv |].
  intros q' s2 E2.
  assert (Inv2 : cycle_inv s0 s2).
  { pose proof (flushSome_loop_inv s0 fuel 0 q s1 Inv1) as H.
    now rewrite E2 in H. }
  apply ends_in_bind; [apply kv_call_inv; auto |].
  intros [] s3 E3. simpl.
  pose proof (kv_call_inv s0 s2 KvCommit (or_intror eq_refl) Inv2) as H.
  now rewrite E3 in H.
Qed.

Lemma flush_loop_inv s0 fuel : forall q s,
  cycle_inv s0 s ->
  ends_in (flush_loop hash underlying timing_asserts fuel q s) (cycle_inv s0).
Proof.
  induction fuel as [| fuel IH]; intros q s Inv; destruct q as [| k q];
    simpl; try exact Inv; try exact I.
  apply ends_in_bind; [now apply flushSome_inv |].
  intros q' s' E. apply IH.
  pose proof (flushSome_inv s0 (S fuel) (k :: q) s Inv) as H.
  now rewrite E in H.
Qed.

(** The store of [flush] once the queue has been swapped out. *)
Definition swapped (s : Store) (n : nat) : Store :=
  with_stats (with_towrite s (Some [])) (mkStats 0 (Z.of_nat n)).

Lemma flush_eq fuel w s :
  flush hash underlying timing_asserts fuel w s =
  match towrite s with
  | None => Aborted s
  | Some [] => if w then Waiting s else Done tt s
  | Some q =>
      flush_loop hash underlying timing_asserts fuel q (swapped s (length q))
  end.
Proof.
  unfold flush. mrun. destruct (towrite s) as [[| k q] |]; try reflexivity.
  now destruct w.
Qed.

Lemma flush_inv fuel w s k q :
  towrite s = Some (k :: q) ->
  ends_in (flush hash underlying timing_asserts fuel w s)
          (cycle_inv (swapped s (length (k :: q)))).
Proof.
  intros H. rewrite flush_eq, H. apply flush_loop_inv, cycle_inv_refl.
Qed.


(** ** A flush cycle over a persistence layer that does not throw *)

Definition is_write (op : kvop) : Prop :=
  match op with
  | KvSet _ | KvDel _ => True
  | _ => False
  end.

(** One transaction: [begin], the writes of the batch, [commit]. *)
Definition transaction (batch : list kvop) : list kvop :=
  KvBegin :: batch ++ [KvCommit].

(** The number of transactions needed for [len] keys, [txn] at a time. *)
Definition num_batches (txn len : nat) : nat := ((len + txn - 1) / txn)%nat.

Definition no_throw : Prop := forall l op, underlying l op <> KvThrows.

(** The assertions of [flushOne] hold whenever they are checked. *)
Definition asserts_hold : Prop := forall l v, timing_asserts l v = true.

Lemma assert_fails_false s key : asserts_hold -> assert_fails s key = false.
Proof.
  intros TA. unfold assert_fails.
  destruct (unlocked_find _ _ _ _) as [v |]; [| reflexivity].
  rewrite TA. apply andb_false_r.
Qed.

(** [s'] is [s] after [n] keys were popped and the writes [w] issued. *)
Record processed (n : nat) (w : list kvop) (s s' : Store) : Prop := {
  pr_log : kvlog s' = kvlog s ++ w;
  pr_writes : Forall is_write w;
  pr_count : (length w <= n)%nat;
  pr_txn : txnSize s' = txnSize s;
  pr_towrite : towrite s' = towrite s;
  pr_todo : flusher_todo (stats s') = flusher_todo (stats s) - Z.of_nat n
}.

Lemma processed_0 s : processed 0 [] s s.
Proof.
  constructor; auto; try lia. now rewrite app_nil_r.
Qed.

Lemma kv_call_ok op s :
  no_throw -> kv_call underlying op s = Done tt (logged s op).
Proof.
  intros NT. rewrite kv_call_eq. specialize (NT (kvlog s) op).
  now destruct (underlying (kvlog s) op).
Qed.

Lemma flushOne_ok key q' s :
  no_throw -> asserts_hold ->
  exists s' w,
    flushOne hash underlying timing_asserts (key :: q') s = Done q' s' /\
    processed 1 w s s'.
Proof.
  intros NT TA. rewrite flushOne_eq. cbv zeta.
  rewrite (assert_fails_false s key TA).
  destruct (snd (resolve (storage s) key)) as [op |] eqn:R.
  - assert (W : is_write op).
    { unfold resolve in R.
      destruct (unlocked_find _ _ _ _) as [v |]; [destruct (isDirty v) |];
        simpl in R; try discriminate; injection R as <-; exact I. }
    exists (logged (popped s (fst (resolve (storage s) key))) op), [op].
    split.
    + specialize (NT (kvlog s) op). now destruct (underlying (kvlog s) op).
    + constructor; simpl; auto; lia.
  - exists (popped s (fst (resolve (storage s) key))), [].
    split; [reflexivity |].
    constructor; simpl; auto; try lia. now rewrite app_nil_r.
Qed.

Lemma processed_trans n1 n2 w1 w2 s1 s2 s3 :
  processed n1 w1 s1 s2 -> processed n2 w2 s2 s3 ->
  processed (n1 + n2) (w1 ++ w2) s1 s3.
Proof.
  intros [L1 W1 C1 T1 Q1 D1] [L2 W2 C2 T2 Q2 D2].
  constructor.
  - now rewrite L2, L1, app_assoc.
  - apply Forall_app; auto.
  - rewrite length_app. lia.
  - congruence.
  - congruence.
  - rewrite D2, D1. lia.
Qed.

(** The keys one run of the loop of [flushSome] pops. *)
Definition batch_size (txn i : Z) (len : nat) : nat :=
  Nat.min (Z.to_nat (txn - i)) len.

Lemma flushSome_loop_S fuel i q s :
  flushSome_loop hash underlying timing_asserts (S fuel) i q s =
  if (i <? txnSize s) && negb (match q with [] => true | _ => false end)
  then bind (flushOne hash underlying timing_asserts q)
            (flushSome_loop hash underlying timing_asserts fuel (i + 1)) s
  else Done q s.
Proof.
  cbn [flushSome_loop]. unfold bind at 1, get_store at 1, ret.
  now destruct (_ && _).
Qed.

Lemma flushSome_loop_ok fuel : forall i q s,
  no_throw -> asserts_hold -> (length q <= fuel)%nat ->
  exists s' w,
    flushSome_loop hash underlying timing_asserts fuel i q s =
    Done (drop (batch_size (txnSize s) i (length q)) q) s' /\
    processed (batch_size (txnSize s) i (length q)) w s s'.
Proof.
  induction fuel as [| fuel IH]; intros i q s NT TA Hf.
  - destruct q; [| simpl in Hf; lia]. simpl. mrun.
    rewrite andb_false_r. exists s, []. unfold batch_size.
    rewrite Nat.min_0_r. split; [reflexivity | apply processed_0].
  - rewrite flushSome_loop_S.
    destruct (Z.ltb_spec i (txnSize s)) as [Hi | Hi]; simpl.
    + destruct q as [| key q']; cbn [negb length].
      * exists s, []. unfold batch_size. rewrite Nat.min_0_r.
        split; [reflexivity | apply processed_0].
      * destruct (flushOne_ok key q' s NT TA) as (s1 & w1 & E1 & P1).
        rewrite (bind_done _ _ _ _ _ E1).
        destruct (IH (i + 1) q' s1 NT TA) as (s2 & w2 & E2 & P2);
          [simpl in Hf; lia |].
        rewrite (pr_txn _ _ _ _ P1) in E2, P2.
        assert (B : batch_size (txnSize s) i (S (length q')) =
                    S (batch_size (txnSize s) (i + 1) (length q'))).
        { unfold batch_size.
          replace (Z.to_nat (txnSize s - i))
            with (S (Z.to_nat (txnSize s - (i + 1)))) by lia.
          now rewrite <- Nat.succ_min_distr. }
        rewrite B. simpl. exists s2, (w1 ++ w2). split; [exact E2 |].
        apply (processed_trans 1 _ w1 w2 s s1 s2 P1 P2).
    + exists s, []. unfold batch_size.
      replace (Z.to_nat (txnSize s - i)) with 0%nat by lia. simpl.
      rewrite drop_0. split; [reflexivity | apply processed_0].
Qed.

Lemma flushSome_ok fuel q s :
  no_throw -> asserts_hold -> (length q <= fuel)%nat ->
  exists s' w,
    flushSome hash underlying timing_asserts fuel q s =
    Done (drop (batch_size (txnSize s) 0 (length q)) q) s' /\
    kvlog s' = kvlog s ++ transaction w /\
    Forall is_write w /\
    (length w <= batch_size (txnSize s) 0 (length q))%nat /\
    txnSize s' = txnSize s /\ towrite s' = towrite s /\
    flusher_todo (stats s') =
    flusher_todo (stats s) -
    Z.of_nat (batch_size (txnSize s) 0 (length q)).
Proof.
  intros NT TA Hf. unfold flushSome.
  rewrite (bind_done _ _ _ _ _ (kv_call_ok KvBegin s NT)).
  destruct (flushSome_loop_ok fuel 0 q (logged s KvBegin) NT TA Hf)
    as (s1 & w & E1 & [L W C T Q D]).
  simpl in *. rewrite (bind_done _ _ _ _ _ E1).
  rewrite (bind_done _ _ _ _ _ (kv_call_ok KvCommit s1 NT)).
  exists (logged s1 KvCommit), w. split; [reflexivity |]. simpl.
  repeat split; auto.
  rewrite L. unfold transaction. now rewrite <- !app_assoc.
Qed.

Lemma num_batches_step txn len :
  (0 < txn)%nat -> (0 < len)%nat ->
  num_batches txn len = S (num_batches txn (len - Nat.min txn len)).
Proof.
  intros Ht Hl. unfold num_batches.
  destruct (Nat.le_gt_cases len txn) as [H | H].
  - rewrite Nat.min_r by exact H.
    replace (len - len + txn - 1)%nat with (txn - 1)%nat by lia.
    rewrite (Nat.div_small (txn - 1) txn) by lia.
    replace (len + txn - 1)%nat with ((len - 1) + 1 * txn)%nat by lia.
    rewrite Nat.div_add by lia. rewrite Nat.div_small by lia. reflexivity.
  - rewrite Nat.min_l by lia.
    replace (len + txn - 1)%nat with ((len - txn + txn - 1) + 1 * txn)%nat
      by lia.
    rewrite Nat.div_add by lia. lia.
Qed.

Lemma flush_loop_ok fuel : forall q s,
  no_throw -> asserts_hold -> 0 < txnSize s -> (length q <= fuel)%nat ->
  exists s' batches,
    flush_loop hash underlying timing_asserts fuel q s = Done tt s' /\
    kvlog s' = kvlog s ++ concat (List.map transaction batches) /\
    Forall (fun b => Forall is_write b /\
                     Z.of_nat (length b) <= txnSize s) batches /\
    length batches = num_batches (Z.to_nat (txnSize s)) (length q) /\
    txnSize s' = txnSize s /\ towrite s' = towrite s /\
    flusher_todo (stats s') = flusher_todo (stats s) - Z.of_nat (length q).
Proof.
  induction fuel as [| fuel IH]; intros q s NT TA Ht Hf.
  - destruct q; [| simpl in Hf; lia]. simpl. exists s, [].
    simpl. rewrite app_nil_r. unfold num_batches. simpl.
    repeat split; auto; try lia.
    rewrite Nat.div_small by lia. reflexivity.
  - destruct q as [| k q].
    + simpl. exists s, []. simpl. rewrite app_nil_r. unfold num_batches.
      simpl. repeat split; auto; try lia.
      rewrite Nat.div_small by lia. reflexivity.
    + cbn [flush_loop].
      destruct (flushSome_ok (S fuel) (k :: q) s NT TA Hf)
        as (s1 & w & E1 & L1 & W1 & C1 & T1 & Q1 & D1).
      rewrite (bind_done _ _ _ _ _ E1).
      set (n := batch_size (txnSize s) 0 (length (k :: q))) in *.
      assert (Hn : n = Nat.min (Z.to_nat (txnSize s)) (length (k :: q))).
      { unfold n, batch_size. now rewrite Z.sub_0_r. }
      clearbody n.
      assert (Hn1 : (1 <= n)%nat) by (rewrite Hn; simpl; lia).
      destruct (IH (drop n (k :: q)) s1 NT TA) as
          (s2 & bs & E2 & L2 & W2 & C2 & T2 & Q2 & D2).
      * lia.
      * rewrite length_drop. simpl in Hf. simpl. clear - Hf Hn1. lia.
      * exists s2, (w :: bs). split; [exact E2 |].
        rewrite length_drop in *. rewrite T1 in *.
        repeat split.
        -- rewrite L2, L1. cbn [List.map concat]. symmetry. apply app_assoc.
        -- constructor; [| exact W2]. split; [exact W1 |]. lia.
        -- cbn [length] in *. rewrite C2.
           rewrite (num_batches_step (Z.to_nat (txnSize s))
                                     (S (length q))) by lia.
           now rewrite <- Hn.
        -- congruence.
        -- congruence.
        -- rewrite D2, D1. lia.
Qed.

End WithEnvironment.

(** ** Concrete stores *)

(** The store the constructor returns for a table of 5 buckets and 1 lock
    and a transaction size of 10. *)
Definition fresh_store : Store :=
  mkStore (make 5 1) (Some []) zero_stats RUNNING 10 true 0 [] 1.

Lemma construct_fresh_store :
  construct 0 10 true 5 1 true = Done tt fresh_store.
Proof. reflexivity. Qed.

(** A clock and time stamps under which the assertions of [flushOne] hold. *)
Definition clock_ok : list kvop -> StoredValue -> bool := fun _ _ => true.

(** A persistence layer that never fails, and one whose [commit] throws. *)
Definition kv_ok : KVStore := fun _ _ => KvOk.
Definition kv_commit_throws : KVStore :=
  fun _ op => match op with KvCommit => KvThrows | _ => KvOk end.

(** The store a run ends in (a run stopped by the loop bound of the model
    has none; [fresh_store] stands in). *)
Definition store_after {A} (r : result A) : Store :=
  match r with
  | Done _ s | Threw s | Aborted s | Waiting s => s
  | OutOfFuel => fresh_store
  end.

Definition k1_v1 : Item := mkItem "k1"%string 0 0 "v1"%string.
Definition k1_v2 : Item := mkItem "k1"%string 0 0 "v2"%string.

(** C3, as stated, fails for [del]: after [set k1] the slot of "k1" is
    dirty and the key is queued once; [del k1] appends the key again. *)
Lemma C3_del_requeues_a_dirty_key :
  let s1 := store_after (set length_hash k1_v1 true fresh_store) in
  let s2 := store_after (del length_hash "k1"%string s1) in
  (isDirty <$> find length_hash "k1"%string true (storage s1)) = Some true /\
  towrite s1 = Some ["k1"%string] /\
  del length_hash "k1"%string s1 = Done [true] s2 /\
  towrite s2 = Some ["k1"%string; "k1"%string].
Proof. vm_compute. repeat split. Qed.

(** C3, amended: [set] appends the key to the dirty queue only on a
    clean-to-dirty transition (the slot was clean, or absent and could be
    allocated) and never when the slot was already dirty; [del] appends
    the key whenever the key existed, whether or not its slot was already
    dirty, and never when it did not exist. *)
Theorem C3_set_enqueues_clean_del_enqueues_existing :
  forall (hash : string -> nat) (s : Store) (q : list string),
    towrite s = Some q ->
    (forall item mem_ok,
        exists s',
          set hash item mem_ok s = Done [true] s' /\
          towrite s' =
          Some (match unlocked_find (item_key item)
                        (bucket hash (storage s) (item_key item)) true
                        (storage s) with
                | Some v => if isDirty v then q else q ++ [item_key item]
                | None => if mem_ok then q ++ [item_key item] else q
                end)) /\
    (forall key,
        exists s',
          del hash key s =
          Done [match unlocked_find key (bucket hash (storage s) key) true
                        (storage s) with
                | Some _ => true
                | None => false
                end] s' /\
          towrite s' =
          Some (match unlocked_find key (bucket hash (storage s) key) true
                        (storage s) with
                | Some _ => q ++ [key]
                | None => q
                end)).
Proof.
  intros hash s q Hq. split.
  - intros item mem_ok. eexists.
    split; [apply (set_eq hash item mem_ok s q Hq) |].
    cbv zeta. rewrite HashTable_set_result.
    destruct (unlocked_find _ _ true (storage s)) as [v |].
    + destruct (isDirty v); simpl; [exact Hq | reflexivity].
    + destruct mem_ok; simpl; [reflexivity | exact Hq].
  - intros key. rewrite (del_eq hash key s q Hq). cbv zeta.
    rewrite HashTable_del_result.
    destruct (unlocked_find _ _ true (storage s)) as [v |];
      eexists; (split; [reflexivity |]); simpl; [reflexivity | exact Hq].
Qed.

Lemma C3_set_del_witness :
  towrite fresh_store = Some [] /\
  (exists s',
      set length_hash k1_v1 true fresh_store = Done [true] s' /\
      towrite s' = Some ["k1"%string]) /\
  (exists s',
      del length_hash "k1"%string fresh_store = Done [false] s' /\
      towrite s' = Some []).
Proof.
  split; [reflexivity |].
  destruct (C3_set_enqueues_clean_del_enqueues_existing
              length_hash fresh_store [] eq_refl) as [HS HD].
  split; [exact (HS k1_v1 true) | exact (HD "k1"%string)].
Defined.


(** C10: [EventuallyPersistentStore::set] invokes its callback exactly once,
    with [true], for every item: whatever [storage.set] returns (the
    failed allocation [NOMEM] included), and so whether or not the table
    could allocate a slot. *)
Theorem C10_set_callback_is_always_true :
  forall (hash : string -> nat) (s : Store) (q : list string) (item : Item),
    towrite s = Some q ->
    (forall mtype, exists s', set_enqueue mtype item s = Done [true] s') /\
    (forall mem_ok, exists s', set hash item mem_ok s = Done [true] s') /\
    (exists s', set hash item false s = Done [true] s' /\
                (find hash (item_key item) true (storage s) = None ->
                 storage s' = storage s /\ towrite s' = Some q)).
Proof.
  intros hash s q item Hq. split; [| split].
  - intros mtype. rewrite (set_enqueue_eq mtype item s q Hq). eauto.
  - intros mem_ok. rewrite (set_eq hash item mem_ok s q Hq). eauto.
  - rewrite (set_eq hash item false s q Hq). cbv zeta.
    eexists. split; [reflexivity |]. intros F.
    unfold HashTable.set. unfold find in F. rewrite F. simpl. auto.
Qed.

Lemma C10_set_callback_witness :
  towrite fresh_store = Some [] /\
  (forall mtype,
      exists s', set_enqueue mtype k1_v1 fresh_store = Done [true] s') /\
  (forall mem_ok,
      exists s', set length_hash k1_v1 mem_ok fresh_store = Done [true] s') /\
  (exists s', set length_hash k1_v1 false fresh_store = Done [true] s' /\
              (find length_hash (item_key k1_v1) true (storage fresh_store)
               = None ->
               storage s' = storage fresh_store /\ towrite s' = Some [])).
Proof.
  split; [reflexivity |].
  exact (C10_set_callback_is_always_true length_hash fresh_store [] k1_v1
                                         eq_refl).
Defined.

(** C9: when [flushOne] pops a key whose slot is found but not dirty, it
    issues no persistence operation, drops the queue entry and leaves the
    table as it is (the only change to the store is the [flusher_todo]
    counter). *)
Theorem C9_clean_slot_is_skipped :
  forall (hash : string -> nat) (underlying : KVStore)
         (timing_asserts : list kvop -> StoredValue -> bool) (key : string)
         (q' : list string) (s : Store) (v : StoredValue),
    unlocked_find key (bucket hash (storage s) key) false (storage s)
    = Some v ->
    isDirty v = false ->
    exists s',
      flushOne hash underlying timing_asserts (key :: q') s = Done q' s' /\
      kvlog s' = kvlog s /\
      storage s' = storage s /\
      towrite s' = towrite s /\
      s' = with_stats s (mkStats (queue_size (stats s))
                                 (flusher_todo (stats s) - 1)).
Proof.
  intros hash underlying timing_asserts key q' s v F D.
  rewrite flushOne_eq. unfold resolve, assert_fails. rewrite F, D. simpl.
  eexists. split; [reflexivity |]. unfold popped. simpl.
  repeat split.
Qed.

(** The store after [set k1], a flush cycle, and a second [set k1]: "k1"
    is queued; once the flusher has written it, the slot is clean. *)
Definition k1_flushed : Store :=
  store_after ((set length_hash k1_v1 true ;;;
                flush length_hash kv_ok clock_ok 1 false) fresh_store).

Lemma C9_clean_slot_witness :
  exists s',
    flushOne length_hash kv_ok clock_ok ("k1"%string :: []) k1_flushed
    = Done [] s' /\
    kvlog s' = kvlog k1_flushed /\
    storage s' = storage k1_flushed /\
    towrite s' = towrite k1_flushed /\
    s' = with_stats k1_flushed
                    (mkStats (queue_size (stats k1_flushed))
                             (flusher_todo (stats k1_flushed) - 1)).
Proof.
  apply (C9_clean_slot_is_skipped
           length_hash kv_ok clock_ok "k1"%string [] k1_flushed
           (mkStoredValue "k1"%string 0 0 "v1"%string false false));
    reflexivity.
Defined.

(** Three dirty keys in a store with a transaction size of 2. *)
Definition three_dirty : Store :=
  store_after
    ((set length_hash (mkItem "a"%string 0 0 "1"%string) true ;;;
      set length_hash (mkItem "bb"%string 0 0 "2"%string) true ;;;
      set length_hash (mkItem "ccc"%string 0 0 "3"%string) true)
       (store_after (construct 0 2 true 5 1 true))).

(** The calls of that cycle: two transactions, of two writes and of one. *)
Example three_dirty_flush_log :
  kvlog (store_after (flush length_hash kv_ok clock_ok 3 false three_dirty)) =
  [ KvBegin; KvSet (mkItem "a"%string 0 0 "1"%string);
    KvSet (mkItem "bb"%string 0 0 "2"%string); KvCommit;
    KvBegin; KvSet (mkItem "ccc"%string 0 0 "3"%string); KvCommit ].
Proof. reflexivity. Qed.

(** With a [txnSize] of 0 the loop of [flush] makes no progress: every
    round is an empty transaction, and whatever the fuel the model stops
    on its loop bound. *)
Definition zero_txn_store : Store :=
  store_after (set length_hash k1_v1 true
                   (store_after (construct 0 0 true 5 1 true))).

Lemma zero_txnSize_round fuel s :
  txnSize s = 0 ->
  flushSome length_hash kv_ok clock_ok fuel ["k1"%string] s =
  Done ["k1"%string] (logged (logged s KvBegin) KvCommit).
Proof.
  intros T. unfold flushSome.
  assert (NT : no_throw kv_ok) by (intros ? ?; discriminate).
  rewrite (bind_done _ _ _ _ _ (kv_call_ok kv_ok KvBegin s NT)).
  assert (E : flushSome_loop length_hash kv_ok clock_ok fuel 0 ["k1"%string]
                             (logged s KvBegin)
              = Done ["k1"%string] (logged s KvBegin)).
  { destruct fuel; cbn [flushSome_loop]; unfold bind, get_store, ret; simpl;
      now rewrite T. }
  rewrite (bind_done _ _ _ _ _ E).
  now rewrite (bind_done _ _ _ _ _ (kv_call_ok kv_ok KvCommit _ NT)).
Qed.

Lemma zero_txnSize_loop fuel : forall s,
  txnSize s = 0 ->
  flush_loop length_hash kv_ok clock_ok fuel ["k1"%string] s = OutOfFuel.
Proof.
  induction fuel as [| fuel IH]; intros s T; [reflexivity |].
  cbn [flush_loop].
  rewrite (bind_done _ _ _ _ _ (zero_txnSize_round (S fuel) s T)).
  now apply IH.
Qed.

Example zero_txnSize_does_not_drain :
  towrite zero_txn_store = Some ["k1"%string] /\
  txnSize zero_txn_store = 0 /\
  forall fuel shouldWait,
    flush length_hash kv_ok clock_ok fuel shouldWait zero_txn_store = OutOfFuel.
Proof.
  split; [reflexivity |]. split; [reflexivity |].
  intros fuel w. rewrite flush_eq. simpl towrite. cbv iota.
  now apply zero_txnSize_loop.
Qed.


(** ** A persistence layer that throws *)

(** Where a flush cycle that threw has left the store. *)
Lemma flush_threw hash underlying timing_asserts fuel w s s' :
  flush hash underlying timing_asserts fuel w s = Threw s' ->
  exists k q,
    towrite s = Some (k :: q) /\
    cycle_inv hash (swapped s (length (k :: q))) s'.
Proof.
  intros E. pose proof E as E'. rewrite flush_eq in E'.
  destruct (towrite s) as [[| k q] |] eqn:Hq; try discriminate;
    [now destruct w |].
  exists k, q. split; [reflexivity |].
  pose proof (flush_inv hash underlying timing_asserts fuel w s k q Hq) as H.
  now rewrite E in H.
Qed.

(** What a flush cycle issues, however it ends and whatever the persistence
    layer does, is decided by the table at the time of the flush. *)
Lemma flush_issues_current_state hash underlying timing_asserts fuel w s s' :
  final_store (flush hash underlying timing_asserts fuel w s) = Some s' ->
  exists ops,
    issued s s' = ops /\
    Forall (justified hash (storage s) (storage s')) ops /\
    NoDup (set_keys ops).
Proof.
  intros E. rewrite flush_eq in E.
  destruct (towrite s) as [[| k q] |] eqn:Hq.
  - assert (s' = s) as -> by (destruct w; now injection E).
    exists []. unfold issued. rewrite drop_all.
    repeat split; constructor.
  - pose proof (flush_loop_inv hash underlying timing_asserts
                  (swapped s (length (k :: q))) fuel (k :: q) _
                  (cycle_inv_refl hash _)) as H.
    apply (final_store_ends_in _ _ _ H) in E.
    destruct E as [_ _ _ _ _ (ops & L & J & N)]. simpl in *.
    exists ops. split; [now apply issued_app | auto].
  - injection E as <-. exists []. unfold issued. rewrite drop_all.
    repeat split; constructor.
Qed.

(** C1, as stated, fails: "k1" is set and queued, and the [commit] of the
    flush cycle throws.  The exception reaches the thread function, which
    swallows it; but the slot of "k1" was marked clean before the write,
    the dirty queue is empty, and the next flush cycle, over a persistence
    layer that works, delivers nothing. *)
Lemma C1_failed_commit_is_not_retried :
  let s1 := store_after (set length_hash k1_v1 true fresh_store) in
  let s2 := store_after
              (flush length_hash kv_commit_throws clock_ok 1 false s1) in
  flush length_hash kv_commit_throws clock_ok 1 false s1 = Threw s2 /\
  launch_flusher_thread
    (flush length_hash kv_commit_throws clock_ok 1 false) s1
  = Done tt s2 /\
  kvlog s2 = [KvBegin; KvSet k1_v1; KvCommit] /\
  (isDirty <$> find length_hash "k1"%string false (storage s2)) = Some false /\
  towrite s2 = Some [] /\
  flush length_hash kv_ok clock_ok 1 false s2 = Done tt s2.
Proof. vm_compute. repeat split. Qed.

(** C1, amended: an exception thrown by the persistence layer during a
    flush cycle propagates out of [flush] and is caught at the flusher
    thread boundary ([launch_flusher_thread] never throws and hands the
    store on as the cycle left it).  The keys of the failed cycle are not
    retried: every key whose [set] was issued has been marked clean, the
    dirty queue of the store is the fresh empty one, and the next [flush],
    whatever the persistence layer then does, finds that queue empty: it
    starts no cycle and issues no call; with [shouldWait] false it returns
    and with [shouldWait] true it blocks in [mutex.wait()]. *)
Theorem C1_exception_caught_keys_not_retried :
  forall (hash : string -> nat) (underlying : KVStore)
         (timing_asserts : list kvop -> StoredValue -> bool),
    (forall (run : M unit) s s', launch_flusher_thread run s <> Threw s') /\
    (forall (run : M unit) s s',
        run s = Threw s' -> launch_flusher_thread run s = Done tt s') /\
    (forall fuel shouldWait s s',
        flush hash underlying timing_asserts fuel shouldWait s = Threw s' ->
        launch_flusher_thread
          (flush hash underlying timing_asserts fuel shouldWait) s
        = Done tt s' /\
        flusherState s' = flusherState s /\
        towrite s' = Some [] /\
        (forall i, KvSet i ∈ issued s s' ->
                   exists v, find hash (item_key i) false (storage s')
                             = Some v /\ isDirty v = false) /\
        (forall underlying' timing_asserts' fuel' shouldWait',
            flush hash underlying' timing_asserts' fuel' shouldWait' s'
            = if shouldWait' then Waiting s' else Done tt s')) /\
    (forall fuel shouldWait s s',
        final_store (flush hash underlying timing_asserts fuel shouldWait s)
        = Some s' ->
        forall i, KvSet i ∈ issued s s' ->
                  exists v, find hash (item_key i) false (storage s')
                            = Some v /\ isDirty v = false).
Proof.
  intros hash underlying timing_asserts. split; [| split; [| split]].
  - intros run s s'. unfold launch_flusher_thread, try_catch_all.
    destruct (run s); discriminate.
  - intros run s s' E. unfold launch_flusher_thread, try_catch_all.
    now rewrite E.
  - intros fuel w s s' E.
    destruct (flush_threw _ _ _ _ _ _ _ E) as (k & q & Hq & Inv).
    destruct Inv as [F T C W Tb (ops & L & J & N)]. simpl in *.
    split; [unfold launch_flusher_thread, try_catch_all; now rewrite E |].
    split; [exact F |]. split; [exact W |]. split.
    + intros i Hi. rewrite (issued_app s s' ops L) in Hi.
      rewrite Forall_forall in J. specialize (J _ Hi). simpl in J.
      destruct J as (v & _ & _ & _ & G). eauto.
    + intros und' ta' fuel' w'. rewrite flush_eq, W. reflexivity.
  - intros fuel w s s' E i Hi.
    destruct (flush_issues_current_state _ _ _ _ _ _ _ E) as (ops & <- & J & _).
    rewrite Forall_forall in J. specialize (J _ Hi). simpl in J.
    destruct J as (v & _ & _ & _ & G). eauto.
Qed.

Lemma C1_exception_caught_witness :
  let s1 := store_after (set length_hash k1_v1 true fresh_store) in
  let s2 := store_after
              (flush length_hash kv_commit_throws clock_ok 1 false s1) in
  launch_flusher_thread (flush length_hash kv_commit_throws clock_ok 1 false) s1
  = Done tt s2 /\
  flusherState s2 = flusherState s1 /\
  towrite s2 = Some [] /\
  (forall i, KvSet i ∈ issued s1 s2 ->
             exists v, find length_hash (item_key i) false (storage s2)
                       = Some v /\ isDirty v = false) /\
  (forall underlying' timing_asserts' fuel' shouldWait',
      flush length_hash underlying' timing_asserts' fuel' shouldWait' s2
      = if shouldWait' then Waiting s2 else Done tt s2).
Proof.
  cbv zeta.
  destruct (C1_exception_caught_keys_not_retried
              length_hash kv_commit_throws clock_ok)
    as (_ & _ & H & _).
  apply (H 1%nat false). vm_compute. reflexivity.
Defined.


(** A [commit] that returns a failure instead of throwing is not noticed:
    [flushSome] ignores what [commit] returns, the cycle completes, and
    the key is clean. *)
Definition kv_commit_fails : KVStore :=
  fun _ op => match op with KvCommit => KvFailed | _ => KvOk end.

Example commit_failure_return_is_ignored :
  let s1 := store_after (set length_hash k1_v1 true fresh_store) in
  let s2 := store_after
              (flush length_hash kv_commit_fails clock_ok 1 false s1) in
  flush length_hash kv_commit_fails clock_ok 1 false s1 = Done tt s2 /\
  (isDirty <$> find length_hash "k1"%string false (storage s2)) = Some false /\
  towrite s2 = Some [].
Proof. vm_compute. repeat split. Qed.

(** ** The flusher life cycle *)

(** The edges of the cycle Stopped, Running, ShuttingDown, Stopped. *)
Definition lifecycle_edge (a b : flusher_state) : Prop :=
  (a = STOPPED /\ b = RUNNING) \/
  (a = RUNNING /\ b = SHUTTING_DOWN) \/
  (a = SHUTTING_DOWN /\ b = STOPPED).

(** The calls that are not about the life cycle. *)
Definition lifecycle_call (o : store_op) : bool :=
  match o with
  | CallStartFlusher _ | CallStopFlusher | CallFlusherStopped => true
  | _ => false
  end.

(** The flusher state and the threads created are those of [s0]. *)
Definition same_lifecycle (s0 s : Store) : Prop :=
  flusherState s = flusherState s0 /\
  threads_created s = threads_created s0.

Section Lifecycle.

Variable hash : string -> nat.
Variable underlying : KVStore.
Variable timing_asserts : list kvop -> StoredValue -> bool.

Lemma same_lifecycle_refl s : same_lifecycle s s.
Proof. split; reflexivity. Qed.

Lemma kv_call_same s0 op s :
  same_lifecycle s0 s ->
  ends_in (kv_call underlying op s) (same_lifecycle s0).
Proof.
  intros H. rewrite kv_call_eq. now destruct (underlying (kvlog s) op).
Qed.

Lemma queueDirty_same s0 key s :
  same_lifecycle s0 s -> ends_in (queueDirty key s) (same_lifecycle s0).
Proof.
  intros H. unfold queueDirty. mrun. now destruct (towrite s).
Qed.

Lemma initQueue_same s0 s :
  same_lifecycle s0 s -> ends_in (initQueue s) (same_lifecycle s0).
Proof.
  intros H. unfold initQueue. mrun. now destruct (towrite s).
Qed.

Lemma set_same s0 item mem_ok s :
  same_lifecycle s0 s ->
  ends_in (set hash item mem_ok s) (same_lifecycle s0).
Proof.
  intros H. unfold set. mrun.
  destruct (HashTable.set hash item mem_ok (storage s)) as [mtype h].
  unfold set_enqueue. mrun. simpl.
  pose proof (queueDirty_same s0 (item_key item) (with_storage s h) H) as Q.
  destruct mtype; simpl; try exact H;
    destruct (queueDirty (item_key item) (with_storage s h)); exact Q.
Qed.

Lemma del_same s0 key s :
  same_lifecycle s0 s -> ends_in (del hash key s) (same_lifecycle s0).
Proof.
  intros H. unfold del. mrun.
  destruct (HashTable.del hash key (storage s)) as [existed h]. simpl.
  destruct existed; [| exact H].
  pose proof (queueDirty_same s0 key (with_storage s h) H) as Q.
  destruct (queueDirty key (with_storage s h)); exact Q.
Qed.

Lemma get_same s0 key s :
  same_lifecycle s0 s -> ends_in (get hash key s) (same_lifecycle s0).
Proof.
  intros H. unfold get. mrun. now destruct (unlocked_find _ _ _ _).
Qed.

Lemma flush_same s0 fuel w s :
  same_lifecycle s0 s ->
  ends_in (flush hash underlying timing_asserts fuel w s) (same_lifecycle s0).
Proof.
  intros [F T]. rewrite flush_eq.
  destruct (towrite s) as [[| k q] |]; simpl; try (split; assumption);
    [destruct w; split; assumption |].
  eapply ends_in_weaken;
    [apply (flush_loop_inv hash underlying timing_asserts
                           (swapped s (length (k :: q)))
                           fuel (k :: q) _ (cycle_inv_refl hash _)) |].
  intros s' [F' _ T' _ _ _]. simpl in *. split; congruence.
Qed.

Lemma reset_same s0 fuel s :
  same_lifecycle s0 s ->
  ends_in (reset hash underlying timing_asserts fuel s) (same_lifecycle s0).
Proof.
  intros H. unfold reset.
  apply ends_in_bind; [now apply flush_same |]. intros [] s1 E1.
  assert (H1 : same_lifecycle s0 s1).
  { pose proof (flush_same s0 fuel false s H) as X. now rewrite E1 in X. }
  apply ends_in_bind; [now apply kv_call_same |]. intros [] s2 E2.
  assert (H2 : same_lifecycle s0 s2).
  { pose proof (kv_call_same s0 KvReset s1 H1) as X. now rewrite E2 in X. }
  mrun.
  pose proof (initQueue_same s0 (with_stats (with_towrite s2 None) zero_stats)
                             H2) as Q.
  destruct (initQueue (with_stats (with_towrite s2 None) zero_stats));
    exact Q.
Qed.

(** Only the three life-cycle functions touch the flusher state or create
    a thread. *)
Lemma call_same o s :
  lifecycle_call o = false ->
  ends_in (call hash underlying timing_asserts o s) (same_lifecycle s).
Proof.
  pose proof (same_lifecycle_refl s) as R.
  destruct o; simpl; try discriminate; intros _; unfold discard.
  - apply ends_in_bind; [now apply set_same |]. intros a s' E.
    pose proof (set_same s item mem_ok s R) as X. now rewrite E in X.
  - apply ends_in_bind; [now apply del_same |]. intros a s' E.
    pose proof (del_same s key s R) as X. now rewrite E in X.
  - apply ends_in_bind; [now apply get_same |]. intros a s' E.
    pose proof (get_same s key s R) as X. now rewrite E in X.
  - exact R.
  - now apply flush_same.
  - now apply reset_same.
Qed.

Lemma startFlusher_eq ok s :
  startFlusher ok s =
  match flusherState s with
  | STOPPED =>
      if ok
      then Done tt (with_flusherState
                      (with_threads s (S (threads_created s))) RUNNING)
      else Threw s
  | _ => Done tt s
  end.
Proof.
  unfold startFlusher. mrun. destruct (flusherState s); try reflexivity.
  now destruct ok.
Qed.

Lemma stopFlusher_eq s :
  stopFlusher s =
  match flusherState s with
  | RUNNING => Done tt (with_flusherState s SHUTTING_DOWN)
  | _ => Done tt s
  end.
Proof. unfold stopFlusher. mrun. now destruct (flusherState s). Qed.

(** Whether a call is [flusherStopped]. *)
Lemma is_flusherStopped_dec (o : store_op) :
  {o = CallFlusherStopped} + {o <> CallFlusherStopped}.
Proof. destruct o; (now left) || (right; discriminate). Qed.

(** What a call other than [flusherStopped] does to the flusher state and
    the thread count. *)
Lemma call_lifecycle o s s' :
  o <> CallFlusherStopped ->
  final_store (call hash underlying timing_asserts o s) = Some s' ->
  (same_lifecycle s s') \/
  (o = CallStartFlusher true /\ flusherState s = STOPPED /\
   flusherState s' = RUNNING /\
   threads_created s' = S (threads_created s)) \/
  (o = CallStopFlusher /\ flusherState s = RUNNING /\
   flusherState s' = SHUTTING_DOWN /\
   threads_created s' = threads_created s).
Proof.
  intros Ne E.
  destruct (lifecycle_call o) eqn:L.
  - destruct o; try discriminate; try congruence; simpl in E.
    + rewrite startFlusher_eq in E.
      destruct (flusherState s) eqn:F.
      * destruct spawn_ok; injection E as <-; simpl.
        -- right. left. auto.
        -- left. apply same_lifecycle_refl.
      * injection E as <-. left. apply same_lifecycle_refl.
      * injection E as <-. left. apply same_lifecycle_refl.
    + rewrite stopFlusher_eq in E.
      destruct (flusherState s) eqn:F; injection E as <-; simpl.
      * left. apply same_lifecycle_refl.
      * right. right. auto.
      * left. apply same_lifecycle_refl.
  - left. eapply final_store_ends_in; [apply call_same, L | exact E].
Qed.

End Lifecycle.

(** C4, as stated, fails: [flusherStopped] is not guarded.  On the store
    the constructor returns, whose flusher is Running, it sets the state to
    Stopped, which is no edge of the cycle: the worker was never asked to
    shut down.  [startFlusher] then finds the state Stopped and creates a
    second thread. *)
Lemma C4_flusherStopped_is_not_guarded :
  let s1 := store_after
              (call length_hash kv_ok clock_ok CallFlusherStopped
                    fresh_store) in
  let s2 := store_after (startFlusher true s1) in
  construct 0 10 true 5 1 true = Done tt fresh_store /\
  flusherState fresh_store = RUNNING /\
  call length_hash kv_ok clock_ok CallFlusherStopped fresh_store
  = Done tt s1 /\
  flusherState s1 = STOPPED /\
  ~ lifecycle_edge (flusherState fresh_store) (flusherState s1) /\
  threads_created s1 = 1%nat /\
  startFlusher true s1 = Done tt s2 /\
  flusherState s2 = RUNNING /\
  threads_created s2 = 2%nat.
Proof.
  cbv zeta. repeat split.
  intros [[H _] | [[_ H] | [H _]]]; discriminate.
Qed.

(** C4, amended: [startFlusher] creates the worker thread and moves the
    state to Running when the state is Stopped (and throws, leaving the
    state Stopped, if the thread cannot be created); from any other state
    it is a no-op.  [stopFlusher] moves the state to ShuttingDown from
    Running and is a no-op otherwise.  [flusherStopped] sets the state to
    Stopped from whatever state it is called in, and no other call of the
    store makes a state that was not Stopped become Stopped, nor does any
    call but [startFlusher] from Stopped create a thread.  So a call keeps
    the state or follows one edge of the cycle Stopped, Running,
    ShuttingDown, Stopped, provided that, if it is [flusherStopped], the
    state is ShuttingDown; [flusherStopped] called in the state Running
    leaves the cycle. *)
Theorem C4_flusher_lifecycle_cycle :
  forall (hash : string -> nat) (underlying : KVStore)
         (timing_asserts : list kvop -> StoredValue -> bool),
    (forall s, flusherState s = STOPPED ->
               startFlusher true s =
               Done tt (with_flusherState
                          (with_threads s (S (threads_created s))) RUNNING) /\
               startFlusher false s = Threw s) /\
    (forall s ok, flusherState s <> STOPPED -> startFlusher ok s = Done tt s) /\
    (forall s, flusherState s = RUNNING ->
               stopFlusher s = Done tt (with_flusherState s SHUTTING_DOWN)) /\
    (forall s, flusherState s <> RUNNING -> stopFlusher s = Done tt s) /\
    (forall s, flusherStopped s = Done tt (with_flusherState s STOPPED)) /\
    (forall o s s',
        o <> CallFlusherStopped ->
        final_store (call hash underlying timing_asserts o s) = Some s' ->
        (flusherState s' = STOPPED -> flusherState s = STOPPED) /\
        (threads_created s' <> threads_created s ->
         o = CallStartFlusher true /\ flusherState s = STOPPED)) /\
    (forall o s s',
        final_store (call hash underlying timing_asserts o s) = Some s' ->
        (o = CallFlusherStopped -> flusherState s = SHUTTING_DOWN) ->
        flusherState s' = flusherState s \/
        lifecycle_edge (flusherState s) (flusherState s')) /\
    (forall s s',
        flusherState s = RUNNING ->
        final_store (call hash underlying timing_asserts CallFlusherStopped s)
        = Some s' ->
        flusherState s' = STOPPED /\
        flusherState s' <> flusherState s /\
        ~ lifecycle_edge (flusherState s) (flusherState s')).
Proof.
  intros hash underlying timing_asserts.
  split; [| split; [| split; [| split; [| split; [| split; [| split]]]]]].
  - intros s F. rewrite !startFlusher_eq, F. auto.
  - intros s ok F. rewrite startFlusher_eq.
    destruct (flusherState s); congruence.
  - intros s F. now rewrite stopFlusher_eq, F.
  - intros s F. rewrite stopFlusher_eq.
    destruct (flusherState s); congruence.
  - reflexivity.
  - intros o s s' Ne E.
    destruct (call_lifecycle hash underlying timing_asserts o s s' Ne E)
      as [[F T] | [(-> & F & F' & T) | (-> & F & F' & T)]].
    + split; [congruence | intros X; congruence].
    + split; [congruence | auto].
    + split; [congruence | intros X; congruence].
  - intros o s s' E G.
    destruct (is_flusherStopped_dec o) as [-> | Ne].
    + injection E as <-. simpl. right. right. right.
      split; [now apply G | reflexivity].
    + destruct (call_lifecycle hash underlying timing_asserts o s s' Ne E)
        as [[F T] | [(-> & F & F' & T) | (-> & F & F' & T)]].
      * left. exact F.
      * right. left. auto.
      * right. right. left. auto.
  - intros s s' F E. injection E as <-. simpl. rewrite F.
    split; [reflexivity |]. split; [discriminate |].
    intros [[H _] | [[_ H] | [H _]]]; discriminate.
Qed.

(** The fresh store is Running; [stopFlusher] takes it one edge along the
    cycle. *)
Lemma C4_flusher_lifecycle_witness :
  flusherState (with_flusherState fresh_store SHUTTING_DOWN)
  = flusherState fresh_store \/
  lifecycle_edge (flusherState fresh_store)
                 (flusherState (with_flusherState fresh_store SHUTTING_DOWN)).
Proof.
  destruct (C4_flusher_lifecycle_cycle length_hash kv_ok clock_ok)
    as (_ & _ & _ & _ & _ & _ & H & _).
  apply (H CallStopFlusher fresh_store).
  - reflexivity.
  - discriminate.
Defined.


(** ** Several mutations of one key before a flush *)

Section Coalescing.

Variable hash : string -> nat.
Variable underlying : KVStore.
Variable timing_asserts : list kvop -> StoredValue -> bool.
Hypothesis NT : no_throw underlying.
Hypothesis TA : asserts_hold timing_asserts.

(** The store [flushOne] leaves for the key at the front of the queue. *)
Definition after_resolve (s : Store) (key : string) : Store :=
  match snd (resolve hash (storage s) key) with
  | None => popped s (fst (resolve hash (storage s) key))
  | Some op => logged (popped s (fst (resolve hash (storage s) key))) op
  end.

Lemma flushOne_nt key q' s :
  flushOne hash underlying timing_asserts (key :: q') s =
  Done q' (after_resolve s key).
Proof.
  rewrite flushOne_eq. unfold after_resolve. cbv zeta.
  rewrite (assert_fails_false hash timing_asserts s key TA).
  destruct (snd (resolve hash (storage s) key)) as [op |]; [| reflexivity].
  specialize (NT (kvlog s) op). now destruct (underlying (kvlog s) op).
Qed.

Lemma txnSize_after_resolve s key : txnSize (after_resolve s key) = txnSize s.
Proof.
  unfold after_resolve. now destruct (snd (resolve hash (storage s) key)).
Qed.

Lemma flushSome_loop_cons fuel i key q s :
  i < txnSize s ->
  flushSome_loop hash underlying timing_asserts (S fuel) i (key :: q) s =
  flushSome_loop hash underlying timing_asserts fuel (i + 1) q
                 (after_resolve s key).
Proof.
  intros Hi. rewrite flushSome_loop_S.
  apply Z.ltb_lt in Hi. rewrite Hi. cbn [andb negb].
  now rewrite (bind_done _ _ _ _ _ (flushOne_nt key q s)).
Qed.

Lemma flushSome_loop_stop fuel i q s :
  txnSize s <= i \/ q = [] ->
  flushSome_loop hash underlying timing_asserts fuel i q s = Done q s.
Proof.
  intros H.
  assert (C : (i <? txnSize s) &&
              negb (match q with [] => true | _ => false end) = false).
  { destruct H as [H | ->]; [| apply andb_false_r].
    apply Z.ltb_ge in H. now rewrite H. }
  destruct fuel; cbn [flushSome_loop]; unfold bind, get_store, ret;
    now rewrite C.
Qed.



Lemma flush_loop_cons fuel k q s :
  flush_loop hash underlying timing_asserts (S fuel) (k :: q) s =
  bind (flushSome hash underlying timing_asserts (S fuel) (k :: q))
       (flush_loop hash underlying timing_asserts fuel) s.
Proof. reflexivity. Qed.



Lemma item_of_slot i : item_of (item_key i) (slot_of_item i) = i.
Proof. now destruct i. Qed.



End Coalescing.




Lemma wf_fresh_store : wf length_hash (storage fresh_store).
Proof. apply wf_make. lia. Qed.


(** The first scenario on the fresh store: one [set], with the second
    value. *)
Example set_twice_delivers_second_value :
  let run := (set length_hash k1_v1 true ;;;
              set length_hash k1_v2 true ;;;
              flush length_hash kv_ok clock_ok 1 false) fresh_store in
  run = Done tt (store_after run) /\
  kvlog (store_after run) = [KvBegin; KvSet k1_v2; KvCommit].
Proof. vm_compute. split; reflexivity. Qed.


(** ** Stores reached from the constructor *)

(** The operation returns, throws or blocks, in a store that satisfies
    [P]; no assertion fails. *)
Definition ends_well {A} (r : result A) (P : Store -> Prop) : Prop :=
  match r with
  | Done _ s | Threw s | Waiting s => P s
  | Aborted _ => False
  | OutOfFuel => True
  end.

Lemma ends_well_bind {A B} (m : M A) (f : A -> M B) s (P : Store -> Prop) :
  ends_well (m s) P ->
  (forall a s', m s = Done a s' -> ends_well (f a s') P) ->
  ends_well (bind m f s) P.
Proof.
  intros Hm Hf. unfold bind. destruct (m s) as [a s' | s' | s' | s' |] eqn:E;
    simpl in *; auto.
Qed.

Lemma ends_well_done {A} (r : result A) (P : Store -> Prop) a s :
  ends_well r P -> r = Done a s -> P s.
Proof. intros H ->. exact H. Qed.

Section Reachable.

Variable hash : string -> nat.
Variable underlying : KVStore.
Variable timing_asserts : list kvop -> StoredValue -> bool.
Hypothesis TA : asserts_hold timing_asserts.

(** The dirty queue exists and the table is well formed. *)
Definition store_ok (s : Store) : Prop :=
  towrite s <> None /\ wf hash (storage s).

Lemma kv_call_well op s :
  store_ok s -> ends_well (kv_call underlying op s) store_ok.
Proof.
  intros H. rewrite kv_call_eq. now destruct (underlying (kvlog s) op).
Qed.

Lemma queueDirty_well key s :
  store_ok s -> ends_well (queueDirty key s) store_ok.
Proof.
  intros [Q W]. unfold queueDirty. mrun.
  destruct (towrite s) eqn:E; [| congruence].
  unfold store_ok. simpl. split; [discriminate | exact W].
Qed.

Lemma set_well item mem_ok s :
  store_ok s -> ends_well (set hash item mem_ok s) store_ok.
Proof.
  intros [Q W]. destruct (towrite s) as [q |] eqn:E; [| congruence].
  rewrite (set_eq hash item mem_ok s q E). cbv zeta.
  destruct (enqueues _); unfold store_ok; simpl;
    (split; [first [discriminate | congruence] | now apply wf_set]).
Qed.

Lemma del_well key s :
  store_ok s -> ends_well (del hash key s) store_ok.
Proof.
  intros [Q W]. destruct (towrite s) as [q |] eqn:E; [| congruence].
  rewrite (del_eq hash key s q E). cbv zeta.
  destruct (fst _); unfold store_ok; simpl;
    (split; [first [discriminate | congruence] | now apply wf_del]).
Qed.

Lemma resolve_wf h key : wf hash h -> wf hash (fst (resolve hash h key)).
Proof.
  intros W. unfold resolve.
  destruct (unlocked_find _ _ _ _) as [v |]; [| exact W].
  destruct (isDirty v); [now apply wf_markClean | exact W].
Qed.

Lemma flushOne_well key q' s :
  store_ok s ->
  ends_well (flushOne hash underlying timing_asserts (key :: q') s) store_ok.
Proof.
  intros [Q W]. rewrite flushOne_eq. cbv zeta.
  rewrite (assert_fails_false hash timing_asserts s key TA).
  pose proof (resolve_wf (storage s) key W) as W'.
  destruct (snd (resolve hash (storage s) key)) as [op |];
    [destruct (underlying (kvlog s) op) |]; simpl; split; assumption.
Qed.

Lemma flushSome_loop_well fuel : forall i q s,
  store_ok s ->
  ends_well (flushSome_loop hash underlying timing_asserts fuel i q s)
            store_ok.
Proof.
  induction fuel as [| fuel IH]; intros i q s H.
  - cbn [flushSome_loop]. unfold bind, get_store, ret, out_of_fuel.
    now destruct (_ && _).
  - rewrite flushSome_loop_S.
    destruct q as [| key q']; [now rewrite andb_false_r |].
    destruct (i <? txnSize s); [| exact H]. cbn [andb negb].
    apply ends_well_bind; [now apply flushOne_well |].
    intros q'' s' E. apply IH.
    exact (ends_well_done _ _ _ _ (flushOne_well key q' s H) E).
Qed.

Lemma flushSome_well fuel q s :
  store_ok s ->
  ends_well (flushSome hash underlying timing_asserts fuel q s) store_ok.
Proof.
  intros H. unfold flushSome.
  apply ends_well_bind; [now apply kv_call_well |]. intros [] s1 E1.
  pose proof (ends_well_done _ _ _ _ (kv_call_well KvBegin s H) E1) as H1.
  apply ends_well_bind; [now apply flushSome_loop_well |]. intros q' s2 E2.
  pose proof (ends_well_done _ _ _ _ (flushSome_loop_well fuel 0 q s1 H1) E2)
    as H2.
  apply ends_well_bind; [now apply kv_call_well |]. intros [] s3 E3.
  exact (ends_well_done _ _ _ _ (kv_call_well KvCommit s2 H2) E3).
Qed.

Lemma flush_loop_well fuel : forall q s,
  store_ok s ->
  ends_well (flush_loop hash underlying timing_asserts fuel q s) store_ok.
Proof.
  induction fuel as [| fuel IH]; intros q s H; destruct q as [| k q];
    simpl; try exact H; try exact I.
  apply ends_well_bind; [now apply flushSome_well |].
  intros q' s' E. apply IH.
  exact (ends_well_done _ _ _ _ (flushSome_well (S fuel) (k :: q) s H) E).
Qed.

Lemma flush_well fuel w s :
  store_ok s ->
  ends_well (flush hash underlying timing_asserts fuel w s) store_ok.
Proof.
  intros [Q W]. rewrite flush_eq.
  destruct (towrite s) as [[| k q] |] eqn:E; [| | congruence].
  - destruct w; simpl; (split; [congruence | exact W]).
  - apply flush_loop_well. split; [discriminate | exact W].
Qed.

Lemma reset_well fuel s :
  store_ok s ->
  ends_well (reset hash underlying timing_asserts fuel s) store_ok.
Proof.
  intros H. unfold reset.
  apply ends_well_bind; [now apply flush_well |]. intros [] s1 E1.
  pose proof (ends_well_done _ _ _ _ (flush_well fuel false s H) E1) as H1.
  apply ends_well_bind; [now apply kv_call_well |]. intros [] s2 E2.
  pose proof (ends_well_done _ _ _ _ (kv_call_well KvReset s1 H1) E2)
    as [_ W2].
  unfold initQueue. mrun. simpl. split; [discriminate |].
  now apply wf_clear.
Qed.

(** Every call on a good store returns or throws, leaving a good store; no
    assertion fails and no null queue is used. *)
Lemma call_well o s :
  store_ok s ->
  ends_well (call hash underlying timing_asserts o s) store_ok.
Proof.
  intros H. destruct o; simpl; unfold discard.
  - apply ends_well_bind; [now apply set_well |]. intros a s' E.
    exact (ends_well_done _ _ _ _ (set_well item mem_ok s H) E).
  - apply ends_well_bind; [now apply del_well |]. intros a s' E.
    exact (ends_well_done _ _ _ _ (del_well key s H) E).
  - unfold get. mrun. now destruct (unlocked_find _ _ _ _).
  - exact H.
  - now apply flush_well.
  - now apply reset_well.
  - rewrite startFlusher_eq.
    destruct (flusherState s); [destruct spawn_ok |..]; exact H.
  - rewrite stopFlusher_eq. destruct (flusherState s); exact H.
  - exact H.
Qed.

(** The stores a client can observe: what the constructor returns (for a
    table with at least one bucket), and what a call leaves, whether it
    returns, throws or blocks. *)
Inductive reachable : Store -> Prop :=
| reach_construct est txn persist size locks s :
    (0 < size)%nat ->
    construct est txn persist size locks true = Done tt s ->
    reachable s
| reach_call o s s' a :
    reachable s ->
    call hash underlying timing_asserts o s = Done a s' ->
    reachable s'
| reach_throw o s s' :
    reachable s ->
    call hash underlying timing_asserts o s = Threw s' ->
    reachable s'
| reach_wait o s s' :
    reachable s ->
    call hash underlying timing_asserts o s = Waiting s' ->
    reachable s'.

Lemma reachable_store_ok s : reachable s -> store_ok s.
Proof.
  induction 1 as [est txn persist size locks s L E | o s s' a R IH E
                  | o s s' R IH E | o s s' R IH E].
  - injection E as <-. simpl. split; [discriminate | now apply wf_make].
  - pose proof (call_well o s IH) as H. now rewrite E in H.
  - pose proof (call_well o s IH) as H. now rewrite E in H.
  - pose proof (call_well o s IH) as H. now rewrite E in H.
Qed.

Lemma reachable_never_aborts s o s' :
  reachable s -> call hash underlying timing_asserts o s <> Aborted s'.
Proof.
  intros R E. pose proof (call_well o s (reachable_store_ok s R)) as H.
  now rewrite E in H.
Qed.

End Reachable.

(** A dirty slot whose time stamps fail the assertions of [flushOne] stops
    the flush cycle before anything is written. *)
Example failed_assertion_aborts_the_flush :
  exists s',
    flush length_hash kv_ok (fun _ _ => false) 1 false
          (store_after (set length_hash k1_v1 true fresh_store))
    = Aborted s' /\ kvlog s' = [KvBegin].
Proof. eexists. split; reflexivity. Qed.

(** ** More about the store *)

(** What [get] hands to its callback. *)
Lemma get_eq hash key s :
  get hash key s =
  Done [item_of key <$> find hash key false (storage s)] s.
Proof.
  unfold get, find. mrun.
  destruct (unlocked_find key _ false (storage s)) as [v |] eqn:F;
    [| reflexivity].
  simpl. unfold item_of.
  assert (K : getKey v = key).
  { unfold unlocked_find in F.
    destruct (values (storage s) !! _) as [c |]; [| discriminate].
    destruct (chain_find key c) as [w |] eqn:Fc; [| discriminate].
    destruct (isDeleted w && negb false); [discriminate |].
    injection F as <-. now apply chain_find_elem in Fc. }
  now rewrite K.
Qed.

(** X1.  Starting from a constructed store, no sequence of calls makes an
    assertion fail or uses the null queue pointer: [initQueue] is only
    entered with [towrite == NULL], [queueDirty] and [flush] only with a
    queue, and [flushOne] only on a non-empty queue (as long as the checks
    on the time stamps of [flushOne] hold). *)
Theorem X1_no_call_aborts_on_a_constructed_store
        hash underlying timing_asserts s o s' :
  asserts_hold timing_asserts ->
  reachable hash underlying timing_asserts s ->
  call hash underlying timing_asserts o s <> Aborted s'.
Proof.
  intros TA R E.
  pose proof (call_well hash underlying timing_asserts TA o s
                (reachable_store_ok _ _ _ TA s R)) as H.
  now rewrite E in H.
Qed.

Lemma X1_no_call_aborts_witness :
  call length_hash kv_commit_throws clock_ok (CallReset 1)
       (store_after (set length_hash k1_v1 true fresh_store))
  <> Aborted fresh_store.
Proof.
  apply X1_no_call_aborts_on_a_constructed_store.
  - intros l v. reflexivity.
  - apply (reach_call _ _ _ (CallSet k1_v1 true) fresh_store _ tt).
    + apply (reach_construct _ _ _ 0 10 true 5%nat 1%nat); [lia |].
      reflexivity.
    + reflexivity.
Defined.

(** X2.  A flush cycle does not change what readers see: however [flush]
    ends (it returns, the persistence layer throws, an assertion fails, or
    it blocks on an empty queue), [get] hands its callback the same value
    for every key as before the cycle. *)
Theorem X2_flush_does_not_change_what_get_returns
        hash underlying timing_asserts fuel w s s' key :
  final_store (flush hash underlying timing_asserts fuel w s) = Some s' ->
  exists l, get hash key s = Done l s /\ get hash key s' = Done l s'.
Proof.
  intros F. rewrite !get_eq. eexists. split; [reflexivity |].
  enough (item_of key <$> find hash key false (storage s') =
          item_of key <$> find hash key false (storage s)) as -> by reflexivity.
  destruct (towrite s) as [[| k q] |] eqn:T.
  - rewrite flush_eq, T in F. destruct w; simpl in F; now injection F as <-.
  - pose proof (flush_inv hash underlying timing_asserts fuel w s k q T) as I.
    apply (final_store_ends_in _ _ _ I) in F.
    destruct (ci_table _ _ _ F key) as [E | (v & E0 & _ & E)];
      simpl in *.
    + now rewrite E.
    + rewrite E, E0. reflexivity.
  - rewrite flush_eq, T in F. simpl in F. now injection F as <-.
Qed.

(** The store after [set k1], and after the flush cycle that follows when
    [commit] throws. *)
Definition k1_set : Store :=
  Eval vm_compute in store_after (set length_hash k1_v1 true fresh_store).
Definition k1_commit_threw : Store :=
  Eval vm_compute in
    store_after (flush length_hash kv_commit_throws clock_ok 1 false k1_set).

Lemma X2_flush_get_witness :
  exists l,
    get length_hash "k1"%string k1_set = Done l k1_set /\
    get length_hash "k1"%string k1_commit_threw = Done l k1_commit_threw.
Proof.
  apply (X2_flush_does_not_change_what_get_returns
           length_hash kv_commit_throws clock_ok 1 false k1_set
           k1_commit_threw "k1"%string).
  vm_compute. reflexivity.
Defined.

(** ** The order of the operations of a flush cycle *)

(** What a cycle decides for a queue, key after key: the table it leaves
    and the [set] and [del] operations in the order they are issued. *)
Fixpoint resolve_all (hash : string -> nat) (h : HashTable)
         (q : list string) : HashTable * list kvop :=
  match q with
  | [] => (h, [])
  | key :: q' =>
      let r := resolve hash h key in
      let r' := resolve_all hash (fst r) q' in
      (fst r', match snd r with Some op => op :: snd r' | None => snd r' end)
  end.

Definition is_write_b (op : kvop) : bool :=
  match op with KvSet _ | KvDel _ => true | _ => false end.

(** The [set] and [del] operations of a sequence of calls. *)
Definition writes (ops : list kvop) : list kvop := List.filter is_write_b ops.

(** The slot of the key, if any, is not dirty. *)
Definition not_dirty (hash : string -> nat) (h : HashTable) (key : string)
  : Prop :=
  forall v, find hash key false h = Some v -> isDirty v = false.

Lemma resolve_all_app hash h q1 q2 :
  resolve_all hash h (q1 ++ q2) =
  (fst (resolve_all hash (fst (resolve_all hash h q1)) q2),
   snd (resolve_all hash h q1) ++
   snd (resolve_all hash (fst (resolve_all hash h q1)) q2)).
Proof.
  revert h. induction q1 as [| k q1 IH]; intros h; simpl.
  - now destruct (resolve_all hash h q2).
  - rewrite IH. simpl. now destruct (snd (resolve hash h k)).
Qed.

Lemma resolve_is_write hash h key op :
  snd (resolve hash h key) = Some op -> is_write_b op = true.
Proof.
  unfold resolve.
  destruct (unlocked_find _ _ _ _) as [v |]; [destruct (isDirty v) |];
    simpl; intros [= <-]; reflexivity.
Qed.

Lemma writes_resolve_all hash q : forall h,
  writes (snd (resolve_all hash h q)) = snd (resolve_all hash h q).
Proof.
  induction q as [| k q IH]; intros h; simpl; [reflexivity |].
  destruct (snd (resolve hash h k)) as [op |] eqn:R; [| apply IH].
  unfold writes in *. simpl. rewrite (resolve_is_write _ _ _ _ R).
  now rewrite IH.
Qed.

Lemma writes_app ops1 ops2 : writes (ops1 ++ ops2) = writes ops1 ++ writes ops2.
Proof. apply List.filter_app. Qed.

Lemma resolve_not_dirty hash h key :
  not_dirty hash (fst (resolve hash h key)) key.
Proof.
  unfold not_dirty, resolve. fold (find hash key false h).
  destruct (find hash key false h) as [v |] eqn:F.
  - destruct (isDirty v) eqn:D; simpl.
    + intros w. rewrite find_markClean, String.eqb_refl, F. simpl.
      now intros [= <-].
    + intros w. rewrite F. now intros [= <-].
  - simpl. intros w. rewrite F. discriminate.
Qed.

Lemma resolve_keeps_not_dirty hash h key k :
  not_dirty hash h k -> not_dirty hash (fst (resolve hash h key)) k.
Proof.
  unfold not_dirty, resolve. intros N v.
  destruct (unlocked_find key _ false h) as [w |]; [| exact (N v)].
  destruct (isDirty w); simpl; [| exact (N v)].
  rewrite find_markClean.
  destruct (String.eqb key k); [| exact (N v)].
  destruct (find hash k false h) as [u |]; simpl; [| discriminate].
  now intros [= <-].
Qed.

Lemma resolve_all_keeps_not_dirty hash q : forall h k,
  not_dirty hash h k -> not_dirty hash (fst (resolve_all hash h q)) k.
Proof.
  induction q as [| key q IH]; intros h k N; simpl; [exact N |].
  apply IH. now apply resolve_keeps_not_dirty.
Qed.

Lemma resolve_all_not_dirty hash q : forall h k,
  In k q -> not_dirty hash (fst (resolve_all hash h q)) k.
Proof.
  induction q as [| key q IH]; intros h k Hin; simpl; [destruct Hin |].
  destruct Hin as [-> | Hin].
  - apply resolve_all_keeps_not_dirty, resolve_not_dirty.
  - now apply IH.
Qed.

Section FlushOrder.

Variable hash : string -> nat.
Variable underlying : KVStore.
Variable timing_asserts : list kvop -> StoredValue -> bool.
Hypothesis NT : no_throw underlying.
Hypothesis TA : asserts_hold timing_asserts.

Lemma storage_after_resolve s key :
  storage (after_resolve hash s key) = fst (resolve hash (storage s) key).
Proof.
  unfold after_resolve.
  now destruct (snd (resolve hash (storage s) key)).
Qed.

Lemma kvlog_after_resolve s key :
  kvlog (after_resolve hash s key) =
  kvlog s ++ match snd (resolve hash (storage s) key) with
             | Some op => [op]
             | None => []
             end.
Proof.
  unfold after_resolve.
  destruct (snd (resolve hash (storage s) key)); simpl;
    [reflexivity | now rewrite app_nil_r].
Qed.

Lemma towrite_after_resolve s key :
  towrite (after_resolve hash s key) = towrite s.
Proof.
  unfold after_resolve.
  now destruct (snd (resolve hash (storage s) key)).
Qed.

Lemma todo_after_resolve s key :
  flusher_todo (stats (after_resolve hash s key)) = flusher_todo (stats s) - 1.
Proof.
  unfold after_resolve.
  now destruct (snd (resolve hash (storage s) key)).
Qed.

(** What a run leaves, in terms of the keys [done] it has resolved. *)
Record resolved (done : list string) (s s' : Store) : Prop := {
  rs_storage : storage s' = fst (resolve_all hash (storage s) done);
  rs_log : exists ops,
      kvlog s' = kvlog s ++ ops /\
      writes ops = snd (resolve_all hash (storage s) done);
  rs_txn : txnSize s' = txnSize s;
  rs_towrite : towrite s' = towrite s;
  rs_todo : flusher_todo (stats s') =
            flusher_todo (stats s) - Z.of_nat (length done)
}.

Lemma resolved_nil s : resolved [] s s.
Proof.
  constructor; simpl; auto; [| lia].
  exists []. now rewrite app_nil_r.
Qed.

Lemma resolved_trans d1 d2 s1 s2 s3 :
  resolved d1 s1 s2 -> resolved d2 s2 s3 -> resolved (d1 ++ d2) s1 s3.
Proof.
  intros [S1 (o1 & L1 & W1) T1 Q1 D1] [S2 (o2 & L2 & W2) T2 Q2 D2].
  constructor.
  - rewrite resolve_all_app. simpl. now rewrite S2, S1.
  - exists (o1 ++ o2). split.
    + now rewrite L2, L1, app_assoc.
    + rewrite resolve_all_app, writes_app. simpl. now rewrite W1, W2, S1.
  - congruence.
  - congruence.
  - rewrite D2, D1, length_app. lia.
Qed.

Lemma resolved_one s key : resolved [key] s (after_resolve hash s key).
Proof.
  constructor; simpl.
  - apply storage_after_resolve.
  - eexists. split; [apply kvlog_after_resolve |].
    destruct (snd (resolve hash (storage s) key)) as [op |] eqn:R;
      [| reflexivity].
    unfold writes. simpl. now rewrite (resolve_is_write _ _ _ _ R).
  - apply txnSize_after_resolve.
  - apply towrite_after_resolve.
  - rewrite todo_after_resolve. lia.
Qed.

Lemma resolved_logged d s s' op :
  is_write_b op = false -> resolved d s s' -> resolved d s (logged s' op).
Proof.
  intros W [S1 (o1 & L1 & W1) T1 Q1 D1]. constructor; simpl; auto.
  exists (o1 ++ [op]). split.
  - now rewrite L1, app_assoc.
  - rewrite writes_app, W1. unfold writes at 1. simpl. rewrite W.
    apply app_nil_r.
Qed.

Lemma logged_resolved d s s' op :
  is_write_b op = false -> resolved d (logged s op) s' -> resolved d s s'.
Proof.
  intros W [S1 (o1 & L1 & W1) T1 Q1 D1]. simpl in *.
  constructor; simpl; auto.
  exists (op :: o1). split.
  - rewrite L1. now rewrite <- app_assoc.
  - unfold writes in *. simpl. now rewrite W.
Qed.

(** A run either stops at the loop bound of the model or returns, with
    [P] relating the result and the store. *)
Definition returns {A} (r : result A) (P : A -> Store -> Prop) : Prop :=
  r = OutOfFuel \/ exists a s', r = Done a s' /\ P a s'.

Lemma flushSome_loop_resolved fuel : forall i q s,
  returns (flushSome_loop hash underlying timing_asserts fuel i q s)
          (fun q' s' => exists n, q' = drop n q /\ resolved (take n q) s s').
Proof.
  induction fuel as [| fuel IH]; intros i q s.
  - cbn [flushSome_loop]. unfold bind at 1, get_store at 1.
    destruct (_ && _); [now left | right].
    exists q, s. split; [reflexivity |]. exists 0%nat.
    split; [now rewrite drop_0 | apply resolved_nil].
  - destruct (Z.ltb_spec i (txnSize s)) as [Hi | Hi].
    + destruct q as [| key q].
      * right. exists [], s. rewrite flushSome_loop_stop by now right.
        split; [reflexivity |]. exists 0%nat. split; [reflexivity |].
        apply resolved_nil.
      * rewrite (flushSome_loop_cons hash underlying timing_asserts NT TA)
          by exact Hi.
        destruct (IH (i + 1) q (after_resolve hash s key))
          as [E | (q' & s' & E & n & -> & R)]; [now left | right].
        exists (drop n q), s'. split; [exact E |]. exists (S n).
        split; [reflexivity |].
        exact (resolved_trans [key] (take n q) _ _ _ (resolved_one s key) R).
    + right. exists q, s. rewrite flushSome_loop_stop by now left.
      split; [reflexivity |]. exists 0%nat.
      split; [now rewrite drop_0 | apply resolved_nil].
Qed.

Lemma flushSome_resolved fuel q s :
  returns (flushSome hash underlying timing_asserts fuel q s)
          (fun q' s' => exists n, q' = drop n q /\ resolved (take n q) s s').
Proof.
  unfold flushSome.
  rewrite (bind_done _ _ _ _ _ (kv_call_ok underlying KvBegin s NT)).
  destruct (flushSome_loop_resolved fuel 0 q (logged s KvBegin))
    as [E | (q' & s' & E & n & -> & R)].
  - left. unfold bind. now rewrite E.
  - right. rewrite (bind_done _ _ _ _ _ E).
    rewrite (bind_done _ _ _ _ _ (kv_call_ok underlying KvCommit s' NT)).
    exists (drop n q), (logged s' KvCommit). split; [reflexivity |].
    exists n. split; [reflexivity |].
    apply resolved_logged; [reflexivity |].
    apply (logged_resolved _ _ _ KvBegin); [reflexivity | exact R].
Qed.

Lemma flush_loop_resolved fuel : forall q s,
  returns (flush_loop hash underlying timing_asserts fuel q s)
          (fun _ s' => resolved q s s').
Proof.
  induction fuel as [| fuel IH]; intros q s.
  - destruct q; [right | now left].
    exists tt, s. split; [reflexivity | apply resolved_nil].
  - destruct q as [| k q].
    + right. exists tt, s. split; [reflexivity | apply resolved_nil].
    + rewrite flush_loop_cons.
      destruct (flushSome_resolved (S fuel) (k :: q) s)
        as [E | (q' & s1 & E & n & -> & R)].
      * left. unfold bind. now rewrite E.
      * rewrite (bind_done _ _ _ _ _ E).
        destruct (IH (drop n (k :: q)) s1) as [E2 | ([] & s2 & E2 & R2)];
          [now left | right].
        exists tt, s2. split; [exact E2 |].
        rewrite <- (take_drop n (k :: q)).
        exact (resolved_trans _ _ s s1 s2 R R2).
Qed.

(** [flush], for a store with a dirty queue, when it does not block. *)
Lemma flush_resolved fuel w s q :
  towrite s = Some q -> (q = [] -> w = false) ->
  returns (flush hash underlying timing_asserts fuel w s)
          (fun _ s' =>
             storage s' = fst (resolve_all hash (storage s) q) /\
             writes (issued s s') = snd (resolve_all hash (storage s) q) /\
             towrite s' = Some [] /\
             txnSize s' = txnSize s /\
             flusherState s' = flusherState s /\
             (q <> [] -> flusher_todo (stats s') = 0)).
Proof.
  intros T Hw. rewrite flush_eq, T. destruct q as [| k q].
  - right. exists tt, s. rewrite (Hw eq_refl). split; [reflexivity |].
    unfold issued. rewrite drop_all. repeat split; auto. congruence.
  - destruct (flush_loop_resolved fuel (k :: q) (swapped s (length (k :: q))))
      as [E | ([] & s' & E & [S1 (ops & L1 & W1) T1 Q1 D1])];
      [now left | right].
    exists tt, s'. split; [exact E |].
    pose proof (flush_loop_inv hash underlying timing_asserts
                  (swapped s (length (k :: q))) fuel (k :: q) _
                  (cycle_inv_refl hash _)) as I.
    rewrite E in I. simpl in *.
    repeat split; auto.
    + now rewrite (issued_app s s' ops L1).
    + exact (ci_flusher _ _ _ I).
    + intros _. rewrite D1. lia.
Qed.

End FlushOrder.

(** ** Keys an operation of the table does not touch *)

Lemma chain_find_overwrite_other key k f c :
  key <> k ->
  (forall v, getKey v = key -> getKey (f v) = key) ->
  chain_find k (chain_update key f c) = chain_find k c.
Proof.
  intros Ne K. induction c as [| w c IH]; simpl; [reflexivity |].
  destruct (String.eqb_spec (getKey w) key) as [E | E]; simpl.
  - rewrite (K w E).
    destruct (String.eqb_spec key k) as [E' | _]; [contradiction |].
    destruct (String.eqb_spec (getKey w) k) as [E' | _];
      [congruence | reflexivity].
  - now rewrite IH.
Qed.

Lemma chain_find_remove_other key k c :
  key <> k -> chain_find k (chain_remove key c) = chain_find k c.
Proof.
  intros Ne. induction c as [| w c IH]; simpl; [reflexivity |].
  destruct (String.eqb_spec (getKey w) key) as [E | E]; simpl.
  - destruct (String.eqb_spec (getKey w) k) as [E' | _];
      [congruence | reflexivity].
  - now rewrite IH.
Qed.

(** A change to the chain of one bucket that leaves the slots of the key
    [k] alone does not change what [find] returns for [k]. *)
Lemma find_alter hash (g : list StoredValue -> list StoredValue) b k wd h h' :
  values h' = alter g b (values h) ->
  (forall c, chain_find k (g c) = chain_find k c) ->
  find hash k wd h' = find hash k wd h.
Proof.
  intros V G. unfold find, unlocked_find, bucket, getSize.
  rewrite V, length_alter, list_lookup_alter.
  destruct (decide (b = (hash k mod length (values h))%nat)) as [-> | _];
    [| reflexivity].
  destruct (values h !! (hash k mod length (values h))%nat) as [c |];
    simpl; [| reflexivity].
  now rewrite G.
Qed.

Lemma find_set_other hash i mem_ok k wd h :
  item_key i <> k ->
  find hash k wd (snd (HashTable.set hash i mem_ok h)) = find hash k wd h.
Proof.
  intros Ne. unfold HashTable.set.
  destruct (unlocked_find (item_key i) _ true h) as [v |].
  - simpl. eapply find_alter; [reflexivity |].
    intros c. now apply chain_find_overwrite_other.
  - destruct mem_ok; [| reflexivity].
    simpl. eapply find_alter; [reflexivity |].
    intros c. simpl.
    now destruct (String.eqb_spec (item_key i) k) as [E | _].
Qed.

Lemma find_del_other hash key k wd h :
  key <> k ->
  find hash k wd (snd (HashTable.del hash key h)) = find hash k wd h.
Proof.
  intros Ne. unfold HashTable.del, unlocked_del.
  destruct (unlocked_find key _ true h) as [v |]; [| reflexivity].
  simpl. eapply find_alter; [reflexivity |].
  intros c. now apply chain_find_remove_other.
Qed.

Lemma find_make hash k wd size locks : find hash k wd (make size locks) = None.
Proof.
  unfold find, unlocked_find, make. simpl.
  destruct (repeat [] size !! _) as [c |] eqn:L; [| reflexivity].
  apply lookup_repeat in L. now subst c.
Qed.

Lemma find_clear hash k wd h : find hash k wd (clear h) = None.
Proof. apply find_make. Qed.

(** The key a [set] or a [del] operation names. *)
Definition op_key (op : kvop) : option string :=
  match op with
  | KvSet i => Some (item_key i)
  | KvDel key => Some key
  | _ => None
  end.

Lemma resolve_op_key hash h key op :
  snd (resolve hash h key) = Some op -> op_key op = Some key.
Proof.
  unfold resolve.
  destruct (unlocked_find _ _ _ _) as [v |]; [destruct (isDirty v) |];
    simpl; intros [= <-]; reflexivity.
Qed.

Lemma resolve_all_keys hash q : forall h,
  sublist (omap op_key (snd (resolve_all hash h q))) q.
Proof.
  induction q as [| k q IH]; intros h; simpl; [constructor |].
  destruct (snd (resolve hash h k)) as [op |] eqn:R.
  - simpl. rewrite (resolve_op_key _ _ _ _ R). constructor. apply IH.
  - constructor. apply IH.
Qed.

(** [flush] returns when it has a cycle to run or is not asked to wait,
    the transaction size is positive, the persistence layer does not throw
    and the loop bound covers the queue. *)
Lemma flush_returns hash underlying timing_asserts fuel w s q :
  towrite s = Some q -> (q = [] -> w = false) -> 0 < txnSize s ->
  no_throw underlying ->
  asserts_hold timing_asserts -> (length q <= fuel)%nat ->
  exists s', flush hash underlying timing_asserts fuel w s = Done tt s'.
Proof.
  intros T Hw Ht NT TA Hf. rewrite flush_eq, T.
  destruct q as [| k q]; [rewrite (Hw eq_refl); now exists s |].
  destruct (flush_loop_ok hash underlying timing_asserts fuel (k :: q)
              (swapped s (length (k :: q))) NT TA Ht Hf) as (s' & _ & E & _).
  now exists s'.
Qed.

(** X3.  A flush cycle that completes writes the keys in the order of the
    dirty queue: the [set] and [del] operations it issues, taken out of
    their transactions, are what [flushOne] decides for the keys of the
    queue read front to back, each decision made on the table the earlier
    ones left; the keys they name are a subsequence of the queue.  The
    table the cycle leaves is the one these decisions produce. *)
Theorem X3_flush_writes_in_queue_order
        hash underlying timing_asserts fuel w s k q :
  towrite s = Some (k :: q) -> 0 < txnSize s -> no_throw underlying ->
  asserts_hold timing_asserts -> (length (k :: q) <= fuel)%nat ->
  exists s',
    flush hash underlying timing_asserts fuel w s = Done tt s' /\
    writes (issued s s') = snd (resolve_all hash (storage s) (k :: q)) /\
    sublist (omap op_key (writes (issued s s'))) (k :: q) /\
    storage s' = fst (resolve_all hash (storage s) (k :: q)).
Proof.
  intros T Ht NT TA Hf.
  assert (Hw : k :: q = [] -> w = false) by discriminate.
  destruct (flush_returns hash underlying timing_asserts fuel w s (k :: q)
              T Hw Ht NT TA Hf) as (s' & E).
  exists s'. split; [exact E |].
  destruct (flush_resolved hash underlying timing_asserts NT TA fuel w s
                           (k :: q) T Hw)
    as [O | ([] & s1 & E1 & S1 & W1 & _)]; [congruence |].
  rewrite E in E1. injection E1 as <-.
  rewrite W1. repeat split; auto. apply resolve_all_keys.
Qed.

(** Two keys set in turn, the first one twice. *)
Definition k2_v1 : Item := mkItem "key2"%string 0 0 "v1"%string.
Definition two_dirty : Store :=
  Eval vm_compute in
    store_after ((set length_hash k1_v1 true ;;;
                  set length_hash k2_v1 true ;;;
                  set length_hash k1_v2 true) fresh_store).

Lemma X3_flush_order_witness :
  exists s',
    flush length_hash kv_ok clock_ok 2 false two_dirty = Done tt s' /\
    writes (issued two_dirty s') =
    snd (resolve_all length_hash (storage two_dirty)
                     ["k1"%string; "key2"%string]) /\
    sublist (omap op_key (writes (issued two_dirty s')))
            ["k1"%string; "key2"%string] /\
    storage s' = fst (resolve_all length_hash (storage two_dirty)
                                  ["k1"%string; "key2"%string]).
Proof.
  apply (X3_flush_writes_in_queue_order
           length_hash kv_ok clock_ok 2 false two_dirty
           "k1"%string ["key2"%string]).
  - reflexivity.
  - reflexivity.
  - intros l op. discriminate.
  - intros l v. reflexivity.
  - simpl. lia.
Defined.

Example two_dirty_flush_order :
  writes (issued two_dirty
                 (store_after (flush length_hash kv_ok clock_ok 2 false
                                     two_dirty)))
  = [KvSet k1_v2; KvSet k2_v1].
Proof. reflexivity. Qed.

(** X4.  After a flush cycle that completes, nothing is left to do: the
    dirty queue is empty, [flusher_todo] is 0 and no key that was queued
    has a dirty slot.  A further [flush] finds the queue empty and starts
    no cycle: it issues no call to the persistence layer and changes
    neither the table, the queue nor the counters; with [shouldWait] false
    it returns, and with [shouldWait] true it does not return but blocks in
    [mutex.wait()]. *)
Theorem X4_completed_flush_leaves_nothing_to_do
        hash underlying timing_asserts fuel w s k q :
  towrite s = Some (k :: q) -> 0 < txnSize s -> no_throw underlying ->
  asserts_hold timing_asserts -> (length (k :: q) <= fuel)%nat ->
  exists s',
    flush hash underlying timing_asserts fuel w s = Done tt s' /\
    towrite s' = Some [] /\
    flusher_todo (stats s') = 0 /\
    (forall key, In key (k :: q) -> not_dirty hash (storage s') key) /\
    (forall fuel',
        flush hash underlying timing_asserts fuel' false s' = Done tt s' /\
        flush hash underlying timing_asserts fuel' true s' = Waiting s').
Proof.
  intros T Ht NT TA Hf.
  assert (Hw : k :: q = [] -> w = false) by discriminate.
  destruct (flush_returns hash underlying timing_asserts fuel w s (k :: q)
              T Hw Ht NT TA Hf) as (s' & E).
  exists s'. split; [exact E |].
  destruct (flush_resolved hash underlying timing_asserts NT TA fuel w s
              (k :: q) T Hw)
    as [O | ([] & s1 & E1 & S1 & _ & Q1 & _ & _ & D1)]; [congruence |].
  rewrite E in E1. injection E1 as <-.
  split; [exact Q1 |]. split; [apply D1; discriminate |]. split.
  - intros key Hin. rewrite S1. now apply resolve_all_not_dirty.
  - intros fuel'. now rewrite !flush_eq, Q1.
Qed.

Lemma X4_completed_flush_witness :
  exists s',
    flush length_hash kv_ok clock_ok 2 false two_dirty = Done tt s' /\
    towrite s' = Some [] /\
    flusher_todo (stats s') = 0 /\
    (forall key, In key ["k1"%string; "key2"%string] ->
                 not_dirty length_hash (storage s') key) /\
    (forall fuel',
        flush length_hash kv_ok clock_ok fuel' false s' = Done tt s' /\
        flush length_hash kv_ok clock_ok fuel' true s' = Waiting s').
Proof.
  apply (X4_completed_flush_leaves_nothing_to_do
           length_hash kv_ok clock_ok 2 false two_dirty).
  - reflexivity.
  - reflexivity.
  - intros l op. discriminate.
  - intros l v. reflexivity.
  - simpl. lia.
Defined.

(** ** The transactions of a flush cycle *)




Section Batches.

Variable hash : string -> nat.
Variable underlying : KVStore.
Variable timing_asserts : list kvop -> StoredValue -> bool.
Hypothesis NT : no_throw underlying.
Hypothesis TA : asserts_hold timing_asserts.






End Batches.




(** ** Dirty slots are queued *)

(** The table holds no tombstone. *)
Definition live_table (hash : string -> nat) (h : HashTable) : Prop :=
  forall key v, find hash key true h = Some v -> isDeleted v = false.

(** Every dirty slot has its key in the dirty queue. *)
Definition dirty_queued (hash : string -> nat) (s : Store) : Prop :=
  exists q,
    towrite s = Some q /\
    live_table hash (storage s) /\
    forall key v,
      find hash key false (storage s) = Some v -> isDirty v = true ->
      In key q.

Lemma find_live hash h key :
  live_table hash h -> find hash key true h = find hash key false h.
Proof.
  intros L. specialize (L key). unfold find, unlocked_find in *.
  destruct (values h !! bucket hash h key) as [c |]; [| reflexivity].
  destruct (chain_find key c) as [v |]; [| reflexivity].
  simpl in *. rewrite andb_false_r in L. rewrite (L v eq_refl). reflexivity.
Qed.

Lemma find_false_true hash h key v :
  find hash key false h = Some v -> find hash key true h = Some v.
Proof.
  unfold find, unlocked_find.
  destruct (values h !! bucket hash h key) as [c |]; [| discriminate].
  destruct (chain_find key c) as [w |]; [| discriminate].
  destruct (isDeleted w); simpl; [discriminate | auto].
Qed.

Lemma live_table_set hash i mem_ok h :
  wf hash h -> live_table hash h ->
  live_table hash (snd (HashTable.set hash i mem_ok h)).
Proof.
  intros W L key v.
  destruct (String.eqb_spec (item_key i) key) as [<- | Ne].
  - destruct (find hash (item_key i) true h) as [v0 |] eqn:F0.
    + rewrite find_after_set; [| exact W | left; congruence].
      now intros [= <-].
    + destruct mem_ok.
      * rewrite find_after_set; [| exact W | now right].
        now intros [= <-].
      * unfold HashTable.set. unfold find in F0. rewrite F0. simpl.
        fold (find hash (item_key i) true h). unfold find. rewrite F0.
        discriminate.
  - rewrite find_set_other by exact Ne. apply L.
Qed.

Lemma live_table_del hash key h :
  wf hash h -> live_table hash h ->
  live_table hash (snd (HashTable.del hash key h)).
Proof.
  intros W L k v.
  destruct (String.eqb_spec key k) as [<- | Ne].
  - rewrite find_after_del by exact W. discriminate.
  - rewrite find_del_other by exact Ne. apply L.
Qed.

Lemma live_table_resolve hash h key :
  live_table hash h -> live_table hash (fst (resolve hash h key)).
Proof.
  intros L k v. unfold resolve.
  destruct (unlocked_find key _ false h) as [w |]; [| apply L].
  destruct (isDirty w); simpl; [| apply L].
  rewrite find_markClean.
  destruct (String.eqb key k); [| apply L].
  destruct (find hash k true h) as [u |] eqn:F; simpl; [| discriminate].
  intros [= <-]. simpl. exact (L k u F).
Qed.

Lemma live_table_resolve_all hash q : forall h,
  live_table hash h -> live_table hash (fst (resolve_all hash h q)).
Proof.
  induction q as [| k q IH]; intros h L; simpl; [exact L |].
  apply IH. now apply live_table_resolve.
Qed.

Lemma dirty_queued_flushed hash h q :
  live_table hash h ->
  (forall key v, find hash key false h = Some v -> isDirty v = true ->
                 In key q) ->
  forall key, not_dirty hash (fst (resolve_all hash h q)) key.
Proof.
  intros L D key.
  destruct (in_dec string_dec key q) as [Hin | Hout].
  - now apply resolve_all_not_dirty.
  - apply resolve_all_keeps_not_dirty. intros v F.
    destruct (isDirty v) eqn:Dv; [| reflexivity].
    exfalso. apply Hout. exact (D key v F Dv).
Qed.

Section NothingForgotten.

Variable hash : string -> nat.
Variable underlying : KVStore.
Variable timing_asserts : list kvop -> StoredValue -> bool.
Hypothesis NT : no_throw underlying.
Hypothesis TA : asserts_hold timing_asserts.

Local Abbreviation call := (call hash underlying timing_asserts).

Lemma set_dirty_queued item mem_ok s :
  wf hash (storage s) -> dirty_queued hash s ->
  exists l s', set hash item mem_ok s = Done l s' /\ dirty_queued hash s'.
Proof.
  intros W (q & T & L & D). rewrite (set_eq hash item mem_ok s q T).
  cbv zeta. eexists _, _. split; [reflexivity |].
  pose proof (live_table_set hash item mem_ok (storage s) W L) as L'.
  assert (O : forall key v,
             item_key item <> key ->
             find hash key false
                  (snd (HashTable.set hash item mem_ok (storage s))) = Some v ->
             isDirty v = true -> In key q).
  { intros key v Ne. rewrite find_set_other by exact Ne. apply D. }
  rewrite HashTable_set_result.
  fold (find hash (item_key item) true (storage s)).
  destruct (find hash (item_key item) true (storage s)) as [v0 |] eqn:F0.
  - destruct (isDirty v0) eqn:D0; simpl.
    + exists q. repeat split; auto.
      intros key v F Dv.
      destruct (String.eqb_spec (item_key item) key) as [<- | Ne];
        [| exact (O key v Ne F Dv)].
      apply (D (item_key item) v0); [| exact D0].
      now rewrite <- (find_live hash _ _ L).
    + exists (q ++ [item_key item]). repeat split; auto.
      intros key v F Dv. apply in_or_app.
      destruct (String.eqb_spec (item_key item) key) as [<- | Ne];
        [right; now left | left; exact (O key v Ne F Dv)].
  - destruct mem_ok; simpl.
    + exists (q ++ [item_key item]). repeat split; auto.
      intros key v F Dv. apply in_or_app.
      destruct (String.eqb_spec (item_key item) key) as [<- | Ne];
        [right; now left | left; exact (O key v Ne F Dv)].
    + exists q. repeat split; auto.
      intros key v F Dv.
      destruct (String.eqb_spec (item_key item) key) as [<- | Ne];
        [| exact (O key v Ne F Dv)].
      exfalso. apply find_false_true in F.
      unfold HashTable.set in F. unfold find in F0. rewrite F0 in F.
      simpl in F. fold (find hash (item_key item) true (storage s)) in F.
      unfold find in F. congruence.
Qed.

Lemma del_dirty_queued key s :
  wf hash (storage s) -> dirty_queued hash s ->
  exists l s', del hash key s = Done l s' /\ dirty_queued hash s'.
Proof.
  intros W (q & T & L & D). rewrite (del_eq hash key s q T).
  cbv zeta. eexists _, _. split; [reflexivity |].
  pose proof (live_table_del hash key (storage s) W L) as L'.
  assert (O : forall k v,
             find hash k false (snd (HashTable.del hash key (storage s)))
             = Some v ->
             isDirty v = true -> In k q).
  { intros k v.
    destruct (String.eqb_spec key k) as [<- | Ne].
    - rewrite find_after_del by exact W. discriminate.
    - rewrite find_del_other by exact Ne. apply D. }
  destruct (fst (HashTable.del hash key (storage s))); simpl.
  - exists (q ++ [key]). repeat split; auto.
    intros k v F Dv. apply in_or_app. left. exact (O k v F Dv).
  - exists q. repeat split; auto.
Qed.

Lemma flush_dirty_queued fuel w s :
  dirty_queued hash s -> (towrite s = Some [] -> w = false) ->
  returns (flush hash underlying timing_asserts fuel w s)
          (fun _ s' =>
             towrite s' = Some [] /\ live_table hash (storage s') /\
             forall key, not_dirty hash (storage s') key).
Proof.
  intros (q & T & L & D) Hw.
  assert (Hq : q = [] -> w = false) by (intros ->; exact (Hw T)).
  destruct (flush_resolved hash underlying timing_asserts NT TA fuel w s q T
                           Hq)
    as [O | ([] & s' & E & S1 & _ & Q1 & _)]; [now left | right].
  exists tt, s'. split; [exact E |]. rewrite S1.
  split; [exact Q1 |]. split.
  - now apply live_table_resolve_all.
  - now apply dirty_queued_flushed.
Qed.

Lemma reset_dirty_queued fuel s :
  dirty_queued hash s ->
  returns (reset hash underlying timing_asserts fuel s)
          (fun _ s' => dirty_queued hash s').
Proof.
  intros I. unfold reset.
  destruct (flush_dirty_queued fuel false s I (fun _ => eq_refl))
    as [O | ([] & s1 & E & Q1 & _)].
  - left. unfold bind. now rewrite O.
  - right. rewrite (bind_done _ _ _ _ _ E).
    rewrite (bind_done _ _ _ _ _ (kv_call_ok underlying KvReset s1 NT)).
    eexists tt, _. split; [reflexivity |].
    exists []. simpl. split; [reflexivity |]. split.
    + intros key v. now rewrite find_clear.
    + intros key v. now rewrite find_clear.
Qed.

(** Under a persistence layer that does not throw, a call returns in a
    store where every dirty slot is queued, throws or blocks leaving the
    store as it was, or is stopped by the loop bound of the model. *)
Lemma call_dirty_queued o s :
  wf hash (storage s) -> dirty_queued hash s ->
  match call o s with
  | Done _ s' => dirty_queued hash s'
  | Threw s' | Waiting s' => s' = s
  | Aborted _ => False
  | OutOfFuel => True
  end.
Proof.
  intros W I. destruct o as [item mem_ok | key | key | | fuel w | fuel
                             | ok | |]; simpl.
  - destruct (set_dirty_queued item mem_ok s W I) as (l & s' & E & I').
    unfold discard. now rewrite (bind_done _ _ _ _ _ E).
  - destruct (del_dirty_queued key s W I) as (l & s' & E & I').
    unfold discard. now rewrite (bind_done _ _ _ _ _ E).
  - unfold discard. now rewrite (bind_done _ _ _ _ _ (get_eq hash key s)).
  - exact I.
  - destruct (towrite s) as [[| k q] |] eqn:T.
    + rewrite flush_eq, T. now destruct w.
    + destruct (flush_dirty_queued fuel w s I)
        as [-> | ([] & s' & -> & Q & L & D)]; [congruence | trivial |].
      exists []. repeat split; auto. intros key v F Dv.
      rewrite (D key v F) in Dv. discriminate.
    + destruct I as (q & Tq & _). congruence.
  - destruct (reset_dirty_queued fuel s I) as [-> | ([] & s' & -> & I')];
      [trivial | exact I'].
  - rewrite startFlusher_eq.
    destruct (flusherState s); [destruct ok |..]; auto.
  - rewrite stopFlusher_eq. destruct (flusherState s); auto.
  - exact I.
Qed.

Lemma reachable_dirty_queued s :
  reachable hash underlying timing_asserts s -> dirty_queued hash s.
Proof.
  induction 1 as [est txn persist size locks s L E | o s s' a R IH E
                  | o s s' R IH E | o s s' R IH E].
  - injection E as <-. exists []. simpl. repeat split.
    + intros key v. now rewrite find_make.
    + intros key v. now rewrite find_make.
  - pose proof (call_dirty_queued o s
                  (proj2 (reachable_store_ok _ _ _ TA s R)) IH) as H.
    now rewrite E in H.
  - pose proof (call_dirty_queued o s
                  (proj2 (reachable_store_ok _ _ _ TA s R)) IH) as H.
    rewrite E in H. now subst s'.
  - pose proof (call_dirty_queued o s
                  (proj2 (reachable_store_ok _ _ _ TA s R)) IH) as H.
    rewrite E in H. now subst s'.
Qed.

End NothingForgotten.

(** X5.  No pending write is forgotten: in every store reached from the
    constructor by calls of the interface, over a persistence layer that
    does not throw, the key of every dirty slot is in the dirty queue, so
    the next flush cycle resolves it. *)
Theorem X5_every_dirty_slot_is_queued
        hash underlying timing_asserts s key v :
  no_throw underlying -> asserts_hold timing_asserts ->
  reachable hash underlying timing_asserts s ->
  find hash key false (storage s) = Some v -> isDirty v = true ->
  exists q, towrite s = Some q /\ In key q.
Proof.
  intros NT TA R F D.
  destruct (reachable_dirty_queued hash underlying timing_asserts NT TA s R)
    as (q & T & _ & Q).
  exists q. split; [exact T | exact (Q key v F D)].
Qed.

Lemma X5_dirty_slot_witness :
  exists q, towrite k1_set = Some q /\ In "k1"%string q.
Proof.
  apply (X5_every_dirty_slot_is_queued
           length_hash kv_ok clock_ok k1_set "k1"%string
           (slot_of_item k1_v1)).
  - intros l op. discriminate.
  - intros l v. reflexivity.
  - apply (reach_call _ _ _ (CallSet k1_v1 true) fresh_store _ tt).
    + apply (reach_construct _ _ _ 0 10 true 5%nat 1%nat); [lia |].
      reflexivity.
    + reflexivity.
  - reflexivity.
  - reflexivity.
Defined.

Lemma getSize_resolve_all hash q : forall h,
  getSize (fst (resolve_all hash h q)) = getSize h.
Proof.
  induction q as [| k q IH]; intros h; simpl; [reflexivity |].
  rewrite IH. unfold resolve.
  destruct (unlocked_find k _ false h) as [v |]; [| reflexivity].
  destruct (isDirty v); [apply getSize_markClean | reflexivity].
Qed.

(** X6.  [reset] writes the pending changes before it resets the
    persistence layer: it runs a flush cycle over the dirty queue, then
    calls [underlying->reset()], and leaves an empty table of the same
    size, an empty dirty queue and zeroed statistics, so that [get] finds
    no key. *)
Theorem X6_reset_flushes_then_empties
        hash underlying timing_asserts fuel s q :
  towrite s = Some q -> 0 < txnSize s -> no_throw underlying ->
  asserts_hold timing_asserts -> (length q <= fuel)%nat ->
  exists s',
    reset hash underlying timing_asserts fuel s = Done tt s' /\
    (exists ops,
        kvlog s' = kvlog s ++ ops ++ [KvReset] /\
        writes ops = snd (resolve_all hash (storage s) q)) /\
    towrite s' = Some [] /\
    stats s' = zero_stats /\
    (forall key, get hash key s' = Done [None] s') /\
    getNumItems (storage s') = 0%nat /\
    getSize (storage s') = getSize (storage s) /\
    flusherState s' = flusherState s.
Proof.
  intros T Ht NT TA Hf.
  destruct (flush_returns hash underlying timing_asserts fuel false s q
              T (fun _ => eq_refl) Ht NT TA Hf) as (s1 & E).
  destruct (flush_resolved hash underlying timing_asserts NT TA fuel false
                           s q T (fun _ => eq_refl))
    as [O | ([] & s1' & E1 & S1 & W1 & Q1 & _ & F1 & _)]; [congruence |].
  rewrite E in E1. injection E1 as <-.
  assert (L : kvlog s1 = kvlog s ++ issued s s1).
  { destruct (towrite s) as [[| k q'] |] eqn:Tq; [| | discriminate].
    - rewrite flush_eq, Tq in E. injection E as <-.
      unfold issued. now rewrite drop_all, app_nil_r.
    - pose proof (flush_inv hash underlying timing_asserts fuel false s k q'
                            Tq) as I.
      rewrite E in I. destruct (ci_log _ _ _ I) as (ops & Lo & _).
      simpl in Lo. now rewrite (issued_app s s1 ops Lo). }
  unfold reset. rewrite (bind_done _ _ _ _ _ E).
  rewrite (bind_done _ _ _ _ _ (kv_call_ok underlying KvReset s1 NT)).
  eexists. split; [reflexivity |]. simpl.
  split; [| split; [reflexivity | split; [reflexivity | split; [| split;
    [reflexivity | split]]]]].
  - exists (issued s s1). split; [| exact W1].
    rewrite L at 1. now rewrite <- app_assoc.
  - intros key. rewrite get_eq. simpl. now rewrite find_clear.
  - unfold clear, getSize at 1. simpl. rewrite repeat_length, S1.
    apply getSize_resolve_all.
  - exact F1.
Qed.

Lemma X6_reset_witness :
  exists s',
    reset length_hash kv_ok clock_ok 2 two_dirty = Done tt s' /\
    (exists ops,
        kvlog s' = kvlog two_dirty ++ ops ++ [KvReset] /\
        writes ops = snd (resolve_all length_hash (storage two_dirty)
                                      ["k1"%string; "key2"%string])) /\
    towrite s' = Some [] /\
    stats s' = zero_stats /\
    (forall key, get length_hash key s' = Done [None] s') /\
    getNumItems (storage s') = 0%nat /\
    getSize (storage s') = getSize (storage two_dirty) /\
    flusherState s' = flusherState two_dirty.
Proof.
  apply (X6_reset_flushes_then_empties length_hash kv_ok clock_ok 2 two_dirty).
  - reflexivity.
  - reflexivity.
  - intros l op. discriminate.
  - intros l v. reflexivity.
  - simpl. lia.
Defined.

(** X7.  [get] returns what [set] stored: after [set] of an item (the table
    being able to allocate), [get] of its key hands the callback that item,
    [get] of any other key hands it what it did before, and after [del] of
    the key, which reports that the key existed, [get] reports that the key
    is not found. *)
Theorem X7_get_returns_what_set_stored hash item s q :
  wf hash (storage s) -> towrite s = Some q ->
  exists s1,
    set hash item true s = Done [true] s1 /\
    get hash (item_key item) s1 = Done [Some item] s1 /\
    (forall key, key <> item_key item ->
                 exists l, get hash key s = Done l s /\
                           get hash key s1 = Done l s1) /\
    exists s2,
      del hash (item_key item) s1 = Done [true] s2 /\
      get hash (item_key item) s2 = Done [None] s2.
Proof.
  intros W T. rewrite (set_eq hash item true s q T). cbv zeta.
  set (h1 := snd (HashTable.set hash item true (storage s))).
  assert (W1 : wf hash h1) by now apply wf_set.
  assert (F1 : forall wd, find hash (item_key item) wd h1
                          = Some (slot_of_item item)).
  { intros wd. apply find_after_set; auto. }
  eexists. split; [reflexivity |].
  set (s1 := if enqueues _ then _ else _).
  assert (S1 : storage s1 = h1) by (unfold s1; now destruct (enqueues _)).
  assert (exists q1, towrite s1 = Some q1) as (q1 & T1).
  { unfold s1. destruct (enqueues _); simpl; eauto. }
  split; [| split].
  - rewrite get_eq, S1, F1. simpl. now rewrite item_of_slot.
  - intros key Ne. rewrite !get_eq, S1. eexists. split; [reflexivity |].
    unfold h1. rewrite find_set_other by congruence. reflexivity.
  - rewrite (del_eq hash (item_key item) s1 q1 T1). cbv zeta.
    rewrite HashTable_del_result, S1.
    fold (find hash (item_key item) true h1). rewrite F1.
    eexists. split; [reflexivity |].
    rewrite get_eq. simpl. now rewrite find_after_del.
Qed.

Lemma X7_set_get_witness :
  exists s1,
    set length_hash k1_v1 true fresh_store = Done [true] s1 /\
    get length_hash "k1"%string s1 = Done [Some k1_v1] s1 /\
    (forall key, key <> "k1"%string ->
                 exists l, get length_hash key fresh_store
                           = Done l fresh_store /\
                           get length_hash key s1 = Done l s1) /\
    exists s2,
      del length_hash "k1"%string s1 = Done [true] s2 /\
      get length_hash "k1"%string s2 = Done [None] s2.
Proof.
  apply (X7_get_returns_what_set_stored length_hash k1_v1 fresh_store []).
  - apply wf_fresh_store.
  - reflexivity.
Defined.

End EPFacts.

(* ================================================================== *)
(** * Facts about session tracing *)
(* ================================================================== *)

Module TracingFacts.

Import Tracing.

(** The mutex is free and the vector is within the range of [size_t]. *)
Definition idle (t : Tracer) : Prop :=
  spanMutex t = false /\ Z.of_nat (length (vecSpans t)) < size_max.

Lemma size_max_pos : 0 < size_max.
Proof. reflexivity. Qed.

Lemma unlocked_eta t : spanMutex t = false -> mkTracer (vecSpans t) false = t.
Proof. destruct t as [v m]. simpl. now intros ->. Qed.

(** ** The member functions, on a tracer whose mutex is free *)

Lemma begin_eq name now t :
  idle t ->
  begin name now t =
  Returned (Z.of_nat (length (vecSpans t)))
           (mkTracer (vecSpans t ++ [new_span name now]) false).
Proof.
  intros [U B]. unfold begin, lock_guard. rewrite U. simpl.
  rewrite length_app. simpl. f_equal.
  rewrite Z.mod_small; lia.
Qed.

Lemma end_by_id_eq spanId now t :
  spanMutex t = false ->
  end_by_id spanId now t =
  if Z.of_nat (length (vecSpans t)) <=? spanId then Returned false t
  else Returned true (mkTracer (alter (close now) (Z.to_nat spanId)
                                      (vecSpans t)) false).
Proof.
  intros U. unfold end_by_id, lock_guard. rewrite U. simpl.
  destruct (_ <=? _); simpl; [| reflexivity].
  now rewrite unlocked_eta.
Qed.

Lemma end_by_id_locked spanId now t :
  spanMutex t = true -> end_by_id spanId now t = Relocked t.
Proof. intros L. unfold end_by_id, lock_guard. now rewrite L. Qed.

(** Whether some span has the name. *)
Definition named (name : string) (spans : list Span) : bool :=
  existsb (fun span => String.eqb (Tracing.name span) name) spans.

Lemma first_named_None name spans : forall spanId,
  first_named name spans spanId = None <-> named name spans = false.
Proof.
  induction spans as [| sp spans IH]; intros spanId; simpl; [tauto |].
  destruct (String.eqb (Tracing.name sp) name); simpl; [| apply IH].
  split; discriminate.
Qed.

Lemma end_by_name_eq name now t :
  spanMutex t = false ->
  end_by_name name now t =
  if named name (vecSpans t)
  then Relocked (mkTracer (vecSpans t) true)
  else Returned false t.
Proof.
  intros U. unfold end_by_name, lock_guard. rewrite U. simpl.
  destruct (first_named name (vecSpans t) 0) as [spanId |] eqn:F.
  - rewrite end_by_id_locked by reflexivity.
    destruct (named name (vecSpans t)) eqn:N; [reflexivity |].
    rewrite (proj2 (first_named_None name (vecSpans t) 0) N) in F.
    discriminate.
  - rewrite (proj1 (first_named_None name (vecSpans t) 0) F).
    simpl. now rewrite unlocked_eta.
Qed.

(** ** Sequences of calls on a tracer *)

(** A call of [begin] or of [end(SpanId)]. *)
Inductive tracer_call :=
| CallBegin (name : string) (now : Z)
| CallEnd (spanId : Z) (now : Z).

Definition call (c : tracer_call) (t : Tracer) : outcome Tracer unit :=
  match c with
  | CallBegin name now =>
      match begin name now t with
      | Returned _ t' => Returned tt t'
      | Relocked t' => Relocked t'
      | Unfinished => Unfinished
      end
  | CallEnd spanId now =>
      match end_by_id spanId now t with
      | Returned _ t' => Returned tt t'
      | Relocked t' => Relocked t'
      | Unfinished => Unfinished
      end
  end.

Fixpoint calls (cs : list tracer_call) (t : Tracer) : outcome Tracer unit :=
  match cs with
  | [] => Returned tt t
  | c :: rest =>
      match call c t with
      | Returned _ t' => calls rest t'
      | r => r
      end
  end.

(** The span at position [i] has the name and the start time. *)
Definition span_at (t : Tracer) (i : nat) (name : string) (start : Z)
  : Prop :=
  exists d, vecSpans t !! i = Some (mkSpan name start d).

Lemma call_keeps c t i name start :
  spanMutex t = false ->
  Z.of_nat (length (vecSpans t)) + 1 < size_max ->
  span_at t i name start ->
  exists t',
    call c t = Returned tt t' /\ spanMutex t' = false /\
    (length (vecSpans t') <= S (length (vecSpans t)))%nat /\
    span_at t' i name start.
Proof.
  intros U B (d & L). destruct c as [n now | spanId now]; simpl.
  - rewrite begin_eq by (split; [exact U | lia]).
    eexists. split; [reflexivity |]. simpl.
    split; [reflexivity |]. split; [rewrite length_app; simpl; lia |].
    exists d. now apply lookup_app_l_Some.
  - rewrite end_by_id_eq by exact U.
    destruct (_ <=? _).
    + exists t. repeat split; auto. now exists d.
    + eexists. split; [reflexivity |]. simpl.
      split; [reflexivity |]. split; [rewrite length_alter; lia |].
      unfold span_at. simpl. rewrite list_lookup_alter.
      destruct (decide (Z.to_nat spanId = i)) as [E | _].
      * subst i. rewrite L. simpl. eexists. reflexivity.
      * now exists d.
Qed.

Lemma calls_keep cs : forall t i name start,
  spanMutex t = false ->
  Z.of_nat (length (vecSpans t)) + Z.of_nat (length cs) < size_max ->
  span_at t i name start ->
  exists t',
    calls cs t = Returned tt t' /\ spanMutex t' = false /\
    (length (vecSpans t') <= length (vecSpans t) + length cs)%nat /\
    span_at t' i name start.
Proof.
  induction cs as [| c cs IH]; intros t i name start U B A; simpl.
  - exists t. repeat split; auto. lia.
  - simpl in B.
    destruct (call_keeps c t i name start U ltac:(lia) A)
      as (t1 & E1 & U1 & L1 & A1).
    rewrite E1.
    destruct (IH t1 i name start U1 ltac:(lia) A1) as (t2 & E2 & U2 & L2 & A2).
    exists t2. repeat split; auto. lia.
Qed.

(** X9.  A span id stays good: [begin] returns the position of the span it
    appends and leaves the mutex free; whatever calls of [begin] and
    [end(SpanId)] follow (no [clear], and the vector within the range of
    [size_t]), [end] of that id returns [true] and leaves the span with its
    name, its start time and the duration "now minus start", all other
    spans being as they were. *)
Theorem X9_end_closes_the_span_begin_opened
        (t : Tracer) (name : string) (t0 now : Z) (cs : list tracer_call) :
  spanMutex t = false ->
  Z.of_nat (length (vecSpans t)) + Z.of_nat (length cs) + 1 < size_max ->
  exists t1 t2 t3,
    begin name t0 t = Returned (Z.of_nat (length (vecSpans t))) t1 /\
    calls cs t1 = Returned tt t2 /\
    end_by_id (Z.of_nat (length (vecSpans t))) now t2 = Returned true t3 /\
    vecSpans t3 !! length (vecSpans t) = Some (mkSpan name t0 (now - t0)) /\
    (forall i, i <> length (vecSpans t) ->
               vecSpans t3 !! i = vecSpans t2 !! i) /\
    spanMutex t3 = false.
Proof.
  intros U B.
  set (n := length (vecSpans t)) in *.
  set (t1 := mkTracer (vecSpans t ++ [new_span name t0]) false).
  assert (A1 : span_at t1 n name t0).
  { exists 0. unfold t1. simpl. now rewrite lookup_app_r, Nat.sub_diag. }
  destruct (calls_keep cs t1 n name t0 eq_refl) as (t2 & E2 & U2 & L2 & d & A2).
  { unfold t1. simpl. rewrite length_app. simpl. fold n. lia. }
  { exact A1. }
  exists t1, t2. eexists.
  split; [apply begin_eq; split; [exact U | fold n; lia] |].
  split; [exact E2 |].
  rewrite end_by_id_eq by exact U2.
  assert (Hn : (n < length (vecSpans t2))%nat)
    by (apply lookup_lt_is_Some; eauto).
  destruct (Z.leb_spec (Z.of_nat (length (vecSpans t2))) (Z.of_nat n));
    [lia |].
  split; [reflexivity |]. simpl. rewrite Nat2Z.id.
  split; [| split; [| reflexivity]].
  - rewrite list_lookup_alter. destruct (decide (n = n)); [| congruence].
    rewrite A2. reflexivity.
  - intros i Ne. rewrite list_lookup_alter.
    now destruct (decide (n = i)); [congruence |].
Qed.

Lemma X9_begin_end_witness :
  exists t1 t2 t3,
    begin "get"%string 100 empty_tracer = Returned 0 t1 /\
    calls [CallBegin "lock"%string 110; CallEnd 1 130] t1 = Returned tt t2 /\
    end_by_id 0 150 t2 = Returned true t3 /\
    vecSpans t3 !! 0%nat = Some (mkSpan "get"%string 100 (150 - 100)) /\
    (forall i, i <> 0%nat -> vecSpans t3 !! i = vecSpans t2 !! i) /\
    spanMutex t3 = false.
Proof.
  apply (X9_end_closes_the_span_begin_opened
           empty_tracer "get"%string 100 150
           [CallBegin "lock"%string 110; CallEnd 1 130]).
  - reflexivity.
  - reflexivity.
Defined.

(** X10.  [end(SpanId)] checks its argument: for an id that is not the
    position of a span it returns [false] and leaves the tracer as it was.
    This is the case of [invalidSpanId()], and of every id once [clear]
    has emptied the vector. *)
Theorem X10_end_rejects_an_id_out_of_range
        (t : Tracer) (spanId now : Z) :
  spanMutex t = false ->
  Z.of_nat (length (vecSpans t)) <= spanId ->
  end_by_id spanId now t = Returned false t /\
  (Z.of_nat (length (vecSpans t)) < size_max ->
   end_by_id invalidSpanId now t = Returned false t) /\
  end_by_id spanId now (clear t) = Returned false (clear t).
Proof.
  intros U B. rewrite !end_by_id_eq by (try exact U; simpl; exact U).
  split; [| split].
  - destruct (Z.leb_spec (Z.of_nat (length (vecSpans t))) spanId);
      [reflexivity | lia].
  - intros S. unfold invalidSpanId.
    destruct (Z.leb_spec (Z.of_nat (length (vecSpans t))) (size_max - 1));
      [reflexivity | lia].
  - simpl.
    destruct (Z.leb_spec (Z.of_nat 0) spanId); [reflexivity | lia].
Qed.

Lemma X10_end_out_of_range_witness :
  end_by_id 1 5 (mkTracer [new_span "a"%string 1] false)
  = Returned false (mkTracer [new_span "a"%string 1] false) /\
  (Z.of_nat (length [new_span "a"%string 1]) < size_max ->
   end_by_id invalidSpanId 5 (mkTracer [new_span "a"%string 1] false)
   = Returned false (mkTracer [new_span "a"%string 1] false)) /\
  end_by_id 1 5 (clear (mkTracer [new_span "a"%string 1] false))
  = Returned false (clear (mkTracer [new_span "a"%string 1] false)).
Proof.
  apply (X10_end_rejects_an_id_out_of_range
           (mkTracer [new_span "a"%string 1] false) 1 5).
  - reflexivity.
  - simpl. lia.
Defined.

(** X11.  [end(const std::string&)] never closes a span.  It holds
    [spanMutex] while it looks for the name; when no span has the name it
    returns [false] and the tracer is as it was; when a span has the name
    it calls [end(SpanId)], which locks [spanMutex] again: the thread
    re-locks a [std::mutex] it owns and the call does not return.  So
    [TRACE_CK_BEGIN(ck, name)] followed by [TRACE_CK_END(ck, name)] on a
    cookie with tracing enabled does not return either. *)
Theorem X11_end_by_name_relocks_the_mutex
        (t : Tracer) (name : string) (now : Z) :
  spanMutex t = false ->
  end_by_name name now t =
  (if named name (vecSpans t)
   then Relocked (mkTracer (vecSpans t) true)
   else Returned false t) /\
  (forall b t', end_by_name name now t = Returned b t' ->
                b = false /\ t' = t /\ named name (vecSpans t) = false) /\
  (forall t0,
      Z.of_nat (length (vecSpans t)) < size_max ->
      bind (TRACE_CK_BEGIN name t0) (fun _ => TRACE_CK_END name now)
           (Some (mkBaseCookie true t))
      = Relocked (Some (mkBaseCookie
                          true
                          (mkTracer (vecSpans t ++ [new_span name t0])
                                    true)))).
Proof.
  intros U. split; [now apply end_by_name_eq |]. split.
  - intros b t'. rewrite end_by_name_eq by exact U.
    destruct (named name (vecSpans t)); [discriminate |].
    now intros [= <- <-].
  - intros t0 B. unfold bind, TRACE_CK_BEGIN, TRACE_CK_END, ignore,
      on_tracer. simpl.
    rewrite begin_eq by (split; assumption). simpl.
    rewrite end_by_name_eq by reflexivity. simpl.
    unfold named. rewrite existsb_app. simpl.
    rewrite String.eqb_refl, orb_true_r. reflexivity.
Qed.

Lemma X11_end_by_name_witness :
  end_by_name "get"%string 9 (mkTracer [new_span "get"%string 1] false) =
  (if named "get"%string [new_span "get"%string 1]
   then Relocked (mkTracer [new_span "get"%string 1] true)
   else Returned false (mkTracer [new_span "get"%string 1] false)).
Proof.
  apply (X11_end_by_name_relocks_the_mutex
           (mkTracer [new_span "get"%string 1] false) "get"%string 9).
  reflexivity.
Defined.

(** ** Printing *)

Lemma append_assoc (a b c : string) :
  ((a ++ b) ++ c)%string = (a ++ (b ++ c))%string.
Proof. induction a as [| x a IH]; simpl; [reflexivity | now rewrite IH]. Qed.

Lemma append_empty_r (a : string) : (a ++ "")%string = a.
Proof. induction a as [| x a IH]; simpl; [reflexivity | now rewrite IH]. Qed.

(** One span, as [to_string] writes it. *)
Definition render (span : Span) : string :=
  (Tracing.name span ++ "=" ++ decimal (start span) ++ ":"
                     ++ decimal (duration span))%string.

Definition separator (raw : bool) : string :=
  if raw then " "%string else newline.

Lemma to_string_loop_join raw spans : forall os,
  Z.of_nat (length spans) < size_max ->
  to_string_loop spans (Z.of_nat (length spans)) raw os =
  (os ++ String.concat (separator raw) (List.map render spans))%string.
Proof.
  induction spans as [| sp spans IH]; intros os B.
  - simpl. now rewrite append_empty_r.
  - cbn [to_string_loop List.map]. cbn [length] in *.
    replace ((Z.of_nat (S (length spans)) - 1) mod size_max)
      with (Z.of_nat (length spans)) by (rewrite Z.mod_small; lia).
    rewrite IH by lia. fold (render sp).
    destruct spans as [| sp2 spans].
    + simpl. now rewrite !append_empty_r.
    + destruct (Z.ltb_spec 0 (Z.of_nat (length (sp2 :: spans)))) as [_ | H];
        [| simpl in H; lia].
      cbn [String.concat List.map]. fold (separator raw).
      now rewrite !append_assoc.
Qed.

(** X12.  [to_string] writes the spans in order, each as
    [name=start:duration] with the counts in decimal, separated by one
    space ([raw]) or one newline, with no separator after the last span;
    for a tracer without spans the text is empty.  The same text goes to
    [std::cerr] after "prem:" and before a newline. *)
Theorem X12_to_string_joins_the_spans (t : Tracer) (raw : bool) :
  Z.of_nat (length (vecSpans t)) < size_max ->
  fst (to_string t raw) =
  String.concat (separator raw) (List.map render (vecSpans t)) /\
  snd (to_string t raw) =
  ("prem:" ++ fst (to_string t raw) ++ newline)%string /\
  fst (to_string (clear t) raw) = ""%string.
Proof.
  intros B. unfold to_string, getDurations. cbn [fst snd].
  rewrite Z.mod_small by lia.
  rewrite to_string_loop_join by exact B.
  repeat split.
Qed.

Lemma X12_to_string_witness :
  fst (to_string (mkTracer [mkSpan "get"%string 100 50;
                            mkSpan "lock"%string 110 (-3)] false) true) =
  String.concat (separator true)
                (List.map render [mkSpan "get"%string 100 50;
                                  mkSpan "lock"%string 110 (-3)]) /\
  snd (to_string (mkTracer [mkSpan "get"%string 100 50;
                            mkSpan "lock"%string 110 (-3)] false) true) =
  ("prem:" ++
   fst (to_string (mkTracer [mkSpan "get"%string 100 50;
                             mkSpan "lock"%string 110 (-3)] false) true)
   ++ newline)%string /\
  fst (to_string (clear (mkTracer [mkSpan "get"%string 100 50;
                                   mkSpan "lock"%string 110 (-3)] false))
                 true) = ""%string.
Proof.
  apply (X12_to_string_joins_the_spans
           (mkTracer [mkSpan "get"%string 100 50;
                      mkSpan "lock"%string 110 (-3)] false) true).
  reflexivity.
Defined.

Example to_string_raw :
  fst (to_string (mkTracer [mkSpan "get"%string 100 50;
                            mkSpan "lock"%string 110 (-3)] false) true)
  = "get=100:50 lock=110:-3"%string.
Proof. reflexivity. Qed.

(** ** Code that uses the macros *)

(** Statements built from the tracing macros, for one cookie pointer. *)
Inductive code :=
| Skip
| Seq (c1 c2 : code)
| TraceBegin (name : string) (now : Z)
| TraceEnd (name : string) (now : Z)
| EnableTracing
| DisableTracing
| TraceScope (name : string) (t_in : Z) (body : code) (t_out : Z)
| TraceBlock (name : string) (t_in : Z) (body : code) (t_out : Z).

Fixpoint run (fuel : nat) (c : code) : M unit :=
  match c with
  | Skip => ret tt
  | Seq c1 c2 => bind (run fuel c1) (fun _ => run fuel c2)
  | TraceBegin name now => TRACE_CK_BEGIN name now
  | TraceEnd name now => TRACE_CK_END name now
  | EnableTracing => ENABLE_TRACING_CK
  | DisableTracing => DISABLE_TRACING_CK
  | TraceScope name t_in body t_out =>
      TRACE_SCOPE_CK name t_in t_out (run fuel body)
  | TraceBlock name t_in body t_out =>
      TRACE_BLOCK_CK fuel name t_in t_out (run fuel body)
  end.

(** The code does not enable tracing. *)
Fixpoint no_enable (c : code) : bool :=
  match c with
  | EnableTracing => false
  | Seq c1 c2 => no_enable c1 && no_enable c2
  | TraceScope _ _ body _ | TraceBlock _ _ body _ => no_enable body
  | _ => true
  end.

(** The code does not use [TRACE_CK_END]. *)
Fixpoint no_end (c : code) : bool :=
  match c with
  | TraceEnd _ _ => false
  | Seq c1 c2 => no_end c1 && no_end c2
  | TraceScope _ _ body _ | TraceBlock _ _ body _ => no_end body
  | _ => true
  end.

(** The spans the code can open. *)
Fixpoint opens (c : code) : nat :=
  match c with
  | Seq c1 c2 => opens c1 + opens c2
  | TraceBegin _ _ => 1
  | TraceScope _ _ body _ | TraceBlock _ _ body _ => S (opens body)
  | _ => 0
  end.

(** The pointer is null or tracing is disabled on the cookie. *)
Definition not_tracing (ck : option BaseCookie) : Prop :=
  match ck with
  | Some c => enableTracing c = false
  | None => True
  end.

(** [TRACE_BLOCK_CK] runs its statement once: it is [TRACE_SCOPE_CK] at the
    head of a block that holds the statement. *)
Lemma TRACE_BLOCK_CK_once fuel name t_in t_out body ck :
  TRACE_BLOCK_CK (S fuel) name t_in t_out body ck =
  TRACE_SCOPE_CK name t_in t_out body ck.
Proof.
  unfold TRACE_BLOCK_CK, TRACE_SCOPE_CK, BlockTracer_ctor, bind, ret.
  destruct (ScopedTracer_ctor name t_in ck) as [st ck1 | ck1 |];
    [| reflexivity | reflexivity].
  cbn [block_loop once justonce fst snd scoped]. unfold bind.
  destruct (body ck1) as [[] ck2 | ck2 |]; [| reflexivity | reflexivity].
  destruct fuel; reflexivity.
Qed.

Lemma ScopedTracer_ctor_not_tracing name now ck :
  not_tracing ck ->
  ScopedTracer_ctor name now ck = Returned (mkScopedTracer false None) ck.
Proof.
  intros N. unfold ScopedTracer_ctor. destruct ck as [c |]; [| reflexivity].
  simpl in N. unfold isTracingEnabled. now rewrite N.
Qed.

Lemma run_not_tracing c : forall fuel ck,
  no_enable c = true -> not_tracing ck ->
  run (S fuel) c ck = Returned tt ck.
Proof.
  induction c as [| c1 IH1 c2 IH2 | name now | name now | |
                  | name t_in body IH t_out | name t_in body IH t_out];
    intros fuel ck Q N; cbn [run].
  - reflexivity.
  - simpl in Q. apply andb_prop in Q as [Q1 Q2].
    unfold bind. rewrite IH1 by assumption. now apply IH2.
  - unfold TRACE_CK_BEGIN. destruct ck as [c |]; [| reflexivity].
    simpl in N. unfold isTracingEnabled. now rewrite N.
  - unfold TRACE_CK_END. destruct ck as [c |]; [| reflexivity].
    simpl in N. unfold isTracingEnabled. now rewrite N.
  - discriminate.
  - unfold DISABLE_TRACING_CK. destruct ck as [[e t] |]; [| reflexivity].
    simpl in N. now subst e.
  - unfold TRACE_SCOPE_CK, bind.
    rewrite ScopedTracer_ctor_not_tracing by exact N.
    simpl in Q. rewrite IH by assumption. reflexivity.
  - rewrite TRACE_BLOCK_CK_once. unfold TRACE_SCOPE_CK, bind.
    rewrite ScopedTracer_ctor_not_tracing by exact N.
    simpl in Q. rewrite IH by assumption. reflexivity.
Qed.

(** X13.  Nothing is traced until tracing is enabled: a cookie is
    constructed with tracing disabled, and code that uses the tracing
    macros ([TRACE_CK_BEGIN], [TRACE_CK_END], [DISABLE_TRACING_CK], scopes
    and blocks, nested at will) without [ENABLE_TRACING_CK] returns and
    leaves a cookie with tracing disabled, and a null cookie pointer,
    exactly as it was. *)
Theorem X13_nothing_is_traced_while_tracing_is_disabled
        (c : code) (fuel : nat) (ck : option BaseCookie) :
  no_enable c = true ->
  not_tracing ck ->
  run (S fuel) c ck = Returned tt ck /\
  run (S fuel) c (Some new_cookie) = Returned tt (Some new_cookie).
Proof.
  intros Q N. split; [now apply run_not_tracing |].
  now apply run_not_tracing.
Qed.

(** A request handler: a scope around a block and an unmatched
    [TRACE_CK_END]. *)
Definition handler : code :=
  TraceScope "get"%string 100
             (Seq (TraceBlock "lock"%string 110 Skip 120)
                  (TraceEnd "get"%string 125))
             150.

Lemma X13_tracing_disabled_witness :
  run 1 handler None = Returned tt None /\
  run 1 handler (Some new_cookie) = Returned tt (Some new_cookie).
Proof.
  apply (X13_nothing_is_traced_while_tracing_is_disabled handler 0 None).
  - reflexivity.
  - exact I.
Defined.

(** ** Scopes *)

Lemma alter_middle {A} (f : A -> A) (l1 : list A) (x : A) (l2 : list A) :
  alter f (length l1) (l1 ++ x :: l2) = l1 ++ f x :: l2.
Proof.
  induction l1 as [| y l1 IH]; simpl; [reflexivity |].
  f_equal. exact IH.
Qed.

(** A scope on a cookie with tracing enabled, around statements that
    return and only append spans. *)
Lemma scope_enabled name t_in t_out (body : M unit) e t c1 ext :
  spanMutex t = false ->
  Z.of_nat (length (vecSpans t)) < size_max ->
  body (Some (mkBaseCookie
                true (mkTracer (vecSpans t ++ [new_span name t_in]) false)))
  = Returned tt (Some c1) ->
  spanMutex (tracer c1) = false ->
  vecSpans (tracer c1) = (vecSpans t ++ [new_span name t_in]) ++ ext ->
  e = true ->
  TRACE_SCOPE_CK name t_in t_out body (Some (mkBaseCookie e t)) =
  Returned tt
           (Some (mkBaseCookie
                    (enableTracing c1)
                    (mkTracer (vecSpans t ++
                               mkSpan name t_in (t_out - t_in) :: ext)
                              false))).
Proof.
  intros U B Eb U1 V1 ->.
  unfold TRACE_SCOPE_CK, bind, ScopedTracer_ctor, on_tracer. simpl.
  rewrite begin_eq by (split; assumption). rewrite Eb.
  unfold ScopedTracer_dtor, ignore, on_tracer, getTracer. simpl.
  rewrite end_by_id_eq by exact U1. rewrite V1.
  rewrite <- app_assoc. simpl. rewrite length_app. simpl.
  destruct (Z.leb_spec (Z.of_nat (length (vecSpans t) + S (length ext)))
                       (Z.of_nat (length (vecSpans t)))); [lia |].
  rewrite Nat2Z.id, alter_middle. reflexivity.
Qed.

(** Code without [TRACE_CK_END] returns, leaves the mutex free and only
    appends spans. *)
Lemma run_appends c : forall fuel c0,
  no_end c = true ->
  spanMutex (tracer c0) = false ->
  Z.of_nat (length (vecSpans (tracer c0))) + Z.of_nat (opens c) < size_max ->
  exists c1 ext,
    run (S fuel) c (Some c0) = Returned tt (Some c1) /\
    spanMutex (tracer c1) = false /\
    vecSpans (tracer c1) = vecSpans (tracer c0) ++ ext /\
    (length ext <= opens c)%nat.
Proof.
  induction c as [| c1 IH1 c2 IH2 | name now | name now | |
                  | name t_in body IH t_out | name t_in body IH t_out];
    intros fuel c0 Q U B; cbn [run].
  - exists c0, []. rewrite app_nil_r. repeat split; auto.
  - simpl in Q, B. apply andb_prop in Q as [Q1 Q2].
    destruct (IH1 fuel c0 Q1 U ltac:(lia)) as (ca & e1 & Ea & Ua & Va & La).
    destruct (IH2 fuel ca Q2 Ua) as (cb & e2 & Eb & Ub & Vb & Lb).
    { rewrite Va, length_app. lia. }
    exists cb, (e1 ++ e2). unfold bind. rewrite Ea.
    split; [exact Eb |]. split; [exact Ub |].
    split; [now rewrite Vb, Va, app_assoc |].
    rewrite length_app. simpl. lia.
  - unfold TRACE_CK_BEGIN, isTracingEnabled.
    destruct (enableTracing c0) eqn:E.
    + unfold ignore, on_tracer, getTracer.
      rewrite begin_eq by (split; [exact U | simpl in B; lia]).
      eexists _, [new_span name now]. simpl. repeat split; auto.
    + exists c0, []. rewrite app_nil_r. simpl. repeat split; auto.
  - discriminate.
  - destruct c0 as [e t]. eexists _, []. simpl. rewrite app_nil_r.
    repeat split; auto.
  - destruct c0 as [e t]. eexists _, []. simpl. rewrite app_nil_r.
    repeat split; auto.
  - simpl in Q, B. destruct c0 as [e t]. simpl in U, B.
    destruct e.
    + destruct (IH fuel (mkBaseCookie
                           true
                           (mkTracer (vecSpans t ++ [new_span name t_in])
                                     false)) Q eq_refl)
        as (c1 & ext & E1 & U1 & V1 & L1).
      { simpl. rewrite length_app. simpl. lia. }
      simpl in V1.
      rewrite (scope_enabled name t_in t_out (run (S fuel) body) true t c1
                             ext U ltac:(lia) E1 U1 V1 eq_refl).
      eexists _, _. simpl. repeat split; auto. simpl. lia.
    + destruct (IH fuel (mkBaseCookie false t) Q U ltac:(simpl; lia))
        as (c1 & ext & E1 & U1 & V1 & L1).
      unfold TRACE_SCOPE_CK, bind.
      rewrite ScopedTracer_ctor_not_tracing by reflexivity. rewrite E1.
      exists c1, ext. repeat split; auto. simpl. lia.
  - rewrite TRACE_BLOCK_CK_once.
    simpl in Q, B. destruct c0 as [e t]. simpl in U, B.
    destruct e.
    + destruct (IH fuel (mkBaseCookie
                           true
                           (mkTracer (vecSpans t ++ [new_span name t_in])
                                     false)) Q eq_refl)
        as (c1 & ext & E1 & U1 & V1 & L1).
      { simpl. rewrite length_app. simpl. lia. }
      simpl in V1.
      rewrite (scope_enabled name t_in t_out (run (S fuel) body) true t c1
                             ext U ltac:(lia) E1 U1 V1 eq_refl).
      eexists _, _. simpl. repeat split; auto. simpl. lia.
    + destruct (IH fuel (mkBaseCookie false t) Q U ltac:(simpl; lia))
        as (c1 & ext & E1 & U1 & V1 & L1).
      unfold TRACE_SCOPE_CK, bind.
      rewrite ScopedTracer_ctor_not_tracing by reflexivity. rewrite E1.
      exists c1, ext. repeat split; auto. simpl. lia.
Qed.

(** X14.  A scope records one span with its duration.  On a cookie with
    tracing enabled, [TRACE_SCOPE_CK(ck, name)] at the head of a block
    whose statements use the tracing macros (all but [TRACE_CK_END];
    nested scopes and blocks, and [DISABLE_TRACING_CK], included) appends
    one span to those the tracer held, with the name, the time of entry
    and, once the block is left, the duration "time of exit minus time of
    entry"; the spans the tracer held are untouched and the spans of the
    statements follow.  On a cookie with tracing disabled at entry the
    scope adds nothing to what the statements do, even if they enable
    tracing. *)
Theorem X14_a_scope_records_one_span_with_its_duration
        (name : string) (t_in t_out : Z) (body : code) (fuel : nat)
        (t : Tracer) :
  no_end body = true ->
  spanMutex t = false ->
  Z.of_nat (length (vecSpans t)) + Z.of_nat (opens body) + 1 < size_max ->
  (exists c1 ext,
      run (S fuel) (TraceScope name t_in body t_out)
          (Some (mkBaseCookie true t)) = Returned tt (Some c1) /\
      vecSpans (tracer c1) =
      vecSpans t ++ mkSpan name t_in (t_out - t_in) :: ext /\
      (length ext <= opens body)%nat /\
      spanMutex (tracer c1) = false) /\
  run (S fuel) (TraceScope name t_in body t_out)
      (Some (mkBaseCookie false t))
  = run (S fuel) body (Some (mkBaseCookie false t)).
Proof.
  intros Q U B. split.
  - destruct (run_appends body fuel
                (mkBaseCookie true
                   (mkTracer (vecSpans t ++ [new_span name t_in]) false))
                Q eq_refl)
      as (c1 & ext & E1 & U1 & V1 & L1).
    { simpl. rewrite length_app. simpl. lia. }
    simpl in V1. cbn [run].
    rewrite (scope_enabled name t_in t_out (run (S fuel) body) true t c1
                           ext U ltac:(lia) E1 U1 V1 eq_refl).
    eexists _, ext. simpl. repeat split; auto.
  - cbn [run]. unfold TRACE_SCOPE_CK, bind.
    rewrite ScopedTracer_ctor_not_tracing by reflexivity.
    destruct (run (S fuel) body (Some (mkBaseCookie false t)))
      as [[] ck | ck |]; reflexivity.
Qed.

(** A lookup that holds a lock around the read, and turns tracing off on
    the way. *)
Definition lookup_code : code :=
  Seq (TraceBlock "lock"%string 110 DisableTracing 120)
      (TraceBegin "read"%string 125).

Lemma X14_scope_witness :
  (exists c1 ext,
      run 1 (TraceScope "get"%string 100 lookup_code 150)
          (Some (mkBaseCookie true empty_tracer)) = Returned tt (Some c1) /\
      vecSpans (tracer c1) =
      vecSpans empty_tracer ++ mkSpan "get"%string 100 (150 - 100) :: ext /\
      (length ext <= opens lookup_code)%nat /\
      spanMutex (tracer c1) = false) /\
  run 1 (TraceScope "get"%string 100 lookup_code 150)
      (Some (mkBaseCookie false empty_tracer))
  = run 1 lookup_code (Some (mkBaseCookie false empty_tracer)).
Proof.
  apply (X14_a_scope_records_one_span_with_its_duration
           "get"%string 100 150 lookup_code 0 empty_tracer).
  - reflexivity.
  - reflexivity.
  - reflexivity.
Defined.

Example lookup_spans :
  run 1 (TraceScope "get"%string 100 lookup_code 150)
      (Some (mkBaseCookie true empty_tracer))
  = Returned tt
      (Some (mkBaseCookie
               false
               (mkTracer [mkSpan "get"%string 100 50;
                          mkSpan "lock"%string 110 10] false))).
Proof. reflexivity. Qed.

(** X15.  [TRACE_BLOCK_CK(ck, name) statement] runs the statement exactly
    once: [once] answers [true] to the first call on a block tracer and
    [false] to every later one, so the [for] loop of the macro is entered
    once, and the macro does what [TRACE_SCOPE_CK(ck, name)] at the head of
    a block holding the statement does. *)
Theorem X15_a_block_runs_its_statement_once
        (fuel : nat) (name : string) (t_in t_out : Z) (body : M unit)
        (ck : option BaseCookie) (st : ScopedTracer) (bt : BlockTracer) :
  TRACE_BLOCK_CK (S fuel) name t_in t_out body ck =
  TRACE_SCOPE_CK name t_in t_out body ck /\
  fst (once (mkBlockTracer st true)) = true /\
  fst (once (snd (once bt))) = false /\
  snd (once (snd (once bt))) = snd (once bt).
Proof.
  split; [apply TRACE_BLOCK_CK_once |].
  unfold once. destruct bt as [s []]; simpl; auto.
Qed.

End TracingFacts.

(* ================================================================== *)
(** * Facts about SASL authentication *)
(* ================================================================== *)

Module SaslAuthFacts.

Import SaslAuth.

(** The context has a task in every state whose handler reads it. *)
Definition has_task (c : Context) : Prop :=
  match state c with
  | ParseAuthTaskResult | AuthOk | AuthContinue | AuthFailure =>
      task c <> None
  | Initial | AuthBadParameters | Done => True
  end.

(** The events a run added. *)
Definition added (c c' : Context) : list event :=
  drop (length (events c)) (events c').

(** A reply to the client. *)
Definition is_reply (e : event) : bool :=
  match e with
  | WriteResponse _ _ _ _ | AddHeader _ _ _ _ _ | WritePacket _ => true
  | _ => false
  end.

Definition replies (es : list event) : list event := List.filter is_reply es.

(** The result of the task makes [parseAuthTaskResult] choose
    [AuthFailure]. *)
Definition is_failure (e : cbsasl_error_t) : bool :=
  match e with
  | CBSASL_OK | CBSASL_CONTINUE | CBSASL_BADPARAM => false
  | _ => true
  end.

(** Case analysis on everything the handlers read. *)
Ltac by_cases w c :=
  destruct w as [enabled xerror initialized opcode key value error response];
  destruct c as [s t es n m];
  destruct s; destruct enabled; destruct opcode; destruct t;
  destruct error; destruct initialized; destruct xerror.

(** One more round of the loop changes nothing once three suffice. *)
Lemma step_fuel w c fuel :
  has_task c -> step w (3 + fuel) c = step w 3 c.
Proof.
  unfold has_task. by_cases w c; simpl; intros T;
    try reflexivity; congruence.
Qed.

Lemma step_3 w c fuel :
  has_task c -> (3 <= fuel)%nat -> step w fuel c = step w 3 c.
Proof.
  intros T F. replace fuel with (3 + (fuel - 3))%nat by lia.
  now apply step_fuel.
Qed.

(** X16.  [step] returns after at most three rounds of its loop, and the
    code it returns tells the state it leaves: [ENGINE_SUCCESS] only in
    [Done]; [ENGINE_EWOULDBLOCK] only from [Initial], with a task scheduled
    and the state [ParseAuthTaskResult]; [ENGINE_ENOTSUP] only from
    [Initial], with nothing changed; [ENGINE_EINVAL] only in
    [AuthBadParameters]; and it throws only from [Initial], for an opcode
    that is neither [SaslAuth] nor [SaslStep], before a task is created.
    (The context holds a task in the states whose handlers read it, which
    [step] maintains.) *)
Theorem X16_step_returns_and_the_code_tells_the_state
        (w : World) (c : Context) (fuel : nat) :
  has_task c -> (3 <= fuel)%nat ->
  step w fuel c = step w 3 c /\
  match step w fuel c with
  | Returns ENGINE_SUCCESS c' => state c' = Done
  | Returns ENGINE_EWOULDBLOCK c' =>
      state c = Initial /\ state c' = ParseAuthTaskResult /\
      (exists t, task c' = Some t /\
                 added c c' = [LogDebug (getKey w)
                                        (String.length (getValue w));
                               Schedule t]) /\
      has_task c'
  | Returns ENGINE_ENOTSUP c' =>
      state c = Initial /\ isSaslAuthEnabled w = false /\ c' = c
  | Returns ENGINE_EINVAL c' =>
      state c' = AuthBadParameters /\ replies (added c c') = []
  | Throws c' =>
      state c = Initial /\ state c' = Initial /\ task c' = task c /\
      getClientOpcode w <> SaslAuth /\ getClientOpcode w <> SaslStep
  | NullTask _ | Unfinished => False
  end.
Proof.
  intros T F. rewrite (step_3 w c fuel T F). split; [reflexivity |].
  unfold has_task, added in *.
  by_cases w c; simpl in *; try congruence; auto;
    rewrite <- ?app_assoc; simpl; rewrite ?drop_app_length, ?drop_all;
    repeat split; eauto; congruence.
Qed.

(** A connection that asks for PLAIN authentication, and the answers of
    the authentication task. *)
Definition plain_auth (error : cbsasl_error_t) : World :=
  mkWorld true true true SaslAuth "PLAIN"%string "secret"%string
          error "ok"%string.

Definition fresh_context : Context := mkContext Initial None [] 0 0.

Definition waiting_context : Context :=
  mkContext ParseAuthTaskResult
            (Some (mkTask StartSaslAuthTask "PLAIN"%string "secret"%string))
            [LogDebug "PLAIN"%string 6;
             Schedule (mkTask StartSaslAuthTask "PLAIN"%string
                              "secret"%string)]
            0 0.

Lemma X16_step_witness :
  step (plain_auth CBSASL_OK) 3 fresh_context
  = Returns ENGINE_EWOULDBLOCK waiting_context /\
  step (plain_auth CBSASL_OK) 5 waiting_context
  = step (plain_auth CBSASL_OK) 3 waiting_context.
Proof.
  split; [reflexivity |].
  apply (X16_step_returns_and_the_code_tells_the_state
           (plain_auth CBSASL_OK) waiting_context 5).
  - discriminate.
  - lia.
Defined.

(** X17.  Once the authentication task has run, [step] answers the client
    exactly once, unless the task reported bad parameters: from
    [ParseAuthTaskResult] it returns [ENGINE_EINVAL] with no reply written
    for [CBSASL_BADPARAM], and [ENGINE_SUCCESS] with exactly one reply
    otherwise.  The payload of the task is sent only for [CBSASL_OK] and
    [CBSASL_CONTINUE]; the connection is told to close exactly when the
    authentication failed before the server was initialized; and a failed
    authentication is audited exactly when the server is initialized and
    the task reported an unknown user or a wrong password. *)
Theorem X17_one_reply_per_finished_authentication
        (w : World) (c : Context) :
  state c = ParseAuthTaskResult -> task c <> None ->
  exists c',
    step w 3 c =
    Returns (match getError w with
             | CBSASL_BADPARAM => ENGINE_EINVAL
             | _ => ENGINE_SUCCESS
             end) c' /\
    length (replies (added c c')) =
    (match getError w with CBSASL_BADPARAM => 0 | _ => 1 end)%nat /\
    ((exists ext key dlen,
         In (WriteResponse (getResponse w) ext key dlen) (added c c')) <->
     getError w = CBSASL_OK) /\
    ((exists len, In (AddIov (getResponse w) len) (added c c')) <->
     getError w = CBSASL_CONTINUE) /\
    (In (SetWriteAndGo conn_closing) (added c c') <->
     is_failure (getError w) = true /\ is_server_initialized w = false) /\
    ((exists reason, In (AuditAuthFailure reason) (added c c')) <->
     is_server_initialized w = true /\
     (getError w = CBSASL_NOUSER \/ getError w = CBSASL_PWERR)).
Proof.
  intros S T. unfold added.
  destruct w as [enabled xerror initialized opcode key value error response].
  destruct c as [s t es n m]. simpl in S, T. subst s.
  destruct t as [t |]; [| congruence].
  destruct error; destruct initialized; destruct xerror; simpl;
    (eexists; split; [reflexivity |]); simpl;
    rewrite <- ?app_assoc; simpl; rewrite ?drop_app_length, ?drop_all;
    simpl;
    (split; [reflexivity |]);
    repeat split; intros; try discriminate; try tauto;
    repeat match goal with
           | H : exists _, _ |- _ => destruct H
           | H : _ /\ _ |- _ => destruct H
           | H : _ \/ _ |- _ => destruct H
           | H : In _ _ |- _ => simpl in H
           | H : False |- _ => destruct H
           end;
    try discriminate; try congruence; eauto 6.
Qed.

Lemma X17_one_reply_witness :
  exists c',
    step (plain_auth CBSASL_PWERR) 3 waiting_context
    = Returns ENGINE_SUCCESS c' /\
    length (replies (added waiting_context c')) = 1%nat /\
    ((exists ext key dlen,
         In (WriteResponse "ok"%string ext key dlen)
            (added waiting_context c')) <->
     CBSASL_PWERR = CBSASL_OK) /\
    ((exists len, In (AddIov "ok"%string len) (added waiting_context c')) <->
     CBSASL_PWERR = CBSASL_CONTINUE) /\
    (In (SetWriteAndGo conn_closing) (added waiting_context c') <->
     true = true /\ true = false) /\
    ((exists reason, In (AuditAuthFailure reason) (added waiting_context c'))
     <->
     true = true /\
     (CBSASL_PWERR = CBSASL_NOUSER \/ CBSASL_PWERR = CBSASL_PWERR)).
Proof.
  apply (X17_one_reply_per_finished_authentication
           (plain_auth CBSASL_PWERR) waiting_context).
  - reflexivity.
  - discriminate.
Defined.

(** ** The counters *)

(** Calls of [step] one after the other, each in the world of its time;
    the run stops at the first call that does not return. *)
Fixpoint steps (ws : list World) (c : Context) : Context :=
  match ws with
  | [] => c
  | w :: rest =>
      match step w 3 c with
      | Returns _ c' => steps rest c'
      | Throws c' | NullTask c' => c'
      | Unfinished => c
      end
  end.

(** What one call of [step] does to the counters. *)
Definition counted (c c' : Context) : Prop :=
  0 <= auth_errors c' - auth_errors c <= auth_cmds c' - auth_cmds c /\
  auth_cmds c' - auth_cmds c <= 1.

Lemma step_counted w c :
  has_task c ->
  match step w 3 c with
  | Returns _ c' => has_task c' /\ counted c c'
  | Throws c' => counted c c'
  | NullTask _ | Unfinished => False
  end.
Proof.
  unfold has_task, counted.
  by_cases w c; simpl; intros T; try congruence;
    repeat split; try congruence; lia.
Qed.

Lemma steps_counted ws : forall c,
  has_task c ->
  0 <= auth_errors (steps ws c) - auth_errors c
    <= auth_cmds (steps ws c) - auth_cmds c.
Proof.
  induction ws as [| w ws IH]; intros c T; cbn [steps]; [lia |].
  pose proof (step_counted w c T) as H.
  destruct (step w 3 c) as [r c' | c' | c' |]; try tauto.
  - destruct H as (T' & C & _). specialize (IH c' T'). lia.
  - destruct H as (C & _). lia.
Qed.

(** X18.  The thread statistics count authentications consistently: over
    any number of calls of [step], [auth_errors] grows by no more than
    [auth_cmds] does, and neither decreases.  When the task has run, the
    call that reads its result counts one command for every result but
    [CBSASL_CONTINUE] and a failure before the server is initialized, and
    one error for bad parameters and for a failure with the server
    initialized.  After bad parameters the context stays in
    [AuthBadParameters], and every further call of [step] returns
    [ENGINE_EINVAL] and counts one more command and one more error. *)
Theorem X18_auth_errors_never_outgrow_auth_cmds
        (ws : list World) (w : World) (c : Context) :
  has_task c ->
  (0 <= auth_errors (steps ws c) - auth_errors c
     <= auth_cmds (steps ws c) - auth_cmds c) /\
  (state c = ParseAuthTaskResult ->
   exists ret c',
     step w 3 c = Returns ret c' /\
     auth_cmds c' - auth_cmds c =
     (match getError w with
      | CBSASL_CONTINUE => 0
      | CBSASL_OK | CBSASL_BADPARAM => 1
      | _ => if is_server_initialized w then 1 else 0
      end) /\
     auth_errors c' - auth_errors c =
     (match getError w with
      | CBSASL_OK | CBSASL_CONTINUE => 0
      | CBSASL_BADPARAM => 1
      | _ => if is_server_initialized w then 1 else 0
      end)) /\
  (state c = AuthBadParameters ->
   step w 3 c = Returns ENGINE_EINVAL (count_error (count_cmd c)) /\
   state (count_error (count_cmd c)) = AuthBadParameters).
Proof.
  intros T. split; [now apply steps_counted |]. split.
  - intros S. unfold has_task in T. rewrite S in T.
    destruct w as [enabled xerror initialized opcode key value error
                     response].
    destruct c as [s t es n m]. simpl in S, T. subst s.
    destruct t as [t |]; [| congruence].
    destruct error; destruct initialized; simpl;
      eexists _, _; (split; [reflexivity |]); simpl; split; lia.
  - intros S. destruct c as [s t es n m]. simpl in S. subst s.
    split; reflexivity.
Qed.

Lemma X18_counters_witness :
  0 <= auth_errors (steps [plain_auth CBSASL_OK; plain_auth CBSASL_BADPARAM;
                           plain_auth CBSASL_OK] fresh_context)
       - auth_errors fresh_context
    <= auth_cmds (steps [plain_auth CBSASL_OK; plain_auth CBSASL_BADPARAM;
                         plain_auth CBSASL_OK] fresh_context)
       - auth_cmds fresh_context.
Proof.
  apply (X18_auth_errors_never_outgrow_auth_cmds
           [plain_auth CBSASL_OK; plain_auth CBSASL_BADPARAM;
            plain_auth CBSASL_OK]
           (plain_auth CBSASL_OK) fresh_context).
  exact I.
Defined.

Example bad_parameters_are_counted_again :
  let c := steps [plain_auth CBSASL_OK; plain_auth CBSASL_BADPARAM;
                  plain_auth CBSASL_OK] fresh_context in
  state c = AuthBadParameters /\ auth_cmds c = 2 /\ auth_errors c = 2.
Proof. repeat split. Qed.

End SaslAuthFacts.

(* ================================================================== *)
(** * Facts about the cluster configuration push *)
(* ================================================================== *)

Module CccpFacts.

Import Cccp.

(** The connection asked for notifications, is a [McbpConnection] and has
    a cluster map older than [rev]. *)
Definition behind (rev : Z) (c : Connection) : bool :=
  isClustermapChangeNotificationSupported c && is_mcbp c &&
  (getClustermapRevno c <? rev).

(** The connection with one more push event queued and one more signal. *)
Definition queued (c : Connection) : Connection :=
  mkConnection (getId c) (isClustermapChangeNotificationSupported c)
               (is_mcbp c) (getClustermapRevno c)
               (server_events c ++ [CccpPushNotificationServerEvent])
               (S (signalled c)) (output c).

Definition notify (rev : Z) (c : Connection) : Connection :=
  if behind rev c then queued c else c.

(** The task with its mutex released. *)
Definition unlocked (t : CccpNotificationTask) : CccpNotificationTask :=
  mkTask (bucketIndex t) (revision t) false.

Section Notify.

Variable enqueueServerEvent : Connection -> option thrown.
Variable signalIfIdle : Connection -> option thrown.

(** What the lambda throws on a connection, and the connection it leaves
    then. *)
Definition throws_on (rev : Z) (c c' : Connection) (e : thrown) : Prop :=
  behind rev c = true /\
  ((enqueueServerEvent c = Some e /\ c' = c) \/
   (enqueueServerEvent c = None /\
    signalIfIdle (with_event c) = Some e /\ c' = with_event c)).

Lemma notify_connection_eq rev c :
  match notify_connection enqueueServerEvent signalIfIdle rev c with
  | (c', None) =>
      c' = notify rev c /\
      (behind rev c = true ->
       enqueueServerEvent c = None /\ signalIfIdle (with_event c) = None)
  | (c', Some e) => throws_on rev c c' e
  end.
Proof.
  unfold notify_connection, notify, throws_on.
  assert (B : behind rev c =
              isClustermapChangeNotificationSupported c && is_mcbp c &&
              (getClustermapRevno c <? rev)) by reflexivity.
  destruct (isClustermapChangeNotificationSupported c); simpl in *;
    [| rewrite B; split; [reflexivity | discriminate]].
  destruct (is_mcbp c); simpl in *;
    [| rewrite B; split; [reflexivity | discriminate]].
  destruct (Z.leb_spec rev (getClustermapRevno c)) as [Le | Lt].
  - assert (F : (getClustermapRevno c <? rev) = false) by lia.
    rewrite F in B. rewrite B. split; [reflexivity | discriminate].
  - assert (F : (getClustermapRevno c <? rev) = true) by lia.
    rewrite F in B. rewrite B.
    destruct (enqueueServerEvent c) as [x |] eqn:Eq.
    + split; [reflexivity |]. left. split; reflexivity.
    + destruct (signalIfIdle (with_event c)) as [y |] eqn:Es.
      * split; [reflexivity |]. right. auto.
      * split; [reflexivity |]. intros _. auto.
Qed.

Lemma notify_revision rev c :
  getClustermapRevno (notify rev c) = getClustermapRevno c.
Proof. unfold notify. now destruct (behind rev c). Qed.

(** The connections after [iterate_all_connections]: those before the
    one the lambda threw on are notified, that one is as the throw left
    it, the others are untouched. *)
Lemma iterate_notify rev cs :
  let r := iterate_all_connections
             (notify_connection enqueueServerEvent signalIfIdle rev) cs in
  exists n,
    (n <= length cs)%nat /\
    length (fst r) = length cs /\
    take n (fst r) = List.map (notify rev) (take n cs) /\
    drop (S n) (fst r) = drop (S n) cs /\
    List.map getClustermapRevno (fst r) = List.map getClustermapRevno cs /\
    (forall i c, (i < n)%nat -> cs !! i = Some c -> behind rev c = true ->
                 enqueueServerEvent c = None /\
                 signalIfIdle (with_event c) = None) /\
    match snd r with
    | None => n = length cs
    | Some e =>
        exists c c', cs !! n = Some c /\ fst r !! n = Some c' /\
                     throws_on rev c c' e
    end.
Proof.
  cbv zeta. induction cs as [| c cs (n & L & Len & T & D & R & Q & E)].
  - exists 0%nat. simpl. split; [lia |]. do 4 (split; [reflexivity |]).
    split; [intros i c Hi; lia | reflexivity].
  - cbn [iterate_all_connections].
    pose proof (notify_connection_eq rev c) as N.
    destruct (notify_connection enqueueServerEvent signalIfIdle rev c)
      as [c' [e |]].
    + exists 0%nat. simpl. rewrite drop_0.
      split; [lia |]. split; [reflexivity |]. split; [reflexivity |].
      split; [reflexivity |]. split.
      * f_equal. destruct N as (_ & [(_ & ->) | (_ & _ & ->)]); reflexivity.
      * split; [intros i c0 Hi; lia |]. now exists c, c'.
    + destruct N as (-> & Nq).
      exists (S n). cbn [fst snd length take drop List.map].
      split; [lia |]. split; [now rewrite Len |].
      split; [now rewrite T |]. split; [exact D |]. split.
      * now rewrite R, notify_revision.
      * split.
        -- intros [| i] c0 Hi Hc B.
           ++ injection Hc as <-. now apply Nq.
           ++ apply (Q i c0); [lia | exact Hc | exact B].
        -- destruct (snd (iterate_all_connections _ cs)) as [e |];
             [exact E | now rewrite E].
Qed.

End Notify.

(** X19.  [CccpNotificationTask::execute] visits the connections in
    order.  On each connection that asked for notifications, is a
    [McbpConnection] and has a cluster map older than the revision of the
    task, it queues one push event and signals once; it leaves every other
    connection, and the revision of every connection, alone.  If
    [enqueueServerEvent] or [signalIfIdle] throws on a connection, the
    connections not yet visited are left alone; that connection is
    unchanged when [enqueueServerEvent] threw, and has the event queued but
    is not signalled when [signalIfIdle] threw.  A [std::exception] is
    swallowed, and the task returns [Finished] with its mutex held again,
    as it does when nothing throws; any other exception leaves [execute]
    with the mutex of the task released. *)
Theorem X19_execute_notifies_the_connections_that_are_behind
        (enqueueServerEvent signalIfIdle : Connection -> option thrown)
        (t : CccpNotificationTask) (cs : list Connection) :
  task_mutex t = true ->
  exists n cs' e,
    execute enqueueServerEvent signalIfIdle t cs =
    Some (match e with
          | Some OtherException => Propagated (unlocked t) cs'
          | _ => Returned Finished t cs'
          end) /\
    (n <= length cs)%nat /\
    length cs' = length cs /\
    take n cs' = List.map (notify (revision t)) (take n cs) /\
    drop (S n) cs' = drop (S n) cs /\
    List.map getClustermapRevno cs' = List.map getClustermapRevno cs /\
    (e = None -> cs' = List.map (notify (revision t)) cs) /\
    (forall x, e = Some x ->
       exists c c',
         cs !! n = Some c /\ cs' !! n = Some c' /\
         behind (revision t) c = true /\
         ((enqueueServerEvent c = Some x /\ c' = c) \/
          (enqueueServerEvent c = None /\
           signalIfIdle (with_event c) = Some x /\ c' = with_event c))) /\
    ((forall c, enqueueServerEvent c = None /\ signalIfIdle c = None) ->
     e = None).
Proof.
  intros M. unfold execute. rewrite M. cbv zeta.
  destruct (iterate_notify enqueueServerEvent signalIfIdle (revision t) cs)
    as (n & L & Len & T & D & R & _ & E).
  cbv zeta in *.
  set (r := iterate_all_connections _ cs) in *.
  exists n, (fst r), (snd r).
  assert (Ht : mkTask (bucketIndex t) (revision t) true = t).
  { destruct t as [b rv m]. simpl in *. now subst m. }
  split.
  { destruct (snd r) as [[|] |]; cbn [bucketIndex revision];
      now rewrite ?Ht. }
  split; [exact L |]. split; [exact Len |]. split; [exact T |].
  split; [exact D |]. split; [exact R |]. split; [| split].
  - intros En. rewrite En in E. subst n.
    rewrite (take_ge (fst r)) in T by lia.
    now rewrite firstn_all in T.
  - intros x Ex. rewrite Ex in E.
    destruct E as (c & c' & Hc & Hc' & B & H). eauto 6.
  - intros Ok. destruct (snd r) as [x |]; [| reflexivity].
    destruct E as (c & c' & _ & _ & _ & [(H & _) | (_ & H & _)]).
    + destruct (Ok c) as (H1 & _). congruence.
    + destruct (Ok (with_event c)) as (_ & H2). congruence.
Qed.

(** Three connections: one behind, one up to date, one that did not ask. *)
Definition conn_behind : Connection := mkConnection 1 true true 3 [] 0 [].
Definition conn_current : Connection := mkConnection 2 true true 7 [] 0 [].
Definition conn_silent : Connection := mkConnection 3 false true 0 [] 0 [].

Definition never_throws (_ : Connection) : option thrown := None.

Lemma X19_execute_witness :
  exists n cs' e,
    execute never_throws never_throws (mkTask 0 7 true)
            [conn_behind; conn_current; conn_silent]
    = Some (match e with
            | Some OtherException => Propagated (unlocked (mkTask 0 7 true)) cs'
            | _ => Returned Finished (mkTask 0 7 true) cs'
            end) /\
    (n <= length [conn_behind; conn_current; conn_silent])%nat /\
    length cs' = length [conn_behind; conn_current; conn_silent] /\
    take n cs' = List.map (notify (revision (mkTask 0 7 true)))
                          (take n [conn_behind; conn_current; conn_silent]) /\
    drop (S n) cs' = drop (S n) [conn_behind; conn_current; conn_silent] /\
    List.map getClustermapRevno cs' =
    List.map getClustermapRevno [conn_behind; conn_current; conn_silent] /\
    (e = None ->
     cs' = List.map (notify (revision (mkTask 0 7 true)))
                    [conn_behind; conn_current; conn_silent]) /\
    (forall x, e = Some x ->
       exists c c',
         [conn_behind; conn_current; conn_silent] !! n = Some c /\
         cs' !! n = Some c' /\
         behind (revision (mkTask 0 7 true)) c = true /\
         ((never_throws c = Some x /\ c' = c) \/
          (never_throws c = None /\
           never_throws (with_event c) = Some x /\ c' = with_event c))) /\
    ((forall c, never_throws c = None /\ never_throws c = None) ->
     e = None).
Proof.
  apply (X19_execute_notifies_the_connections_that_are_behind
           never_throws never_throws (mkTask 0 7 true)
           [conn_behind; conn_current; conn_silent]).
  reflexivity.
Defined.

Example only_the_connection_behind_is_notified :
  execute never_throws never_throws (mkTask 0 7 true)
          [conn_behind; conn_current; conn_silent]
  = Some (Returned Finished (mkTask 0 7 true)
                   [queued conn_behind; conn_current; conn_silent]).
Proof. reflexivity. Qed.

(** [signalIfIdle] throws on the first connection: its event is queued,
    the later connection that is behind is not visited; a [std::exception]
    is swallowed, anything else leaves [execute] with the mutex of the
    task released. *)
Example a_throwing_signal_leaves_the_event_queued :
  let cs := [conn_behind; mkConnection 4 true true 1 [] 0 []] in
  execute never_throws (fun _ => Some StdException) (mkTask 0 7 true) cs
  = Some (Returned Finished (mkTask 0 7 true)
                   [with_event conn_behind;
                    mkConnection 4 true true 1 [] 0 []]) /\
  execute never_throws (fun _ => Some OtherException) (mkTask 0 7 true) cs
  = Some (Propagated (mkTask 0 7 false)
                     [with_event conn_behind;
                      mkConnection 4 true true 1 [] 0 []]).
Proof. split; reflexivity. Qed.

(** ** The push event *)

(** The packets a connection has been told to send. *)
Definition packets (c : Connection) : nat :=
  length (List.filter (fun e => match e with AddIov _ => true | _ => false end)
                      (output c)).

(** A connection runs server events one after the other (how it takes them
    from its queue is outside the sources); [None] when one throws. *)
Fixpoint run_events (sizeof_Request : nat) (b : Bucket) (n : nat)
         (conn : Connection) : option Connection :=
  match n with
  | O => Some conn
  | S n' =>
      match push sizeof_Request b conn with
      | Some (_, conn') => run_events sizeof_Request b n' conn'
      | None => None
      end
  end.

Lemma push_eq sz b conn :
  is_mcbp conn = true ->
  exists conn',
    push sz b conn = Some (true, conn') /\
    getClustermapRevno conn' =
    Z.max (getClustermapRevno conn) (fst (clusterConfiguration b)) /\
    is_mcbp conn' = true /\
    server_events conn' = server_events conn /\
    packets conn' =
    (if fst (clusterConfiguration b) <? getClustermapRevno conn
     then packets conn else S (packets conn)).
Proof.
  intros M. unfold push. rewrite M. simpl.
  destruct (Z.ltb_spec (fst (clusterConfiguration b))
                       (getClustermapRevno conn)) as [H | H].
  - exists conn. repeat split; auto. lia.
  - eexists. split; [reflexivity |]. simpl. repeat split; auto; [lia |].
    unfold packets. simpl. rewrite List.filter_app, length_app. simpl. lia.
Qed.

(** X20.  A push event never takes a connection back: after
    [CccpPushNotificationServerEvent::execute] the revision of the
    connection is the larger of the one it had and the one of the bucket's
    current configuration.  The event sends one packet when the current
    revision is not older than the connection's (equal included) and
    nothing otherwise, so [n] events run against an unchanged
    configuration send it [n] times.  After [CccpNotificationTask::execute]
    for a revision the bucket has reached, a connection that was behind
    has an event queued, and once it has run it the connection is at that
    revision or beyond. *)
Theorem X20_a_push_event_never_lowers_the_revision
        (sizeof_Request : nat) (b : Bucket) (conn : Connection)
        (n : nat) (rev : Z) :
  is_mcbp conn = true ->
  (exists conn',
      push sizeof_Request b conn = Some (true, conn') /\
      getClustermapRevno conn' =
      Z.max (getClustermapRevno conn) (fst (clusterConfiguration b)) /\
      packets conn' =
      (if fst (clusterConfiguration b) <? getClustermapRevno conn
       then packets conn else S (packets conn))) /\
  (exists conn',
      run_events sizeof_Request b (S n) conn = Some conn' /\
      getClustermapRevno conn' =
      Z.max (getClustermapRevno conn) (fst (clusterConfiguration b)) /\
      packets conn' =
      (if fst (clusterConfiguration b) <? getClustermapRevno conn
       then packets conn else (packets conn + S n)%nat)) /\
  (behind rev conn = true -> rev <= fst (clusterConfiguration b) ->
   exists conn',
     run_events sizeof_Request b
                (length (server_events (notify rev conn)))
                (notify rev conn)
     = Some conn' /\
     rev <= getClustermapRevno conn').
Proof.
  intros M. split; [| split].
  - destruct (push_eq sizeof_Request b conn M) as (c' & E & R & _ & _ & P).
    eauto.
  - revert conn M. induction n as [| n IH]; intros conn M.
    + destruct (push_eq sizeof_Request b conn M) as (c' & E & R & _ & _ & P).
      exists c'. simpl. rewrite E. repeat split; auto.
      rewrite P. destruct (_ <? _); [reflexivity | lia].
    + destruct (push_eq sizeof_Request b conn M) as (c' & E & R & M' & _ & P).
      destruct (IH c' M') as (c2 & E2 & R2 & P2).
      exists c2. cbn [run_events] in *. rewrite E. split; [exact E2 |].
      split; [rewrite R2, R; lia |].
      rewrite P2, P, R.
      destruct (Z.ltb_spec (fst (clusterConfiguration b))
                           (getClustermapRevno conn)) as [H | H].
      * rewrite Z.max_l by lia.
        destruct (Z.ltb_spec (fst (clusterConfiguration b))
                             (getClustermapRevno conn)); [reflexivity | lia].
      * rewrite Z.max_r by lia.
        destruct (Z.ltb_spec (fst (clusterConfiguration b))
                             (fst (clusterConfiguration b))); lia.
  - intros B H. unfold notify. rewrite B.
    assert (Q : length (server_events (queued conn))
                = S (length (server_events conn))).
    { unfold queued. simpl. rewrite length_app. simpl. lia. }
    rewrite Q.
    assert (G : forall k c, is_mcbp c = true ->
                exists c', run_events sizeof_Request b (S k) c = Some c' /\
                           fst (clusterConfiguration b)
                           <= getClustermapRevno c').
    { induction k as [| k IH]; intros c Mc.
      - destruct (push_eq sizeof_Request b c Mc) as (c' & E & R & _).
        exists c'. simpl. rewrite E. split; [reflexivity | lia].
      - destruct (push_eq sizeof_Request b c Mc) as (c' & E & R & M' & _).
        destruct (IH c' M') as (c2 & E2 & R2).
        exists c2. cbn [run_events] in *. rewrite E. auto. }
    destruct (G (length (server_events conn)) (queued conn) M)
      as (c' & E & R).
    exists c'. split; [exact E | lia].
Qed.

Definition bucket_at_7 : Bucket :=
  mkBucket "default"%string 1 0 (7, "{}"%string).

Lemma X20_push_witness :
  exists conn',
    push 24 bucket_at_7 conn_behind = Some (true, conn') /\
    getClustermapRevno conn' =
    Z.max (getClustermapRevno conn_behind)
          (fst (clusterConfiguration bucket_at_7)) /\
    packets conn' =
    (if fst (clusterConfiguration bucket_at_7)
        <? getClustermapRevno conn_behind
     then packets conn_behind else S (packets conn_behind)).
Proof.
  apply (X20_a_push_event_never_lowers_the_revision
           24 bucket_at_7 conn_behind 0 7).
  reflexivity.
Defined.

(** ** The reference the task holds on its bucket *)

(** X21.  A notification task holds one reference on its bucket from its
    construction to its destruction: the constructor adds one to the
    [clients] of the bucket at its index and touches no other bucket, the
    destructor takes it back, so that the count is what it was, and wakes
    the waiters on the bucket's condition variable exactly when the count
    is back at 0.  For an index outside [all_buckets] the constructor
    throws before any count is touched. *)
Theorem X21_the_task_holds_one_reference_on_its_bucket
        (all_buckets : list Bucket) (bucket_ revision_ : Z) :
  match construct all_buckets bucket_ revision_ with
  | None => bucket_ < 0 \/ Z.of_nat (length all_buckets) <= bucket_
  | Some (t, buckets) =>
      0 <= bucket_ < Z.of_nat (length all_buckets) /\
      bucketIndex t = bucket_ /\ revision t = revision_ /\
      length buckets = length all_buckets /\
      (forall i b, all_buckets !! i = Some b ->
                   buckets !! i =
                   Some (if decide (i = Z.to_nat bucket_)
                         then with_clients b (clients b + 1) else b)) /\
      (forall i b, all_buckets !! i = Some b ->
                   destroy t buckets !! i =
                   Some (if decide (i = Z.to_nat bucket_)
                         then mkBucket (name b) (clients b)
                                       (if clients b =? 0
                                        then S (notified b) else notified b)
                                       (clusterConfiguration b)
                         else b))
  end.
Proof.
  unfold construct, at_index.
  destruct (Z.ltb_spec bucket_ 0) as [N | N]; [now left |].
  destruct (all_buckets !! Z.to_nat bucket_) as [b0 |] eqn:L.
  - apply lookup_lt_Some in L. simpl.
    split; [lia |]. split; [reflexivity |]. split; [reflexivity |].
    split; [apply length_alter |]. split.
    + intros i b Hi. rewrite list_lookup_alter.
      destruct (decide (Z.to_nat bucket_ = i)) as [<- | Ne].
      * rewrite Hi. simpl. now destruct (decide _).
      * rewrite Hi. destruct (decide (i = Z.to_nat bucket_)); congruence.
    + intros i b Hi. unfold destroy. simpl.
      rewrite !list_lookup_alter.
      destruct (decide (Z.to_nat bucket_ = i)) as [<- | Ne].
      * rewrite Hi. simpl. destruct (decide _); [| congruence].
        destruct b as [nm cl nt cfg]. simpl.
        replace (cl + 1 - 1) with cl by lia.
        now destruct (cl =? 0).
      * rewrite Hi. destruct (decide (i = Z.to_nat bucket_)); congruence.
  - apply lookup_ge_None in L. right. lia.
Qed.

End CccpFacts.

(* ================================================================== *)
(** * Facts about the test suite support *)
(* ================================================================== *)

Module TestsuiteFacts.

Import Testsuite.

(** ** Searching in strings *)

(** The character occurs in the string. *)
Fixpoint occurs (c : Ascii.ascii) (s : string) : bool :=
  match s with
  | EmptyString => false
  | String a s' => Ascii.eqb a c || occurs c s'
  end.

Definition tail (s : string) : string :=
  match s with
  | EmptyString => EmptyString
  | String _ s' => s'
  end.

Lemma str_app_assoc (a b c : string) :
  ((a ++ b) ++ c)%string = (a ++ (b ++ c))%string.
Proof. induction a as [| x a IH]; simpl; [reflexivity | now rewrite IH]. Qed.

Lemma str_app_nil_r (a : string) : (a ++ "")%string = a.
Proof. induction a as [| x a IH]; simpl; [reflexivity | now rewrite IH]. Qed.

Lemma str_length_app (a b : string) :
  String.length (a ++ b) = (String.length a + String.length b)%nat.
Proof. induction a as [| x a IH]; simpl; [reflexivity | now rewrite IH]. Qed.

Lemma starts_with_length pat s :
  starts_with pat s = true -> (String.length pat <= String.length s)%nat.
Proof.
  revert s. induction pat as [| p pat IH]; intros s H; simpl; [lia |].
  destruct s as [| a s]; simpl in *; [discriminate |].
  apply andb_prop in H as [_ H]. specialize (IH s H). lia.
Qed.

Lemma starts_with_app pat s t :
  (String.length pat <= String.length s)%nat ->
  starts_with pat (s ++ t) = starts_with pat s.
Proof.
  revert s. induction pat as [| p pat IH]; intros s L; [reflexivity |].
  destruct s as [| a s]; simpl in *; [lia |].
  rewrite IH by lia. reflexivity.
Qed.

(** A match that needs the appended part reaches its first character. *)
Lemma starts_with_reaches pat s c t :
  starts_with pat (s ++ String c t) = true ->
  starts_with pat s = true \/ occurs c pat = true.
Proof.
  revert s. induction pat as [| p pat IH]; intros s H; [now left |].
  destruct s as [| a s]; simpl in *.
  - apply andb_prop in H as [E _]. right.
    apply Ascii.eqb_eq in E. subst p. now rewrite Ascii.eqb_refl.
  - apply andb_prop in H as [E H]. rewrite E. simpl.
    destruct (IH s H) as [P | O]; [now left |].
    right. rewrite O. apply orb_true_r.
Qed.

Lemma find_step pat a s :
  find pat (String a s) =
  if starts_with pat (String a s) then Some 0%nat
  else match find pat s with Some p => Some (S p) | None => None end.
Proof. reflexivity. Qed.

Lemma find_nil pat :
  find pat "" = if starts_with pat "" then Some 0%nat else None.
Proof. reflexivity. Qed.

(** An occurrence lies within the string. *)
Lemma find_Some_length pat s p :
  find pat s = Some p -> (p + String.length pat <= String.length s)%nat.
Proof.
  revert p. induction s as [| a s IH]; intros p.
  - rewrite find_nil. destruct (starts_with pat "") eqn:P; [| discriminate].
    intros [= <-]. now apply starts_with_length in P.
  - rewrite find_step.
    destruct (starts_with pat (String a s)) eqn:P.
    + intros [= <-]. now apply starts_with_length in P.
    + destruct (find pat s) as [q |]; [| discriminate].
      intros [= <-]. specialize (IH q eq_refl). simpl. lia.
Qed.

(** The first occurrence is not moved by what is appended. *)
Lemma find_Some_app pat s t p :
  find pat s = Some p -> find pat (s ++ t) = Some p.
Proof.
  revert p. induction s as [| a s IH]; intros p H.
  - pose proof (find_Some_length _ _ _ H) as L. simpl in L.
    destruct pat; [| simpl in L; lia].
    rewrite find_nil in H. simpl in H. injection H as <-.
    now destruct t.
  - pose proof (find_Some_length _ _ _ H) as L.
    cbn [String.append]. rewrite find_step in *.
    destruct (starts_with pat (String a s)) eqn:P.
    + injection H as <-.
      change (String a (s ++ t)) with (String a s ++ t)%string.
      rewrite starts_with_app by (now apply starts_with_length).
      now rewrite P.
    + destruct (find pat s) as [q |] eqn:F; [| discriminate].
      injection H as <-. rewrite (IH q eq_refl).
      change (String a (s ++ t)) with (String a s ++ t)%string.
      rewrite starts_with_app by (simpl in *; lia).
      now rewrite P.
Qed.

(** With no occurrence in [s], and a first appended character that the
    pattern does not hold after its first position, the first occurrence
    in [s ++ t] is the first one in [t]. *)
Lemma find_None_app pat s c t :
  find pat s = None -> occurs c (tail pat) = false ->
  find pat (s ++ String c t) =
  match find pat (String c t) with
  | Some p => Some (String.length s + p)%nat
  | None => None
  end.
Proof.
  intros H O. induction s as [| a s IH].
  - change ("" ++ String c t)%string with (String c t).
    destruct (find pat (String c t)); reflexivity.
  - rewrite find_step in H.
    destruct (starts_with pat (String a s)) eqn:P; [discriminate |].
    destruct (find pat s) as [q |] eqn:F; [discriminate |].
    cbn [String.append]. rewrite find_step, (IH eq_refl).
    assert (P' : starts_with pat (String a (s ++ String c t)) = false).
    { destruct pat as [| p0 pat]; [discriminate |].
      simpl in *. destruct (Ascii.eqb p0 a); [| reflexivity]. simpl in *.
      destruct (starts_with pat (s ++ String c t)) eqn:Q; [| reflexivity].
      destruct (starts_with_reaches _ _ _ _ Q); congruence. }
    rewrite P'. now destruct (find pat (String c t)).
Qed.

Lemma find_None_app_nil pat s t :
  find pat s = None -> starts_with pat t = true -> pat <> ""%string ->
  occurs (match t with String c _ => c | EmptyString => Ascii.zero end)
         (tail pat) = false ->
  find pat (s ++ t) = Some (String.length s).
Proof.
  intros H P N O. destruct t as [| c t].
  - destruct pat; [congruence | discriminate].
  - rewrite (find_None_app pat s c t H O). rewrite find_step, P.
    f_equal. lia.
Qed.

(** ** Taking and skipping *)

Lemma str_skip_app n s t :
  (n <= String.length s)%nat ->
  str_skip n (s ++ t) = (str_skip n s ++ t)%string.
Proof.
  revert s. induction n as [| n IH]; intros s L; [reflexivity |].
  destruct s as [| a s]; simpl in *; [lia |]. apply IH. lia.
Qed.

Lemma str_skip_length s t : str_skip (String.length s) (s ++ t) = t.
Proof. induction s as [| a s IH]; simpl; [now destruct t | exact IH]. Qed.

Lemma str_skip_add n m s : str_skip (n + m) s = str_skip m (str_skip n s).
Proof.
  revert s. induction n as [| n IH]; intros s; [reflexivity |].
  destruct s as [| a s]; simpl; [now destruct m | apply IH].
Qed.

Lemma str_take_app n s t :
  (n <= String.length s)%nat -> str_take n (s ++ t) = str_take n s.
Proof.
  revert s. induction n as [| n IH]; intros s L; [reflexivity |].
  destruct s as [| a s]; simpl in *; [lia |]. rewrite IH by lia.
  reflexivity.
Qed.

Lemma str_take_length s t : str_take (String.length s) (s ++ t) = s.
Proof. induction s as [| a s IH]; simpl; [reflexivity | now rewrite IH]. Qed.

Lemma str_take_skip n s : (str_take n s ++ str_skip n s)%string = s.
Proof.
  revert s. induction n as [| n IH]; intros s; [reflexivity |].
  destruct s as [| a s]; simpl; [reflexivity | now rewrite IH].
Qed.

Lemma str_take_length_le n s :
  (n <= String.length s)%nat -> String.length (str_take n s) = n.
Proof.
  revert s. induction n as [| n IH]; intros s L; [reflexivity |].
  destruct s as [| a s]; simpl in *; [lia |]. rewrite IH by lia.
  reflexivity.
Qed.

(** ** Occurrences as decompositions *)

Lemma starts_with_split pat s :
  starts_with pat s = true ->
  s = (pat ++ str_skip (String.length pat) s)%string.
Proof.
  revert s. induction pat as [| p pat IH]; intros s H; [reflexivity |].
  destruct s as [| a s]; simpl in *; [discriminate |].
  apply andb_prop in H as [E H]. apply Ascii.eqb_eq in E. subst a.
  f_equal. now apply IH.
Qed.

Lemma starts_with_refl pat t : starts_with pat (pat ++ t) = true.
Proof.
  induction pat as [| p pat IH]; [reflexivity |].
  simpl. now rewrite Ascii.eqb_refl, IH.
Qed.

Lemma starts_with_self pat : starts_with pat pat = true.
Proof.
  induction pat as [| p pat IH]; [reflexivity |].
  simpl. now rewrite Ascii.eqb_refl, IH.
Qed.

(** An occurrence of [pat] at the end of [pre ++ pat] that is the first
    one. *)
Definition first_at (pat pre : string) : Prop :=
  find pat (pre ++ pat) = Some (String.length pre).

Lemma find_split pat s p :
  find pat s = Some p ->
  exists pre rest,
    s = (pre ++ pat ++ rest)%string /\ String.length pre = p /\
    first_at pat pre.
Proof.
  revert p. induction s as [| a s IH]; intros p.
  - rewrite find_nil. destruct (starts_with pat "") eqn:P; [| discriminate].
    intros [= <-]. destruct pat; [| discriminate].
    exists ""%string, ""%string. repeat split.
  - rewrite find_step.
    destruct (starts_with pat (String a s)) eqn:P.
    + intros [= <-].
      exists ""%string, (str_skip (String.length pat) (String a s)).
      split; [now apply starts_with_split |]. split; [reflexivity |].
      unfold first_at. change ("" ++ pat)%string with pat.
      destruct pat as [| p0 pat]; [reflexivity |].
      now rewrite find_step, starts_with_self.
    + destruct (find pat s) as [q |] eqn:F; [| discriminate].
      intros [= <-].
      destruct (IH q eq_refl) as (pre & rest & -> & <- & FA).
      exists (String a pre), rest. repeat split.
      unfold first_at in *. cbn [String.append String.length].
      rewrite find_step, FA.
      assert (E : String a (pre ++ pat ++ rest)
                  = (String a (pre ++ pat) ++ rest)%string)
        by (simpl; now rewrite str_app_assoc).
      rewrite E in P.
      rewrite starts_with_app in P by (simpl; rewrite str_length_app; lia).
      now rewrite P.
Qed.

Lemma first_at_find pat pre rest :
  first_at pat pre ->
  find pat (pre ++ pat ++ rest) = Some (String.length pre).
Proof.
  intros FA. rewrite <- str_app_assoc. now apply find_Some_app.
Qed.

(** A single character: the first occurrence in [a ++ b]. *)
Lemma find_char_app c a b :
  find (String c "") (a ++ b) =
  match find (String c "") a with
  | Some e => Some e
  | None =>
      match find (String c "") b with
      | Some e => Some (String.length a + e)%nat
      | None => None
      end
  end.
Proof.
  destruct (find (String c "") a) as [e |] eqn:Fa.
  - now apply find_Some_app.
  - destruct b as [| x b].
    + now rewrite str_app_nil_r, Fa.
    + now apply find_None_app.
Qed.

Lemma find_char_split c s e :
  find (String c "") s = Some e ->
  exists name rest,
    s = (name ++ String c rest)%string /\ String.length name = e /\
    find (String c "") name = None.
Proof.
  revert e. induction s as [| a s IH]; intros e; [discriminate |].
  rewrite find_step. simpl.
  destruct (Ascii.eqb_spec c a) as [<- | Ne]; simpl.
  - intros [= <-]. exists ""%string, s. repeat split.
  - destruct (find (String c "") s) as [q |] eqn:F; [| discriminate].
    intros [= <-]. destruct (IH q eq_refl) as (name & rest & -> & <- & N).
    exists (String a name), rest. repeat split.
    rewrite find_step. simpl.
    destruct (Ascii.eqb_spec c a); [congruence |]. simpl. now rewrite N.
Qed.

(** ** [get_dbname] *)

(** The name at the head of the text that follows ["dbname="]. *)
Definition name_of (rest : string) : string :=
  match find ";" rest with
  | Some e => str_take e rest
  | None => rest
  end.

Lemma get_dbname_eq env cfg :
  get_dbname env (Some cfg) =
  match find "dbname=" cfg with
  | None => env
  | Some nm => name_of (str_skip (nm + 7) cfg)
  end.
Proof. reflexivity. Qed.

Lemma name_of_closed name rest :
  find ";" name = None -> name_of (name ++ ";" ++ rest) = name.
Proof.
  intros N. unfold name_of. cbn [String.append].
  rewrite find_char_app, N. simpl. rewrite Nat.add_0_r.
  apply str_take_length.
Qed.

Lemma name_of_open name : find ";" name = None -> name_of name = name.
Proof. intros N. unfold name_of. now rewrite N. Qed.

Lemma name_of_semicolon rest t :
  name_of (rest ++ ";" ++ t) = name_of rest.
Proof.
  unfold name_of at 2. destruct (find ";" rest) as [e |] eqn:F.
  - destruct (find_char_split _ _ _ F) as (name & r2 & -> & <- & N).
    rewrite str_app_assoc.
    refine (eq_trans (name_of_closed name (r2 ++ ";" ++ t) N) _).
    now rewrite str_take_length.
  - now apply name_of_closed.
Qed.

(** The database name of a configuration with a first ["dbname="]. *)
Lemma get_dbname_at env pre rest :
  first_at "dbname=" pre ->
  get_dbname env (Some (pre ++ "dbname=" ++ rest)%string) = name_of rest.
Proof.
  intros FA. rewrite get_dbname_eq, (first_at_find _ _ rest FA).
  rewrite str_skip_add, str_skip_length. reflexivity.
Qed.

Lemma first_at_None_sep c :
  find "dbname=" c = None -> first_at "dbname=" (c ++ ";").
Proof.
  intros N. unfold first_at. rewrite str_app_assoc. cbn [String.append].
  rewrite find_None_app; [| exact N | reflexivity].
  rewrite str_length_app. simpl. reflexivity.
Qed.

Lemma first_at_None c :
  find "dbname=" c = None -> first_at "dbname=" c.
Proof.
  intros N. unfold first_at.
  exact (find_None_app_nil "dbname=" c "dbname=" N eq_refl
                           ltac:(discriminate) eq_refl).
Qed.

(** X22.  Every test gets a database name.  The configuration
    [BaseTestCase::getTest] builds is never null.  It is the test's own
    configuration closed by a [';'] (["flushall_enabled=true;"] when the
    test has none), followed by ["dbname="], [default_dbname] and [';']
    when the test has no configuration or one without ["dbname="].  So it
    names a database: [get_dbname] reads from it the name the test's
    configuration gives after its first ["dbname="], or [default_dbname],
    and never falls back on the [EP_TEST_DIR] directory.  The name of
    the test is marked " (skipped)", with [skipped_test_function] as its
    function, or " (couchstore)".  ([default_dbname] is taken to hold no
    [';'].) *)
Theorem X22_getTest_names_the_database
        (F : Type) (default_dbname dbname_env name : string)
        (tc : BaseTestCase F) :
  tc_name tc = Some name ->
  find ";" default_dbname = None ->
  exists t config,
    getTest default_dbname tc = Some t /\
    test_cfg t = Some config /\
    config =
    match tc_cfg tc with
    | Some cfg =>
        match find "dbname=" cfg with
        | Some _ => (cfg ++ ";")%string
        | None => ((cfg ++ ";") ++ "dbname=" ++ default_dbname ++ ";")%string
        end
    | None =>
        ("flushall_enabled=true;" ++ "dbname=" ++ default_dbname ++ ";")%string
    end /\
    find "dbname=" config <> None /\
    get_dbname dbname_env (test_cfg t) =
    get_dbname default_dbname (tc_cfg tc) /\
    test_name t =
    (name ++ (if tc_skip tc then " (skipped)" else " (couchstore)"))%string /\
    tfun t = (if tc_skip tc then skipped_test_function
              else given (tc_tfun tc)).
Proof.
  intros Hn Hd. unfold getTest. rewrite Hn.
  assert (NE : forall s, (String.length (s ++ ";") =? 0)%nat = false).
  { intros s. rewrite str_length_app. simpl.
    apply Nat.eqb_neq. lia. }
  assert (R : forall pre rest,
             first_at "dbname=" pre ->
             find "dbname=" (pre ++ "dbname=" ++ rest) <> None).
  { intros pre rest FA. now rewrite (first_at_find _ _ rest FA). }
  destruct (tc_cfg tc) as [c |] eqn:C.
  - destruct (find "dbname=" c) as [p |] eqn:Fc.
    + destruct (find_split _ _ _ Fc) as (pre & rest & -> & <- & FA).
      eexists _, _. split; [reflexivity |]. cbn [test_cfg test_name tfun].
      rewrite NE. split; [reflexivity |].
      split; [reflexivity |].
      rewrite !str_app_assoc.
      split; [now apply R |]. split.
      * rewrite !(get_dbname_at _ _ _ FA).
        exact (name_of_semicolon rest "").
      * split; now destruct (tc_skip tc).
    + eexists _, _. split; [reflexivity |]. cbn [test_cfg test_name tfun].
      assert (E : ((c ++ ";") ++ "dbname=" ++ default_dbname ++ ";")%string
                  = ((c ++ ";") ++ "dbname=" ++ (default_dbname ++ ";"))%string)
        by reflexivity.
      rewrite <- (str_app_assoc "dbname=" default_dbname ";") in E.
      pose proof (first_at_None_sep c Fc) as FA.
      assert (L : (String.length
                     ((c ++ ";") ++ "dbname=" ++ default_dbname ++ ";")
                   =? 0)%nat = false).
      { rewrite str_length_app, str_length_app. simpl.
        apply Nat.eqb_neq. lia. }
      rewrite L. split; [reflexivity |].
      split; [reflexivity |].
      split; [now apply R |]. split.
      * rewrite (get_dbname_at _ _ _ FA), get_dbname_eq, Fc.
        now apply name_of_closed.
      * split; now destruct (tc_skip tc).
  - eexists _, _. split; [reflexivity |]. cbn [test_cfg test_name tfun].
    assert (FA : first_at "dbname=" "flushall_enabled=true;") by reflexivity.
    assert (L : (String.length
                   ("flushall_enabled=true;" ++ "dbname=" ++
                    default_dbname ++ ";")
                 =? 0)%nat = false) by reflexivity.
    rewrite L. split; [reflexivity |].
    split; [reflexivity |].
    split; [now apply R |]. split.
    + rewrite (get_dbname_at _ _ _ FA). simpl.
      now apply name_of_closed.
    + split; now destruct (tc_skip tc).
Qed.

(** A test with its own database, and one without a configuration. *)
Definition own_db_test : BaseTestCase nat :=
  mkTestCase (Some "expiry"%string)
             (Some "max_size=100;dbname=/tmp/own;backend=couchdb"%string)
             false 7%nat.

Lemma X22_getTest_witness :
  exists t config,
    getTest "/tmp/test" own_db_test = Some t /\
    test_cfg t = Some config /\
    config =
    match tc_cfg own_db_test with
    | Some cfg =>
        match find "dbname=" cfg with
        | Some _ => (cfg ++ ";")%string
        | None => ((cfg ++ ";") ++ "dbname=" ++ "/tmp/test" ++ ";")%string
        end
    | None =>
        ("flushall_enabled=true;" ++ "dbname=" ++ "/tmp/test" ++ ";")%string
    end /\
    find "dbname=" config <> None /\
    get_dbname "/env/dir" (test_cfg t) =
    get_dbname "/tmp/test" (tc_cfg own_db_test) /\
    test_name t =
    ("expiry" ++ (if tc_skip own_db_test then " (skipped)"
                  else " (couchstore)"))%string /\
    tfun t = (if tc_skip own_db_test then skipped_test_function
              else given (tc_tfun own_db_test)).
Proof.
  apply (X22_getTest_names_the_database
           nat "/tmp/test" "/env/dir" "expiry" own_db_test).
  - reflexivity.
  - reflexivity.
Defined.

Example own_db_test_dbname :
  get_dbname "/env/dir"
             (match getTest "/tmp/test" own_db_test with
              | Some t => test_cfg t
              | None => None
              end)
  = "/tmp/own"%string.
Proof. reflexivity. Qed.

(** ** The configurations of [create_buckets] *)

Lemma find_from_app pat pre s :
  find_from pat (pre ++ s) (String.length pre) =
  match find pat s with
  | Some p => Some (String.length pre + p)%nat
  | None => None
  end.
Proof.
  induction pre as [| a pre IH]; simpl.
  - now destruct (find pat s).
  - rewrite IH. now destruct (find pat s).
Qed.

Lemma uint_no_semicolon d : find ";" (NilEmpty.string_of_uint d) = None.
Proof.
  induction d; simpl; [reflexivity | ..]; now rewrite IHd.
Qed.

Lemma to_string_no_semicolon ii : find ";" (to_string ii) = None.
Proof.
  unfold to_string, NilZero.string_of_int, NilZero.string_of_uint.
  destruct (Z.to_int ii) as [d | d]; destruct d;
    try reflexivity; simpl; now rewrite uint_no_semicolon.
Qed.

Lemma no_semicolon_app a b :
  find ";" a = None -> find ";" b = None -> find ";" (a ++ b) = None.
Proof. intros A B. now rewrite find_char_app, A, B. Qed.

Lemma insert_at a b t :
  insert (String.length a) t (a ++ b) = (a ++ t ++ b)%string.
Proof. unfold insert. now rewrite str_take_length, str_skip_length. Qed.

Lemma unsome (a b : string) : Some a = Some b -> a = b.
Proof. now intros [= ->]. Qed.

(** The database name of the configuration of bucket [ii] is the path
    [create_buckets] clears and records for it. *)
Lemma bucket_config_dbname env cfg ii config :
  find ";" env = None ->
  bucket_config cfg (get_dbname env (Some cfg) ++ to_string ii) ii
  = Some config ->
  get_dbname env (Some config) =
  (get_dbname env (Some cfg) ++ to_string ii)%string.
Proof.
  intros He. unfold bucket_config.
  destruct (find "dbname=" cfg) as [pos |] eqn:Fc.
  - destruct (find_split _ _ _ Fc) as (pre & rest & -> & <- & FA).
    rewrite find_from_app.
    assert (F7 : find ";" ("dbname=" ++ rest) =
                 match find ";" rest with
                 | Some e => Some (7 + e)%nat
                 | None => None
                 end).
    { cbn [String.append]. rewrite !find_step. simpl.
      now destruct (find ";" rest). }
    rewrite F7. destruct (find ";" rest) as [e |] eqn:Fr; [| discriminate].
    destruct (find_char_split _ _ _ Fr) as (name & rest2 & -> & <- & N).
    clear Fc Fr F7. intros E. apply unsome in E. rewrite <- E. clear E.
    rewrite (get_dbname_at env pre _ FA).
    remember (String _ rest2) as tl eqn:Etl.
    assert (Len : (String.length pre + (7 + String.length name))%nat
                  = String.length (pre ++ "dbname=" ++ name)).
    { rewrite !str_length_app. reflexivity. }
    rewrite Len.
    replace (pre ++ "dbname=" ++ name ++ tl)%string
      with ((pre ++ "dbname=" ++ name) ++ tl)%string
      by now rewrite !str_app_assoc.
    rewrite insert_at.
    replace ((pre ++ "dbname=" ++ name) ++ to_string ii ++ tl)%string
      with (pre ++ "dbname=" ++ (name ++ to_string ii) ++ tl)%string
      by now rewrite !str_app_assoc.
    rewrite (get_dbname_at env pre _ FA). subst tl.
    rewrite (name_of_closed name rest2 N
             : name_of (name ++ String _ rest2) = name).
    exact (name_of_closed (name ++ to_string ii) rest2
             (no_semicolon_app _ _ N (to_string_no_semicolon ii))).
  - intros E. apply unsome in E. rewrite <- E. clear E.
    assert (Ee : get_dbname env (Some cfg) = env).
    { now rewrite get_dbname_eq, Fc. }
    rewrite Ee, (get_dbname_at env cfg _ (first_at_None cfg Fc)).
    apply name_of_open, no_semicolon_app; [exact He |].
    apply to_string_no_semicolon.
Qed.

(** The paths [rmrf] was asked to remove, and the configurations
    [create_bucket] was called with. *)
Definition removed (log : list fs_event) : list string :=
  omap (fun e => match e with Rmrf p => Some p | _ => None end) log.

Definition created (log : list fs_event) : list string :=
  omap (fun e => match e with CreateBucket c => Some c | _ => None end) log.

Lemma removed_app a b : removed (a ++ b) = removed a ++ removed b.
Proof. apply omap_app. Qed.

Lemma created_app a b : created (a ++ b) = created a ++ created b.
Proof. apply omap_app. Qed.

Section Buckets.

Variable handle : Type.
Variable rmrf : list fs_event -> string -> option Z.
Variable access : list fs_event -> string -> bool.
Variable create_bucket : list fs_event -> string -> option handle.

(** What [rmdb] inside its [try] adds to the log. *)
Lemma rmdb_unless_missing_log path log r :
  rmdb_unless_missing rmrf access path log = r ->
  match r with
  | Returned _ log' =>
      exists ev, log' = log ++ ev /\ removed ev = [path] /\ created ev = []
  | SystemError code log' =>
      rmrf log path = Some code /\ code <> ENOENT /\ log' = log ++ [Rmrf path]
  | OutOfRange _ => False
  end.
Proof.
  intros <-. unfold rmdb_unless_missing, rmdb.
  destruct (rmrf log path) as [code |].
  - destruct (Z.eqb_spec code ENOENT) as [-> | Ne].
    + now exists [Rmrf path].
    + easy.
  - destruct (access _ path);
      (exists [Rmrf path; Access path]; split;
       [now rewrite <- app_assoc | easy]).
Qed.

(** Whether [str_cfg.insert] throws does not depend on the bucket. *)
Lemma bucket_config_None cfg dbpath ii :
  bucket_config cfg dbpath ii = None <->
  exists pos, find "dbname=" cfg = Some pos /\ find_from ";" cfg pos = None.
Proof.
  unfold bucket_config. destruct (find "dbname=" cfg) as [pos |].
  - destruct (find_from ";" cfg pos) eqn:E.
    + split; [discriminate |]. intros (p & [= <-] & F). congruence.
    + split; [| reflexivity]. intros _. now exists pos.
  - split; [discriminate |]. now intros (p & ? & _).
Qed.

(** The paths of the buckets [ii], [ii + 1], ... *)
Definition paths (dbname : string) (ii : Z) (n : nat) : list string :=
  map (fun k => (dbname ++ to_string (ii + Z.of_nat k))%string) (seq 0 n).

Lemma paths_S dbname ii n :
  paths dbname ii (S n) =
  (dbname ++ to_string ii)%string :: paths dbname (ii + 1) n.
Proof.
  unfold paths. cbn [seq map]. rewrite Z.add_0_r. f_equal.
  rewrite <- seq_shift, map_map. apply map_ext. intros k.
  do 2 f_equal. lia.
Qed.

Lemma create_buckets_loop_returned env cfg remaining :
  find ";" env = None ->
  forall ii n_buckets buckets log k buckets' log',
    create_buckets_loop rmrf access create_bucket cfg
      (get_dbname env (Some cfg)) remaining ii n_buckets buckets log
    = Returned (k, buckets') log' ->
    n_buckets = ii + Z.of_nat remaining ->
    exists new ev,
      buckets' = buckets ++ new /\ log' = log ++ ev /\
      k = ii + Z.of_nat (length new) /\ k <= n_buckets /\
      map dbpath new = paths (get_dbname env (Some cfg)) ii (length new) /\
      map (fun c => get_dbname env (Some c)) (created ev) = removed ev /\
      map dbpath new = take (length new) (removed ev).
Proof.
  intros He. induction remaining as [| remaining IH];
    intros ii n_buckets buckets log k buckets' log' R En.
  - injection R as <- <- <-. exists [], [].
    rewrite !app_nil_r. simpl. repeat split; lia.
  - cbn [create_buckets_loop] in R.
    destruct (bucket_config cfg _ ii) as [config |] eqn:B; [| discriminate].
    pose proof (bucket_config_dbname env cfg ii config He B) as D.
    destruct (rmdb_unless_missing rmrf access _ log) as [u l1 | |] eqn:Rm;
      [| discriminate | discriminate].
    apply rmdb_unless_missing_log in Rm.
    destruct Rm as (ev1 & -> & Rv & Cr).
    destruct (create_bucket _ config) as [hd |].
    + apply IH in R; [| lia].
      destruct R as (new & ev & -> & -> & -> & Le & P & C & T).
      exists (mkBucketHolder hd (get_dbname env (Some cfg) ++ to_string ii)
              :: new), (ev1 ++ CreateBucket config :: ev).
      rewrite <- !app_assoc. cbn [app length].
      rewrite !created_app, !removed_app, Rv, Cr. cbn [app].
      change (created (CreateBucket config :: ev))
        with (config :: created ev).
      change (removed (CreateBucket config :: ev)) with (removed ev).
      repeat split; try lia.
      * cbn [map dbpath]. now rewrite paths_S, P.
      * cbn [map]. rewrite C. f_equal. exact D.
      * cbn [map dbpath take]. now rewrite T.
    + injection R as <- <- <-. exists [], (ev1 ++ [CreateBucket config]).
      rewrite app_nil_r, <- app_assoc.
      rewrite !created_app, !removed_app, Rv, Cr.
      change (created [CreateBucket config]) with [config].
      change (removed [CreateBucket config]) with (@nil string).
      cbn [app map length take].
      repeat split; try lia. f_equal. exact D.
Qed.

(** X23.  [create_buckets] gives every bucket a database of its own.
    When it returns, the count it returns is the number of holders it
    appended, at most [n_buckets]; bucket [i] is recorded with the
    database name of [cfg] followed by the number [i]; and the database
    name of every configuration handed to [create_bucket] is the path
    removed just before, which is the one recorded in the holder.
    ([dbname_env] is taken to hold no [';'].) *)
Theorem X23_create_buckets_gives_each_bucket_its_own_database
        (dbname_env cfg : string) (n_buckets : Z)
        (buckets : list (BucketHolder handle)) (log : list fs_event)
        (k : Z) (buckets' : list (BucketHolder handle))
        (log' : list fs_event) :
  find ";" dbname_env = None ->
  0 <= n_buckets ->
  create_buckets rmrf access create_bucket dbname_env cfg n_buckets
                 buckets log
  = Returned (k, buckets') log' ->
  exists new ev,
    buckets' = buckets ++ new /\ log' = log ++ ev /\
    k = Z.of_nat (length new) /\ k <= n_buckets /\
    map dbpath new =
    paths (get_dbname dbname_env (Some cfg)) 0 (length new) /\
    map (fun c => get_dbname dbname_env (Some c)) (created ev)
    = removed ev /\
    map dbpath new = take (length new) (removed ev).
Proof.
  intros He Hn R. unfold create_buckets in R.
  apply (create_buckets_loop_returned dbname_env cfg _ He) in R; [| lia].
  destruct R as (new & ev & ? & ? & ? & ? & ? & ? & ?).
  exists new, ev. repeat split; trivial; lia.
Qed.

Lemma create_buckets_loop_throws env cfg remaining :
  forall ii n_buckets buckets log log',
    create_buckets_loop rmrf access create_bucket cfg
      (get_dbname env (Some cfg)) remaining ii n_buckets buckets log
    = OutOfRange log' ->
    bucket_config cfg "" 0 = None /\ log' = log.
Proof.
  induction remaining as [| remaining IH];
    intros ii n_buckets buckets log log' R; [discriminate |].
  cbn [create_buckets_loop] in R.
  destruct (bucket_config cfg _ ii) as [config |] eqn:B.
  - exfalso.
    destruct (rmdb_unless_missing rmrf access _ log) as [u l1 | |] eqn:Rm;
      [| discriminate |].
    + destruct (create_bucket _ config); [| discriminate].
      apply IH in R as (N & _).
      apply bucket_config_None in N.
      apply (bucket_config_None cfg
               (get_dbname env (Some cfg) ++ to_string ii) ii) in N.
      congruence.
    + now apply rmdb_unless_missing_log in Rm.
  - injection R as <-. split; [| reflexivity].
    apply bucket_config_None. now apply bucket_config_None in B.
Qed.

(** X24.  [create_buckets] throws [std::out_of_range] exactly when it is
    asked for a bucket and no [';'] follows the ["dbname="] of [cfg].  It
    then throws in its first round, before [rmdb] or [create_bucket] is
    called: nothing has been asked of the file system or the harness. *)
Theorem X24_create_buckets_needs_a_closed_dbname
        (dbname_env cfg : string) (n_buckets : Z)
        (buckets : list (BucketHolder handle)) (log : list fs_event) :
  (create_buckets rmrf access create_bucket dbname_env cfg n_buckets
                  buckets log = OutOfRange log <->
   0 < n_buckets /\
   exists pos,
     find "dbname=" cfg = Some pos /\ find_from ";" cfg pos = None) /\
  (forall log',
      create_buckets rmrf access create_bucket dbname_env cfg n_buckets
                     buckets log = OutOfRange log' ->
      log' = log).
Proof.
  unfold create_buckets. split; [split |].
  - intros R. split.
    + destruct (Z.to_nat n_buckets) eqn:E; [discriminate | lia].
    + apply create_buckets_loop_throws in R as (R & _).
      now apply bucket_config_None in R.
  - intros (Hn & B).
    destruct (Z.to_nat n_buckets) eqn:E; [lia |].
    cbn [create_buckets_loop].
    now rewrite (proj2 (bucket_config_None cfg _ 0) B).
  - intros log' R. now apply create_buckets_loop_throws in R as (_ & ->).
Qed.

End Buckets.

(** Two of three buckets are created in directories that did not exist;
    the harness refuses the third. *)
Definition no_directory (_ : list fs_event) (_ : string) : option Z :=
  Some ENOENT.

Definition never_there (_ : list fs_event) (_ : string) : bool := false.

Definition two_handles (log : list fs_event) (_ : string) : option nat :=
  if (length (created log) <? 2)%nat then Some (length log) else None.

Definition two_of_three : ending (Z * list (BucketHolder nat)) :=
  Eval vm_compute in
    create_buckets no_directory never_there two_handles
                   "/env" "dbname=/tmp/db;max_size=1" 3 [] [].

Definition two_of_three_count : Z :=
  Eval vm_compute in
    match two_of_three with Returned (k, _) _ => k | _ => 0 end.

Definition two_of_three_buckets : list (BucketHolder nat) :=
  Eval vm_compute in
    match two_of_three with Returned (_, b) _ => b | _ => [] end.

Definition two_of_three_log : list fs_event :=
  Eval vm_compute in
    match two_of_three with Returned _ l => l
                       | SystemError _ l => l
                       | OutOfRange l => l
    end.

Lemma X23_create_buckets_witness :
  exists new ev,
    two_of_three_buckets = [] ++ new /\ two_of_three_log = [] ++ ev /\
    two_of_three_count = Z.of_nat (length new) /\
    two_of_three_count <= 3 /\
    map dbpath new =
    paths (get_dbname "/env" (Some "dbname=/tmp/db;max_size=1"%string)) 0
          (length new) /\
    map (fun c => get_dbname "/env" (Some c)) (created ev) = removed ev /\
    map dbpath new = take (length new) (removed ev).
Proof.
  apply (X23_create_buckets_gives_each_bucket_its_own_database
           nat no_directory never_there two_handles
           "/env" "dbname=/tmp/db;max_size=1" 3 [] []
           two_of_three_count two_of_three_buckets two_of_three_log).
  - reflexivity.
  - lia.
  - vm_compute. reflexivity.
Defined.

Example two_of_three_paths :
  two_of_three_count = 2 /\
  map dbpath two_of_three_buckets = ["/tmp/db0"; "/tmp/db1"]%string /\
  created two_of_three_log =
  ["dbname=/tmp/db0;max_size=1"; "dbname=/tmp/db1;max_size=1";
   "dbname=/tmp/db2;max_size=1"]%string.
Proof. vm_compute. repeat split. Qed.

Example open_dbname_throws :
  create_buckets no_directory never_there two_handles
                 "/env" "max_size=1;dbname=/tmp/db" 3 [] []
  = OutOfRange [].
Proof. vm_compute. reflexivity. Qed.

(** ** The tests [get_tests] returns *)

Section GetTests.

Variable default_dbname : string.
Variable F : Type.

(** The entries before the terminator have names; the terminator has
    none. *)
Lemma count_tests_named (tcs : list (BaseTestCase F)) num :
  count_tests tcs = Some num ->
  (forall j, (j < num)%nat ->
             exists tc name, tcs !! j = Some tc /\ tc_name tc = Some name) /\
  exists tc, tcs !! num = Some tc /\ tc_name tc = None.
Proof.
  revert num. induction tcs as [| tc tcs IH]; intros num; [discriminate |].
  cbn [count_tests]. destruct (tc_name tc) as [name |] eqn:N.
  - destruct (count_tests tcs) as [n |]; [| discriminate].
    intros [= <-]. destruct (IH n eq_refl) as (A & B). split.
    + intros [| j] Hj; [now exists tc, name |].
      apply (A j). lia.
    + exact B.
  - intros [= <-]. split; [lia |]. now exists tc.
Qed.

Lemma getTest_named (tc : BaseTestCase F) name :
  tc_name tc = Some name -> exists r, getTest default_dbname tc = Some r.
Proof. intros N. unfold getTest. rewrite N. eauto. Qed.

Lemma getTest_unnamed (tc : BaseTestCase F) :
  tc_name tc = None -> getTest default_dbname tc = None.
Proof. intros N. unfold getTest. now rewrite N. Qed.

(** The loop over all the tests. *)
Lemma all_tests_all (tcs : list (BaseTestCase F)) num n :
  count_tests tcs = Some num -> (n <= num)%nat ->
  exists rs,
    all_tests default_dbname n tcs = Some rs /\
    Forall2 (fun tc r => getTest default_dbname tc = Some r)
            (take n tcs) rs.
Proof.
  revert num n. induction tcs as [| tc tcs IH]; intros num n;
    [discriminate |].
  cbn [count_tests]. destruct n as [| n].
  - intros _ _. exists []. split; [reflexivity | constructor].
  - destruct (tc_name tc) as [name |] eqn:N.
    + destruct (count_tests tcs) as [m |] eqn:C; [| discriminate].
      intros [= <-] Le.
      assert (Le' : (n <= m)%nat) by lia.
      destruct (IH m n eq_refl Le') as (rs & A & B).
      destruct (getTest_named tc name N) as (r & G).
      exists (r :: rs). cbn [all_tests take]. rewrite G, A.
      split; [reflexivity | now constructor].
    + intros [= <-]. lia.
Qed.

(** X25.  Which tests [get_tests] returns, for an array of [num] tests
    and its terminator, [EP_TEST_NUM] being a number that fits an [int].
    From 0 to [num - 1] it selects that one test; unset, negative or above
    [num] it selects all [num] tests, in the order of the array.  But
    [EP_TEST_NUM] equal to [num] passes the check [oneTestIdx > num], and
    [getTest] is then called on the terminator, whose name is null.  For a
    number that does not fit an [int] the conversion of [sscanf] is
    undefined, and so is what [get_tests] returns. *)
Theorem X25_get_tests_selects_by_EP_TEST_NUM
        (tcs : list (BaseTestCase F)) (num : nat) (EP_TEST_NUM : option Z) :
  count_tests tcs = Some num ->
  Z.of_nat num <= INT_MAX ->
  (forall i, EP_TEST_NUM = Some i -> 0 <= i < Z.of_nat num ->
     exists tc r,
       tcs !! Z.to_nat i = Some tc /\
       getTest default_dbname tc = Some r /\
       get_tests default_dbname tcs EP_TEST_NUM = Some [r]) /\
  (EP_TEST_NUM = Some (Z.of_nat num) ->
     get_tests default_dbname tcs EP_TEST_NUM = None) /\
  ((forall i, EP_TEST_NUM = Some i ->
              INT_MIN <= i < 0 \/ Z.of_nat num < i <= INT_MAX) ->
     exists rs,
       get_tests default_dbname tcs EP_TEST_NUM = Some rs /\
       Forall2 (fun tc r => getTest default_dbname tc = Some r)
               (take num tcs) rs) /\
  (forall i, EP_TEST_NUM = Some i -> i < INT_MIN \/ INT_MAX < i ->
     get_tests default_dbname tcs EP_TEST_NUM = None).
Proof.
  intros C Hn. destruct (count_tests_named tcs num C) as (Named & Last).
  unfold get_tests. rewrite C.
  rewrite (proj2 (Z.ltb_ge INT_MAX (Z.of_nat num)) Hn).
  assert (In_range : forall i, INT_MIN <= i <= INT_MAX ->
                               scanned (Some i) = Some i).
  { intros i Hi. unfold scanned.
    rewrite (proj2 (Z.ltb_ge i INT_MIN)) by lia.
    now rewrite (proj2 (Z.ltb_ge INT_MAX i)) by lia. }
  assert (Hmin : INT_MIN < 0) by reflexivity.
  split; [| split; [| split]].
  - intros i -> Hi. rewrite In_range by lia.
    assert (Lt : (Z.to_nat i < num)%nat) by lia.
    destruct (Named _ Lt) as (tc & name & L & N).
    destruct (getTest_named tc name N) as (r & G).
    exists tc, r. split; [exact L |]. split; [exact G |].
    rewrite (proj2 (Z.ltb_ge i 0)) by lia.
    rewrite (proj2 (Z.ltb_ge (Z.of_nat num) i)) by lia.
    cbn [orb]. rewrite (proj2 (Z.eqb_neq i (-1))) by lia.
    now rewrite L, G.
  - intros ->. rewrite In_range by lia. destruct Last as (tc & L & N).
    rewrite (proj2 (Z.ltb_ge (Z.of_nat num) 0) (Nat2Z.is_nonneg num)).
    rewrite Z.ltb_irrefl. cbn [orb].
    assert (E : (Z.of_nat num =? -1) = false) by (apply Z.eqb_neq; lia).
    now rewrite E, Nat2Z.id, L, (getTest_unnamed tc N).
  - intros Out.
    assert (E : exists i,
               scanned EP_TEST_NUM = Some i /\
               (if (i <? 0) || (Z.of_nat num <? i) then -1 else i) = -1).
    { destruct EP_TEST_NUM as [i |]; [| now exists (-1)].
      exists i. destruct (Out i eq_refl) as [Lt | Gt].
      - rewrite In_range by lia. split; [reflexivity |].
        now rewrite (proj2 (Z.ltb_lt i 0)) by lia.
      - rewrite In_range by lia. split; [reflexivity |].
        rewrite (proj2 (Z.ltb_lt (Z.of_nat num) i)) by lia.
        now rewrite orb_true_r. }
    destruct E as (i & -> & E). cbv zeta. rewrite E. cbn [Z.eqb Pos.eqb].
    now apply (all_tests_all tcs num num).
  - intros i -> [Lo | Hi]; unfold scanned.
    + now rewrite (proj2 (Z.ltb_lt i INT_MIN)) by lia.
    + rewrite (proj2 (Z.ltb_lt INT_MAX i)) by lia.
      now rewrite orb_true_r.
Qed.

End GetTests.

(** A suite of two tests, the second one skipped. *)
Definition suite : list (BaseTestCase nat) :=
  [mkTestCase (Some "expiry"%string) None false 1%nat;
   mkTestCase (Some "warmup"%string) (Some "dbname=/tmp/w"%string) true
              2%nat;
   mkTestCase None None false 0%nat].

Lemma X25_get_tests_witness :
  (forall i, Some 1 = Some i -> 0 <= i < Z.of_nat 2 ->
     exists tc r,
       suite !! Z.to_nat i = Some tc /\
       getTest "/tmp/test" tc = Some r /\
       get_tests "/tmp/test" suite (Some 1) = Some [r]) /\
  (Some 1 = Some (Z.of_nat 2) ->
     get_tests "/tmp/test" suite (Some 1) = None) /\
  ((forall i, Some 1 = Some i ->
              INT_MIN <= i < 0 \/ Z.of_nat 2 < i <= INT_MAX) ->
     exists rs,
       get_tests "/tmp/test" suite (Some 1) = Some rs /\
       Forall2 (fun tc r => getTest "/tmp/test" tc = Some r)
               (take 2 suite) rs) /\
  (forall i, Some 1 = Some i -> i < INT_MIN \/ INT_MAX < i ->
     get_tests "/tmp/test" suite (Some 1) = None).
Proof.
  apply (X25_get_tests_selects_by_EP_TEST_NUM "/tmp/test" nat suite 2
           (Some 1)).
  - reflexivity.
  - vm_compute. discriminate.
Defined.

Example suite_selection :
  get_tests "/tmp/test" suite (Some 1) =
  Some [mkTest "warmup (skipped)" (Some "dbname=/tmp/w;"%string)
               skipped_test_function] /\
  get_tests "/tmp/test" suite (Some 2) = None /\
  option_map (map test_name) (get_tests "/tmp/test" suite (Some 3)) =
  Some ["expiry (couchstore)"; "warmup (skipped)"]%string /\
  option_map (map test_name) (get_tests "/tmp/test" suite None) =
  Some ["expiry (couchstore)"; "warmup (skipped)"]%string.
Proof. vm_compute. repeat split. Qed.

End TestsuiteFacts.
